(** * paulstuart/geo: nearest-point search and range scan over sorted points

    A shallow embedding of the Go package [geo] (the geo-math primitives, the
    [Point] order, the two nearest-neighbour searches [Closest] and [Bestest],
    and the record store [Iter] with its range scan [Ranger]), followed by the
    properties of the specification that were checked against it.

    Conventions of the embedding.
    - A Go [float64] (and the generic [T Float]) is a real number: arithmetic
      is exact, there is no rounding, no infinity and no NaN.  Comparisons are
      the decidable comparisons of [R] turned into [bool].
    - A Go [int] is a [Z]; where the source multiplies and adds offsets
      (mmap.go) the 64-bit wrap-around is written out with [wrap64].
    - A run-time panic (index or slice out of range, integer division by zero,
      [panic(err)]) is the outcome [Panic].
    - Code that reads records or calls back is written in a small trace monad:
      a computation yields the list of events it performed and an outcome. *)

From Stdlib Require Import Ascii String.
From Stdlib Require Import Reals Lra ZArith Lia List Bool Sorted Machin.
From Stdlib Require Strings.Byte.
Import ListNotations.

Set Implicit Arguments.

(* ===================================================================== *)
(** ** Outcomes and the trace monad *)
(* ===================================================================== *)

(** What a Go call can end in: a value or a run-time panic.  The loops of the
    model are cut by fuel; [OutOfFuel] is the outcome of a loop whose fuel
    runs out, which the properties below show never to happen. *)
Inductive outcome (A : Type) : Type :=
| Ret (a : A)
| Panic
| OutOfFuel.

Arguments Ret {A} a.
Arguments Panic {A}.
Arguments OutOfFuel {A}.

(** A computation over events [E]: the events performed, in order, and the
    outcome. *)
Definition M (E A : Type) : Type := (list E * outcome A)%type.

Definition ret {E A} (a : A) : M E A := ([], Ret a).

Definition bind {E A B} (m : M E A) (f : A -> M E B) : M E B :=
  match m with
  | (t, Ret a) => let (t', r) := f a in (t ++ t', r)
  | (t, Panic) => (t, Panic)
  | (t, OutOfFuel) => (t, OutOfFuel)
  end.

Definition emit {E} (e : E) : M E unit := ([e], Ret tt).
Definition panic {E A} : M E A := ([], Panic).
Definition out_of_fuel {E A} : M E A := ([], OutOfFuel).

(** An optional value read as a computation: [None] is a panic. *)
Definition lift {E A} (o : option A) : M E A :=
  match o with
  | Some a => ret a
  | None => panic
  end.

Definition trace {E A} (m : M E A) : list E := fst m.
Definition result {E A} (m : M E A) : outcome A := snd m.

Declare Scope geo_scope.
Delimit Scope geo_scope with geo.
Notation "x <- m ;; k" := (bind m (fun x => k))
  (at level 61, m at next level, right associativity) : geo_scope.
Notation "m ;;; k" := (bind m (fun _ => k))
  (at level 61, right associativity) : geo_scope.
Local Open Scope geo_scope.

(* ===================================================================== *)
(** ** Numbers *)
(* ===================================================================== *)

Open Scope R_scope.

(** [a < b] and [a <= b] on floats, as the booleans the code branches on. *)
Definition flt (a b : R) : bool := if Rlt_dec a b then true else false.
Definition fle (a b : R) : bool := if Rle_dec a b then true else false.

(** Go's conversion [int(x)] of a float: truncation toward zero. *)
Definition int_of_float (x : R) : Z :=
  if Rle_dec 0 x then Zfloor x else Zceil x.

(** Two's-complement wrap-around of a 64-bit [int]. *)
Definition wrap64 (z : Z) : Z :=
  ((z + 2 ^ 63) mod 2 ^ 64 - 2 ^ 63)%Z.

Definition max_int : Z := (2 ^ 63 - 1)%Z.

(** [a[i]] on an array or slice: out of range is a panic ([None]). *)
Definition index {A} (l : list A) (i : Z) : option A :=
  if (0 <=? i)%Z then nth_error l (Z.to_nat i) else None.

(* ===================================================================== *)
(** ** Geo-math primitives (package [geo]) *)
(* ===================================================================== *)

Definition DegreeToKilometer : R := 111.111.
Definition MilesToKilometer : R := 1.609344.
Definition EarthRadiusInKM : R := 6371.1.
Definition SquareKmPerSquareMile : R := 0.386102.

Definition Radian : R := PI / 180.

Definition deg2rad (d : R) : R := d * Radian.

(** [LonKilos]: kilometers per degree of longitude at latitude [lat]. *)
Definition LonKilos (lat : R) : R := cos (deg2rad lat) * DegreeToKilometer.

(** The table [lonKmLookup [901]float64], as [init] fills it:
    entry [i] is [LonKilos (float64(i) / 10.0)]. *)
Definition lonKmLookup : list R :=
  map (fun i : nat => LonKilos (INR i / 10)) (seq 0 901).

(** [LookupLonKmPerLat]: [idx := int(lat * 10); return lonKmLookup[idx]]. *)
Definition LookupLonKmPerLat (lat : R) : option R :=
  let idx := int_of_float (lat * 10) in
  index lonKmLookup idx.

Definition LongitudeKilometerDegrees (lat kilometers : R) : R :=
  kilometers / LonKilos lat.

Definition LongitudeKilometers (lat lon : R) : R := LonKilos lat * lon.

Definition Pair : Type := (R * R)%type.
Definition Rect : Type := (Pair * Pair)%type.

(** [Expand]: the box around [(lat, lon)]. *)
Definition Expand (lat lon radiusKM : R) : Rect :=
  let latx := radiusKM / lon in
  let lonx := LongitudeKilometerDegrees lat radiusKM in
  ((lat - latx, lon - lonx), (lat + latx, lon + lonx)).

(** [AreaInRange64], the sibling of [Expand]. *)
Definition AreaInRange64 (pt : Pair) (distance : R) : Rect :=
  let lat := fst pt in
  let lon := snd pt in
  let deltaLat := distance / DegreeToKilometer in
  let deltaLon := LongitudeKilometerDegrees lat distance in
  ((lat - deltaLat, lon - deltaLon), (lat + deltaLat, lon + deltaLon)).

(** Half-widths of a box, in latitude and in longitude. *)
Definition lat_halfwidth (r : Rect) : R := (fst (snd r) - fst (fst r)) / 2.
Definition lon_halfwidth (r : Rect) : R := (snd (snd r) - snd (fst r)) / 2.

(** [Distance]: great-circle distance by the spherical law of cosines. *)
Definition Distance (lat1 lon1 lat2 lon2 : R) : R :=
  let dlat1 := deg2rad lat1 in
  let dlon1 := deg2rad lon1 in
  let dlat2 := deg2rad lat2 in
  let dlon2 := deg2rad lon2 in
  acos (sin dlat1 * sin dlat2 + cos dlat1 * cos dlat2 * cos (dlon2 - dlon1))
  * EarthRadiusInKM.

Definition DistanceGeoType (lat1 lon1 lat2 lon2 : R) : R :=
  Distance lat1 lon1 lat2 lon2.

(** [math.Pow(x, 2)], the only use of [math.Pow] in the package. *)
Definition Pow2 (x : R) : R := x * x.

(** [ApproximateDistanceGeo]: planar distance; the longitude scale is looked
    up at the FIRST latitude, and the lookup can panic. *)
Definition ApproximateDistanceGeo (lat1 lon1 lat2 lon2 : R) : option R :=
  match LookupLonKmPerLat lat1 with
  | None => None
  | Some lonDegreeKm =>
      let a := (lat2 - lat1) * DegreeToKilometer in
      let b := (lon2 - lon1) * lonDegreeKm in
      Some (sqrt (Pow2 a + Pow2 b))
  end.

(** [between] and [Within]. *)
Definition between (check min max : R) : bool :=
  fle min check && fle check max.

Definition Within (lat lon minLat minLon maxLat maxLon : R) : bool :=
  between lat minLat maxLat && between lon minLon maxLon.

(* ===================================================================== *)
(** ** Points and their order *)
(* ===================================================================== *)

Record Point : Type := mkPoint { Lat : R; Lon : R }.

(** [Point.Less]: latitude first, longitude second. *)
Definition Less (p x : Point) : bool :=
  if flt (Lat p) (Lat x) then true
  else if flt (Lat x) (Lat p) then false
  else flt (Lon p) (Lon x).

(** [p.Distance(x)] and [p.Approximately(x)]. *)
Definition Point_Distance (p x : Point) : option R :=
  Some (DistanceGeoType (Lat p) (Lon p) (Lat x) (Lon x)).

Definition Approximately (p x : Point) : option R :=
  ApproximateDistanceGeo (Lat p) (Lon p) (Lat x) (Lon x).

(** The interface [GeoPoints]: a length and a read by index, which panics
    ([None]) where the implementation does. *)
Record GeoPoints : Type := mkGeoPoints {
  Len : Z;
  IndexPoint : Z -> option Point
}.

(** A slice of points as a [GeoPoints]. *)
Definition slicePoints (l : list Point) : GeoPoints :=
  {| Len := Z.of_nat (length l); IndexPoint := index l |}.

(* ===================================================================== *)
(** ** Loops *)
(* ===================================================================== *)

(** Go's [sort.Search(n, f)] (standard library): the loop
    [i, j := 0, n; for i < j { h := int(uint(i+j) >> 1);
       if !f(h) { i = h + 1 } else { j = h } }; return i]. *)
Fixpoint search_loop {E} (fuel : nat) (f : Z -> M E bool) (i j : Z) : M E Z :=
  if (i <? j)%Z then
    match fuel with
    | O => out_of_fuel
    | S k =>
        let h := ((i + j) / 2)%Z in
        b <- f h ;;
        if negb b then search_loop k f (h + 1)%Z j
        else search_loop k f i h
    end
  else ret i.

Definition sort_Search {E} (n : Z) (f : Z -> M E bool) : M E Z :=
  search_loop (Z.to_nat n) f 0%Z n.

(** One turn of a [for] body: [Next] falls through to the post statement (also
    on [continue]), [Break] leaves the loop. *)
Inductive step (S : Type) : Type :=
| Next (s : S)
| Break (s : S).

Arguments Next {S} s.
Arguments Break {S} s.

(** [for i := i0; cond(i); i = next(i) { body }] over loop variables [S]. *)
Fixpoint for_loop {E S} (fuel : nat) (cond : Z -> bool) (next : Z -> Z)
    (body : Z -> S -> M E (step S)) (i : Z) (s : S) : M E S :=
  if cond i then
    match fuel with
    | O => out_of_fuel
    | S k =>
        r <- body i s ;;
        match r with
        | Next s' => for_loop k cond next body (next i) s'
        | Break s' => ret s'
        end
    end
  else ret s.

(* ===================================================================== *)
(** ** Nearest-neighbour search *)
(* ===================================================================== *)

(** What a search does to the sequence: it reads the point at an index, and it
    measures the distance from the query to the point at an index. *)
Inductive probe : Type :=
| Read (i : Z)
| Measure (i : Z).

Definition read (g : GeoPoints) (i : Z) : M probe Point :=
  emit (Read i) ;;; lift (IndexPoint g i).

Definition measure (i : Z) (dist : option R) : M probe R :=
  emit (Measure i) ;;; lift dist.

(** The variables both scans update. *)
Record vars : Type := mkVars {
  closest : R;
  best : Z;
  minLat : R;
  deltaLon : R
}.

(** The closure [lonOutside]; it sees the current [deltaLon]. *)
Definition lonOutside (pt : Point) (deltaLon lon : R) : bool :=
  let maxLon := Lon pt + deltaLon in
  let minLon := Lon pt - deltaLon in
  flt lon minLon || flt maxLon lon.

(** The binary search both variants start with:
    [sort.Search(g.Len(), func(i int) bool { h := g.IndexPoint(i);
     return pt.Less(h) })]. *)
Definition seed (g : GeoPoints) (pt : Point) : M probe Z :=
  sort_Search (Len g) (fun i => h <- read g i ;; ret (Less pt h)).

(** Body of the backward scan [for i := x - 1; i > 0; i--].  The two variants
    differ in the metric only: [pt.Approximately(this)] in [Closest],
    [pt.Distance(this)] in [Bestest]. *)
Definition backward (metric : Point -> Point -> option R) (g : GeoPoints)
    (pt : Point) (lonKmPerDegree : R) (i : Z) (s : vars) : M probe (step vars) :=
  this <- read g i ;;
  if flt (Lat this) (minLat s) then ret (Break s)
  else if lonOutside pt (deltaLon s) (Lon this) then ret (Next s)
  else
    dist <- measure i (metric pt this) ;;
    if flt dist (closest s) then
      ret (Next {| closest := dist;
                   best := i;
                   minLat := Lat pt - dist / DegreeToKilometer;
                   deltaLon := dist / lonKmPerDegree |})
    else ret (Next s).

(** Body of the forward scan [for i := x + 1; i < g.Len(); i++], over [maxLat]
    and the variables; the metric is [this.Approximately(pt)] or
    [this.Distance(pt)].  An improvement assigns [best], [closest] and
    [maxLat], and nothing else. *)
Definition forward (metric : Point -> Point -> option R) (g : GeoPoints)
    (pt : Point) (i : Z) (ms : R * vars) : M probe (step (R * vars)) :=
  let (maxLat, s) := ms in
  this <- read g i ;;
  if flt maxLat (Lat this) then ret (Break (maxLat, s))
  else if lonOutside pt (deltaLon s) (Lon this) then ret (Next (maxLat, s))
  else
    dist <- measure i (metric this pt) ;;
    if flt dist (closest s) then
      ret (Next (Lat pt + dist / DegreeToKilometer,
                 {| closest := dist;
                    best := i;
                    minLat := minLat s;
                    deltaLon := deltaLon s |}))
    else ret (Next (maxLat, s)).

(** Both scans, from the variables as they stand after the first hit; between
    them, [maxLat := pt.Lat + closest / DegreeToKilometer]. *)
Definition scans (metric : Point -> Point -> option R) (g : GeoPoints)
    (pt : Point) (lonKmPerDegree : R) (x : Z) (s0 : vars) : M probe (R * vars) :=
  s <- for_loop (Z.to_nat x) (fun i => (0 <? i)%Z) Z.pred
         (backward metric g pt lonKmPerDegree) (x - 1)%Z s0 ;;
  let maxLat := Lat pt + closest s / DegreeToKilometer in
  for_loop (Z.to_nat (Len g - x)) (fun i => (i <? Len g)%Z) Z.succ
    (forward metric g pt) (x + 1)%Z (maxLat, s).

(** [Closest] after a successful binary search at [x]: the variables at the
    [return], with [lonKmPerDegree] and [maxLat]. *)
Definition Closest_vars (g : GeoPoints) (pt : Point) (deltaKm : R) (x : Z)
    : M probe (R * (R * vars)) :=
  let minLat := Lat pt - deltaKm / DegreeToKilometer in
  let best := x in
  this <- read g x ;;
  dist <- measure x (Approximately this pt) ;;
  let closest := dist in
  lonKmPerDegree <- lift (LookupLonKmPerLat (Lat pt)) ;;
  let deltaLon := closest / lonKmPerDegree in
  ms <- scans Approximately g pt lonKmPerDegree x
          {| closest := closest; best := best;
             minLat := minLat; deltaLon := deltaLon |} ;;
  ret (lonKmPerDegree, ms).

Definition Closest (g : GeoPoints) (pt : Point) (deltaKm : R) : M probe (Z * R) :=
  x <- seed g pt ;;
  if (x =? Len g)%Z then ret (x, -1)
  else
    r <- Closest_vars g pt deltaKm x ;;
    ret (best (snd (snd r)), closest (snd (snd r))).

(** [Bestest] after a successful binary search at [x]. *)
Definition Bestest_vars (g : GeoPoints) (pt : Point) (deltaKm : R) (x : Z)
    : M probe (R * (R * vars)) :=
  let minLat := Lat pt - deltaKm / DegreeToKilometer in
  let best := Len g in
  let closest := deltaKm + 0.0001 in
  this <- read g x ;;
  dist <- measure x (Point_Distance this pt) ;;
  let (closest, best) :=
    if flt dist closest then (dist, x) else (closest, best) in
  let lonKmPerDegree := LonKilos (Lat pt) in
  let deltaLon := closest / lonKmPerDegree in
  ms <- scans Point_Distance g pt lonKmPerDegree x
          {| closest := closest; best := best;
             minLat := minLat; deltaLon := deltaLon |} ;;
  ret (lonKmPerDegree, ms).

Definition Bestest (g : GeoPoints) (pt : Point) (deltaKm : R) : M probe (Z * R) :=
  x <- seed g pt ;;
  if (x =? Len g)%Z then ret (x, -1)
  else
    r <- Bestest_vars g pt deltaKm x ;;
    ret (best (snd (snd r)), closest (snd (snd r))).

(* ===================================================================== *)
(** ** The record store (mmap.go) *)
(* ===================================================================== *)

(** The interface [Decoder], over the state [St] a decoder holds once it has
    decoded a record.  [Decode] overwrites that state from the bytes it is
    given ([None] is the error it returns); [Point] and [Less] read it.
    [JSON] writes to a stream and is left out. *)
Record Decoder (St : Type) : Type := mkDecoder {
  Size : Z;
  Decode : list Byte.byte -> option St;
  DPoint : St -> Point;
  DLess : St -> Point -> bool
}.

(** [Iter]: the mapped bytes [m.B] and the decoder [d]. *)
Record Iter (St : Type) : Type := mkIter {
  B : list Byte.byte;
  d : Decoder St
}.

(** [len(b)] of a slice, and the slice expression [b[off:end]]: a panic
    ([None]) unless [0 <= off <= end <= cap(b)]; the capacity of the mapped
    buffer is its length. *)
Definition len {A} (b : list A) : Z := Z.of_nat (length b).

Definition slice {A} (b : list A) (off end_ : Z) : option (list A) :=
  if ((0 <=? off) && (off <=? end_) && (end_ <=? len b))%Z
  then Some (firstn (Z.to_nat (end_ - off)) (skipn (Z.to_nat off) b))
  else None.

(** [Iter.Len]: [len(m.m.B) / m.d.Size()], Go's truncated division, which
    panics on a zero divisor. *)
Definition Iter_Len {St} (m : Iter St) : option Z :=
  if (Size (d m) =? 0)%Z then None
  else Some (Z.quot (len (B m)) (Size (d m))).

(** What the range scan does to the store: it asks for the record at an index
    (the slice expression and the decode follow), and it calls back.  The
    callback is handed the decoder [m.d] itself; the event keeps the record
    the decoder holds at that moment. *)
Inductive access (St : Type) : Type :=
| Fetch (i : Z)
| Callback (rec : St).

Arguments Fetch {St} i.
Arguments Callback {St} rec.

(** [Iter.Load]: decode the record at [i] into the decoder. *)
Definition Load {St} (m : Iter St) (i : Z) : M (access St) St :=
  emit (Fetch i) ;;;
  let off := wrap64 (Size (d m) * i) in
  let end_ := wrap64 (off + Size (d m)) in
  buf <- lift (slice (B m) off end_) ;;
  lift (Decode (d m) buf).

(** [Iter.IndexPoint]: the same decode, then [m.d.Point()]. *)
Definition Iter_IndexPoint {St} (m : Iter St) (i : Z) : M (access St) Point :=
  emit (Fetch i) ;;;
  let off := wrap64 (Size (d m) * i) in
  let end_ := wrap64 (off + Size (d m)) in
  buf <- lift (slice (B m) off end_) ;;
  cur <- lift (Decode (d m) buf) ;;
  ret (DPoint (d m) cur).

(** [Iter.Less], on the record the decoder holds. *)
Definition Iter_Less {St} (m : Iter St) (cur : St) (pt : Point) : bool :=
  DLess (d m) cur pt.

(** The [error] a range scan returns. *)
Inductive error : Type :=
| nil_error
| ErrNotFound.

(** The loop of [Ranger]: [for { m.Load(idx); if !m.Less(to) { break }; ...;
    idx++ }].  [ctr] is the optional [Container]; [None] is a nil interface. *)
Fixpoint Ranger_loop {St} (fuel : nat) (m : Iter St) (from to : Point)
    (ctr : option (Point -> bool)) (idx : Z) : M (access St) unit :=
  match fuel with
  | O => out_of_fuel
  | S k =>
      cur <- Load m idx ;;
      if negb (Iter_Less m cur to) then ret tt
      else
        let pt := DPoint (d m) cur in
        (if between (Lon pt) (Lon from) (Lon to) then
           match ctr with
           | None => emit (Callback cur)
           | Some ContainsPoint =>
               if ContainsPoint (DPoint (d m) cur) then emit (Callback cur)
               else ret tt
           end
         else ret tt) ;;;
        Ranger_loop k m from to ctr (idx + 1)%Z
  end.

(** [Iter.Ranger]. *)
Definition Ranger {St} (m : Iter St) (from to : Point)
    (ctr : option (Point -> bool)) : M (access St) error :=
  size <- lift (Iter_Len m) ;;
  idx <- sort_Search size
           (fun i => p <- Iter_IndexPoint m i ;; ret (Less from p)) ;;
  if (idx =? size)%Z then ret ErrNotFound
  else
    Ranger_loop (S (Z.to_nat (size - idx))) m from to ctr idx ;;;
    ret nil_error.

(** The records a scan passed to its callback, in order. *)
Fixpoint callbacks {St} (t : list (access St)) : list St :=
  match t with
  | [] => []
  | Fetch _ :: t' => callbacks t'
  | Callback rec :: t' => rec :: callbacks t'
  end.

(** The record of index [i] in the buffer, if the buffer has it and the
    decoder accepts it. *)
Definition record_at {St} (m : Iter St) (i : Z) : option St :=
  match slice (B m) (Size (d m) * i) (Size (d m) * i + Size (d m)) with
  | Some buf => Decode (d m) buf
  | None => None
  end.

(** A store is sorted when the records it decodes are in the [Point] order:
    no later record is less than an earlier one. *)
Definition sorted_store {St} (m : Iter St) : Prop :=
  forall i j ri rj,
    (0 <= i <= j)%Z ->
    record_at m i = Some ri -> record_at m j = Some rj ->
    Less (DPoint (d m) rj) (DPoint (d m) ri) = false.

(** A decoder whose [Less] is the [Point] order on the point it holds. *)
Definition lawful {St} (dec : Decoder St) : Prop :=
  forall cur pt, DLess dec cur pt = Less (DPoint dec cur) pt.

(** A sequence is sorted when no later point is less than an earlier one. *)
Definition sorted_points (l : list Point) : Prop :=
  forall i j p q,
    (i <= j)%nat -> nth_error l i = Some p -> nth_error l j = Some q ->
    Less q p = false.

(** [p <= q] in the [Point] order. *)
Definition Point_le (p q : Point) : Prop := Less q p = false.

(** A small store for examples: records of two bytes, latitude then longitude,
    each a whole number of degrees. *)
Definition degrees (b : Byte.byte) : R := IZR (Z.of_N (Byte.to_N b)).

Definition byteDecoder : Decoder Point :=
  {| Size := 2;
     Decode := fun buf =>
       match buf with
       | [a; b] => Some {| Lat := degrees a; Lon := degrees b |}
       | _ => None
       end;
     DPoint := fun cur => cur;
     DLess := fun cur pt => Less cur pt |}.

(** The number of whole records of a store with a positive record size. *)
Definition records {St} (m : Iter St) : Z := (len (B m) / Size (d m))%Z.

(** What a range scan may call back with, from index [k] on: a record of
    the store at an index from [k] up to the last, less than [to] and with
    its longitude between the two bounds. *)
Definition visited {St} (m : Iter St) (from to : Point) (k : Z) (rec : St)
    : Prop :=
  (exists j, (k <= j < records m)%Z /\ record_at m j = Some rec)
  /\ Lon from <= Lon (DPoint (d m) rec) <= Lon to
  /\ Less (DPoint (d m) rec) to = true.

(** Two stores over [byteDecoder]: one record (1,1); and the records (1,1),
    (2,2) followed by one byte of a third. *)
Definition store_one : Iter Point :=
  {| B := [Byte.x01; Byte.x01]; d := byteDecoder |}.

Definition store_tail : Iter Point :=
  {| B := [Byte.x01; Byte.x01; Byte.x02; Byte.x02; Byte.x03];
     d := byteDecoder |}.

(* ===================================================================== *)
(** ** The rest of the package *)
(* ===================================================================== *)

(** [a == b] on floats. *)
Definition feq (a b : R) : bool := if Req_dec_T a b then true else false.

(** [ApproximateDistance], the [float64] twin of [ApproximateDistanceGeo]:
    here the longitude scale is looked up at the SECOND latitude. *)
Definition ApproximateDistance (lat1 lon1 lat2 lon2 : R) : option R :=
  match LookupLonKmPerLat lat2 with
  | None => None
  | Some lonDegreeKm =>
      let a := (lat2 - lat1) * DegreeToKilometer in
      let b := (lon2 - lon1) * lonDegreeKm in
      Some (sqrt (Pow2 a + Pow2 b))
  end.

(** [AreaInKm], [SquareKmInMiles] and [AreaInMiles]. *)
Definition AreaInKm (lat1 lon1 lat2 lon2 : R) : R :=
  let delta := Rabs (lon2 - lon1) in
  let d1 := LongitudeKilometers lat1 delta in
  let d2 := LongitudeKilometers lat2 delta in
  let avg := Rabs (d2 + d1) / 2 in
  let h := Rabs (lat2 - lat1) * DegreeToKilometer in
  let a := h * avg in
  a.

Definition SquareKmInMiles (k : R) : R := k * SquareKmPerSquareMile.

Definition AreaInMiles (lat1 lon1 lat2 lon2 : R) : R :=
  SquareKmInMiles (AreaInKm lat1 lon1 lat2 lon2).

(** The errors of [coordCheck], one per [case]; the message of each is a
    format of the coordinate it carries. *)
Inductive coord_error : Type :=
| RequiresFour
| ZeroCoordinates
| LatitudeNegative (c : R)
| LongitudePositive (c : R)
| LatitudeOrder (lo hi : R)
| LongitudeOrder (lo hi : R).

(** [coordCheck(coord ...T)]: [None] is [nil].  The [switch] takes the first
    case that holds. *)
Definition coordCheck (coord : list R) : option coord_error :=
  match coord with
  | c0 :: c1 :: c2 :: c3 :: _ =>
      if feq c0 0 && feq c1 0 && feq c2 0 && feq c3 0 then Some ZeroCoordinates
      else if flt c0 0 then Some (LatitudeNegative c0)
      else if flt 0 c1 then Some (LongitudePositive c1)
      else if flt c2 0 then Some (LatitudeNegative c2)
      else if flt 0 c3 then Some (LongitudePositive c3)
      else if flt c2 c0 then Some (LatitudeOrder c0 c2)
      else if flt c3 c1 then Some (LongitudeOrder c1 c3)
      else None
  | _ => Some RequiresFour
  end.

(** Go's [strings.Split(s, sep)] for a separator of one byte (the package
    splits on "," and on "/" only): the pieces between the separators, one
    piece more than there are separators. *)
Fixpoint Split (s : string) (sep : ascii) : list string :=
  match s with
  | EmptyString => [EmptyString]
  | String c s' =>
      if Ascii.eqb c sep then EmptyString :: Split s' sep
      else
        match Split s' sep with
        | [] => [String c EmptyString]
        | piece :: pieces => String c piece :: pieces
        end
  end.

(** How many times a separator occurs in a string. *)
Fixpoint count_char (sep : ascii) (s : string) : nat :=
  match s with
  | EmptyString => 0
  | String c s' =>
      (if Ascii.eqb c sep then 1 else 0) + count_char sep s'
  end.

Definition comma : ascii := ","%char.
Definition slash : ascii := "/"%char.

(** The errors of the parsers.  [ParseFailure] and the two [Invalid...]
    wrap [ErrInvalidCoordinates]; [BadCoordinates] wraps the error of
    [coordCheck].  [InvalidLongitude] carries the field its message quotes. *)
Inductive parse_error : Type :=
| ErrInvalidCoordinates
| ParseFailure (i n : nat) (s : string)
| BadCoordinates (e : coord_error)
| InvalidLatitude (quoted : string)
| InvalidLongitude (quoted : string).

(** [geos(ss ...string)]: every field through [strconv.ParseFloat(s, 64)],
    which is taken as a parameter; the first failure ends the loop with the
    index, the count and the field. *)
Fixpoint geos_from (ParseFloat : string -> option R) (i n : nat)
    (ss : list string) : list R + (nat * nat * string) :=
  match ss with
  | [] => inl []
  | s :: rest =>
      match ParseFloat s with
      | None => inr (i, n, s)
      | Some f =>
          match geos_from ParseFloat (S i) n rest with
          | inl ff => inl (f :: ff)
          | inr e => inr e
          end
      end
  end.

Definition geos (ParseFloat : string -> option R) (ss : list string)
    : list R + (nat * nat * string) :=
  geos_from ParseFloat 0 (length ss) ss.

(** [Coords]: four fields, split on "," or else on "/". *)
Definition Coords (ParseFloat : string -> option R) (query : string)
    : list R + parse_error :=
  let parts := Split query comma in
  let parts :=
    if negb (length parts =? 4)%nat then Split query slash else parts in
  if negb (length parts =? 4)%nat then inr ErrInvalidCoordinates
  else
    match geos ParseFloat parts with
    | inr (i, n, s) => inr (ParseFailure i n s)
    | inl coords =>
        match coordCheck coords with
        | Some e => inr (BadCoordinates e)
        | None => inl coords
        end
    end.

(** [QueryCoords]: the pair and the error it returns together; the pair is
    zero when the error is not [nil]. *)
Definition QueryCoords (ParseFloat : string -> option R) (s : string)
    : Pair * option parse_error :=
  let parts := Split s comma in
  let parts := if (length parts <? 2)%nat then Split s slash else parts in
  match parts with
  | p0 :: p1 :: _ =>
      match ParseFloat p0 with
      | None => ((0, 0), Some (InvalidLatitude p0))
      | Some lat =>
          match ParseFloat p1 with
          | None => ((0, 0), Some (InvalidLongitude p0))
          | Some lon => ((lat, lon), None)
          end
      end
  | _ => ((0, 0), Some ErrInvalidCoordinates)
  end.

(** [QueryPoint]. *)
Definition QueryPoint (ParseFloat : string -> option R) (s : string)
    : Point * option parse_error :=
  let (pt, err) := QueryCoords ParseFloat s in
  ({| Lat := fst pt; Lon := snd pt |}, err).

(** A [ParseFloat] for the examples: it reads a run of decimal digits with
    an optional minus sign, as [strconv.ParseFloat] does, and nothing else. *)
Definition digit (c : ascii) : option Z :=
  let n := Z.of_nat (nat_of_ascii c) in
  if ((48 <=? n) && (n <=? 57))%Z then Some (n - 48)%Z else None.

Fixpoint digits (acc : Z) (s : string) : option Z :=
  match s with
  | EmptyString => Some acc
  | String c s' =>
      match digit c with
      | Some v => digits (10 * acc + v)%Z s'
      | None => None
      end
  end.

Definition parseWhole (s : string) : option R :=
  match s with
  | EmptyString => None
  | String c s' =>
      if Ascii.eqb c "-"%char then
        match s' with
        | EmptyString => None
        | _ => option_map (fun z => IZR (- z)) (digits 0 s')
        end
      else option_map IZR (digits 0 s)
  end.

(** [binary.LittleEndian.Uint64(b)]: the first eight bytes, least
    significant first; a panic ([None]) on a shorter slice. *)
Definition byte_val (b : Byte.byte) : Z := Z.of_N (Byte.to_N b).

Definition Uint64 (b : list Byte.byte) : option Z :=
  match b with
  | b0 :: b1 :: b2 :: b3 :: b4 :: b5 :: b6 :: b7 :: _ =>
      Some (byte_val b0 + 2 ^ 8 * byte_val b1 + 2 ^ 16 * byte_val b2
            + 2 ^ 24 * byte_val b3 + 2 ^ 32 * byte_val b4
            + 2 ^ 40 * byte_val b5 + 2 ^ 48 * byte_val b6
            + 2 ^ 56 * byte_val b7)%Z
  | _ => None
  end.

(** The number a list of bytes writes in base 256, lowest place first. *)
Fixpoint base256 (l : list Byte.byte) : Z :=
  match l with
  | [] => 0
  | b :: l' => byte_val b + 256 * base256 l'
  end.

(** [DecodePair]; [math.Float64frombits] is taken as a parameter. *)
Definition DecodePair (Float64frombits : Z -> R) (buf : list Byte.byte)
    : option Pair :=
  match Uint64 buf with
  | None => None
  | Some latbits =>
      let Lat := Float64frombits latbits in
      match slice buf 8 (len buf) with
      | None => None
      | Some rest =>
          match Uint64 rest with
          | None => None
          | Some lonbits =>
              let Lon := Float64frombits lonbits in
              Some (Lat, Lon)
          end
      end
  end.

(** Go's [copy(dst, src)]: the slice [dst] after the copy, and the count. *)
Definition copy {A} (dst src : list A) : list A * Z :=
  let n := Z.min (len dst) (len src) in
  (firstn (Z.to_nat n) src ++ skipn (Z.to_nat n) dst, n).

(** [MFile.ReadAt(p, i)]: the slice [p] after the call, the count and the
    error; [m.B[i:]] panics on a negative [i]. *)
Inductive read_error : Type :=
| IndexExceedsFileSize.

Definition ReadAt (mB p : list Byte.byte) (i : Z)
    : outcome (list Byte.byte * Z * option read_error) :=
  if (len mB <? i)%Z then Ret (p, 0%Z, Some IndexExceedsFileSize)
  else
    match slice mB i (len mB) with
    | None => Panic
    | Some src => let (p', n) := copy p src in Ret (p', n, None)
    end.

(** A probe is in bounds when its index is an index of the sequence. *)
Definition in_bounds (g : GeoPoints) (e : probe) : Prop :=
  match e with
  | Read i => (0 <= i < Len g)%Z
  | Measure i => (0 <= i < Len g)%Z
  end.

(** The records of a store, in order. *)
Definition records_from {St} (m : Iter St) (k cnt : nat) : list St :=
  flat_map (fun i => match record_at m (Z.of_nat i) with
                     | Some rec => [rec]
                     | None => []
                     end) (seq k cnt).

Definition store_records {St} (m : Iter St) : list St :=
  records_from m 0 (Z.to_nat (records m)).

(** What a range scan selects: strictly after [from], strictly before [to],
    longitude between the two, and accepted by the container if there is
    one. *)
Definition accepted (ctr : option (Point -> bool)) (p : Point) : bool :=
  match ctr with
  | None => true
  | Some ContainsPoint => ContainsPoint p
  end.

Definition selected (from to : Point) (ctr : option (Point -> bool))
    (p : Point) : bool :=
  Less from p && Less p to
  && between (Lon p) (Lon from) (Lon to) && accepted ctr p.

(* ===================================================================== *)
(** * Properties *)
(* ===================================================================== *)

Unset Implicit Arguments.

(** ** Comparisons *)

Lemma flt_true (a b : R) : a < b -> flt a b = true.
Proof. intros H. unfold flt. destruct (Rlt_dec a b); [reflexivity | contradiction]. Qed.

Lemma flt_false (a b : R) : b <= a -> flt a b = false.
Proof. intros H. unfold flt. destruct (Rlt_dec a b); [lra | reflexivity]. Qed.

Lemma flt_true_iff (a b : R) : flt a b = true <-> a < b.
Proof.
  unfold flt. destruct (Rlt_dec a b); split; intros; try assumption;
    try reflexivity; try discriminate; contradiction.
Qed.

Lemma flt_false_iff (a b : R) : flt a b = false <-> b <= a.
Proof.
  unfold flt. destruct (Rlt_dec a b); split; intros; try discriminate;
    try reflexivity; lra.
Qed.

Lemma fle_true (a b : R) : a <= b -> fle a b = true.
Proof. intros H. unfold fle. destruct (Rle_dec a b); [reflexivity | contradiction]. Qed.

Lemma fle_false (a b : R) : b < a -> fle a b = false.
Proof. intros H. unfold fle. destruct (Rle_dec a b); [lra | reflexivity]. Qed.

Lemma fle_true_iff (a b : R) : fle a b = true <-> a <= b.
Proof.
  unfold fle. destruct (Rle_dec a b); split; intros; try assumption;
    try reflexivity; try discriminate; contradiction.
Qed.

Lemma between_true_iff (c lo hi : R) : between c lo hi = true <-> lo <= c <= hi.
Proof.
  unfold between. rewrite andb_true_iff, !fle_true_iff. tauto.
Qed.

(** ** Truncation *)

Lemma int_of_float_nonneg (x : R) (n : Z) :
  0 <= x -> x < IZR n -> (0 <= int_of_float x < n)%Z.
Proof.
  intros H0 Hn. unfold int_of_float.
  destruct (Rle_dec 0 x) as [_ | C]; [ | contradiction].
  pose proof (Zfloor_bound x) as [Hlo Hhi].
  split.
  - apply (Zfloor_lub 0 x). exact H0.
  - apply lt_IZR. lra.
Qed.

Lemma int_of_float_small_negative (x : R) : -1 < x < 0 -> int_of_float x = 0%Z.
Proof.
  intros [Hlo Hhi]. unfold int_of_float.
  destruct (Rle_dec 0 x) as [C | _]; [lra | ].
  apply Zceil_eq. simpl. lra.
Qed.

Lemma int_of_float_negative (x : R) : x <= -1 -> (int_of_float x < 0)%Z.
Proof.
  intros H. unfold int_of_float.
  destruct (Rle_dec 0 x) as [C | _]; [lra | ].
  pose proof (Zceil_bound x) as [Hlo _].
  apply lt_IZR. lra.
Qed.

Lemma int_of_float_IZR (n : Z) : int_of_float (IZR n) = n.
Proof.
  unfold int_of_float. destruct (Rle_dec 0 (IZR n)).
  - apply ZfloorZ.
  - apply Zceil_eq. lra.
Qed.

(** ** The lookup table *)

Lemma lonKmLookup_length : length lonKmLookup = 901%nat.
Proof. unfold lonKmLookup. rewrite length_map, length_seq. reflexivity. Qed.

Lemma lonKmLookup_index (i : Z) :
  (0 <= i < 901)%Z -> index lonKmLookup i = Some (LonKilos (IZR i / 10)).
Proof.
  intros [H0 H1]. unfold index, lonKmLookup.
  replace (0 <=? i)%Z with true by (symmetry; apply Z.leb_le; exact H0).
  rewrite nth_error_map, nth_error_seq.
  replace (Z.to_nat i <? 901)%nat with true
    by (symmetry; apply Nat.ltb_lt; lia).
  simpl. rewrite INR_IZR_INZ, Z2Nat.id by exact H0. reflexivity.
Qed.

Lemma lonKmLookup_index_out (i : Z) :
  (i < 0 \/ 901 <= i)%Z -> index lonKmLookup i = None.
Proof.
  intros H. unfold index.
  destruct (0 <=? i)%Z eqn:E; [ | reflexivity].
  apply Z.leb_le in E. apply nth_error_None. rewrite lonKmLookup_length. lia.
Qed.

Lemma LonKilos_0 : LonKilos 0 = 111.111.
Proof.
  unfold LonKilos, deg2rad, DegreeToKilometer.
  rewrite Rmult_0_l, cos_0. lra.
Qed.

Lemma LookupLonKmPerLat_first_cell (lat : R) :
  0 <= lat < 0.1 -> LookupLonKmPerLat lat = Some 111.111.
Proof.
  intros [H0 H1]. unfold LookupLonKmPerLat.
  assert (Hidx : int_of_float (lat * 10) = 0%Z).
  { pose proof (int_of_float_nonneg (lat * 10) 1) as H.
    assert (0 <= int_of_float (lat * 10) < 1)%Z by (apply H; lra). lia. }
  cbv zeta. rewrite Hidx, lonKmLookup_index by lia.
  replace (0 / 10) with 0 by lra. rewrite LonKilos_0. reflexivity.
Qed.

(** ** [Expand] *)

Lemma Expand_lat_halfwidth (lat lon radiusKM : R) :
  lat_halfwidth (Expand lat lon radiusKM) = radiusKM / lon.
Proof. unfold lat_halfwidth, Expand. simpl. lra. Qed.

Lemma Expand_lon_halfwidth (lat lon radiusKM : R) :
  lon_halfwidth (Expand lat lon radiusKM) = radiusKM / LonKilos lat.
Proof.
  unfold lon_halfwidth, Expand, LongitudeKilometerDegrees. simpl. lra.
Qed.

Lemma AreaInRange64_lat_halfwidth (pt : Pair) (distance : R) :
  lat_halfwidth (AreaInRange64 pt distance) = distance / DegreeToKilometer.
Proof. unfold lat_halfwidth, AreaInRange64. simpl. lra. Qed.

(** C3. [Expand] divides the radius by the LONGITUDE of the centre, not by
    the kilometres per degree of latitude: at centre (0, 2) and radius 111.111
    km the box is 55.5555 degrees of latitude either side, where the radius
    over 111.111 is one degree.  (The longitude half-width is the radius over
    the kilometres per degree of longitude, as specified; the sibling
    [AreaInRange64] divides by [DegreeToKilometer].) *)
Theorem Expand_latitude_halfwidth_uses_longitude :
  Expand 0 2 111.111 = ((-55.5555, 1), (55.5555, 3))
  /\ lat_halfwidth (Expand 0 2 111.111) = 55.5555
  /\ 111.111 / DegreeToKilometer = 1
  /\ lat_halfwidth (AreaInRange64 (0, 2) 111.111) = 1.
Proof.
  assert (E : Expand 0 2 111.111 = ((-55.5555, 1), (55.5555, 3))).
  { unfold Expand, LongitudeKilometerDegrees. rewrite LonKilos_0.
    repeat f_equal; lra. }
  split; [exact E | ].
  split; [rewrite Expand_lat_halfwidth; lra | ].
  split; [unfold DegreeToKilometer; lra | ].
  rewrite AreaInRange64_lat_halfwidth. unfold DegreeToKilometer. lra.
Qed.

(** ** [LookupLonKmPerLat] *)

(** C7.  [LookupLonKmPerLat] does not serve the southern hemisphere: one
    degree south is inside the range [|lat| < 90.1], the index [int(lat * 10)]
    is -10 there and the lookup panics, where one degree north returns the
    table's entry.  The function is documented as the kilometres per degree
    of longitude "at the given latitude", and [LonKilos], which it tabulates,
    gives one degree south the same positive value as one degree north. *)
Theorem LookupLonKmPerLat_south_panics :
  Rabs (-1) < 90.1
  /\ int_of_float (-1 * 10) = (-10)%Z
  /\ LookupLonKmPerLat (-1) = None
  /\ LookupLonKmPerLat 1 = Some (LonKilos 1)
  /\ LonKilos (-1) = LonKilos 1
  /\ 0 < LonKilos (-1).
Proof.
  assert (Hidx : int_of_float (-1 * 10) = (-10)%Z).
  { replace (-1 * 10) with (IZR (-10)) by (simpl; lra).
    apply int_of_float_IZR. }
  assert (Hnorth : int_of_float (1 * 10) = 10%Z).
  { replace (1 * 10) with (IZR 10) by (simpl; lra).
    apply int_of_float_IZR. }
  assert (Hsym : LonKilos (-1) = LonKilos 1).
  { unfold LonKilos, deg2rad.
    replace (-1 * Radian) with (- (1 * Radian)) by lra.
    rewrite cos_neg. reflexivity. }
  split; [rewrite Rabs_left; lra | ].
  split; [exact Hidx | ].
  split.
  { unfold LookupLonKmPerLat. cbv zeta. rewrite Hidx.
    apply lonKmLookup_index_out. lia. }
  split.
  { unfold LookupLonKmPerLat. cbv zeta. rewrite Hnorth.
    rewrite lonKmLookup_index by lia.
    replace (IZR 10 / 10) with 1 by (simpl; lra). reflexivity. }
  split; [exact Hsym | ].
  rewrite Hsym. unfold LonKilos, DegreeToKilometer.
  apply Rmult_lt_0_compat; [ | lra].
  pose proof PI_RGT_0 as Hpi. pose proof PI_4 as Hpi4.
  apply cos_gt_0; unfold deg2rad, Radian; lra.
Qed.

(** Where the lookup does answer: for every latitude above -0.1 and below
    90.1 degrees the index [int(lat * 10)] is inside the 901-entry table and
    the lookup returns the entry of that index. *)
Theorem LookupLonKmPerLat_in_bounds (lat : R) :
  -0.1 < lat < 90.1 ->
  (0 <= int_of_float (lat * 10) < 901)%Z
  /\ LookupLonKmPerLat lat
     = Some (LonKilos (IZR (int_of_float (lat * 10)) / 10)).
Proof.
  intros [Hlo Hhi].
  assert (Hidx : (0 <= int_of_float (lat * 10) < 901)%Z).
  { destruct (Rle_dec 0 lat) as [Hpos | Hneg].
    - apply int_of_float_nonneg; lra.
    - rewrite int_of_float_small_negative by lra. lia. }
  split; [exact Hidx | ].
  unfold LookupLonKmPerLat. cbv zeta. apply lonKmLookup_index. exact Hidx.
Qed.

Lemma LookupLonKmPerLat_in_bounds_witness :
  (0 <= int_of_float (45 * 10) < 901)%Z
  /\ LookupLonKmPerLat 45
     = Some (LonKilos (IZR (int_of_float (45 * 10)) / 10)).
Proof. apply (LookupLonKmPerLat_in_bounds 45). lra. Defined.

Lemma LookupLonKmPerLat_below_panics (lat : R) :
  lat <= -0.1 -> LookupLonKmPerLat lat = None.
Proof.
  intros H. unfold LookupLonKmPerLat. cbv zeta.
  apply lonKmLookup_index_out. left. apply int_of_float_negative. lra.
Qed.

Lemma LookupLonKmPerLat_above_panics (lat : R) :
  90.1 <= lat -> LookupLonKmPerLat lat = None.
Proof.
  intros H. unfold LookupLonKmPerLat. cbv zeta.
  apply lonKmLookup_index_out. right.
  unfold int_of_float. destruct (Rle_dec 0 (lat * 10)); [ | lra].
  apply (Zfloor_lub 901). lra.
Qed.

(** ** The trace monad *)

Lemma bind_ret {E A B} (t : list E) (a : A) (f : A -> M E B) :
  bind (t, Ret a) f = (t ++ fst (f a), snd (f a)).
Proof. unfold bind. destruct (f a). reflexivity. Qed.

(** ** The [Point] order *)

Lemma Less_irrefl (p : Point) : Less p p = false.
Proof. unfold Less. rewrite !flt_false by lra. reflexivity. Qed.

Lemma Less_true_iff (p q : Point) :
  Less p q = true <-> Lat p < Lat q \/ (Lat p = Lat q /\ Lon p < Lon q).
Proof.
  unfold Less, flt.
  destruct (Rlt_dec (Lat p) (Lat q)), (Rlt_dec (Lat q) (Lat p)),
    (Rlt_dec (Lon p) (Lon q)); split; intros; try reflexivity;
    try discriminate; lra.
Qed.

Lemma Less_false_iff (p q : Point) :
  Less p q = false <-> Lat q < Lat p \/ (Lat p = Lat q /\ Lon q <= Lon p).
Proof.
  unfold Less, flt.
  destruct (Rlt_dec (Lat p) (Lat q)), (Rlt_dec (Lat q) (Lat p)),
    (Rlt_dec (Lon p) (Lon q)); split; intros; try reflexivity;
    try discriminate; lra.
Qed.

Lemma Less_trans (p q r : Point) :
  Less p q = true -> Less q r = true -> Less p r = true.
Proof. rewrite !Less_true_iff. lra. Qed.

Lemma Less_le_trans (p q r : Point) :
  Less p q = true -> Less r q = false -> Less p r = true.
Proof. rewrite !Less_true_iff, Less_false_iff. lra. Qed.

Lemma le_Less_trans (p q r : Point) :
  Less q p = false -> Less q r = true -> Less p r = true.
Proof. rewrite !Less_true_iff, Less_false_iff. lra. Qed.

Lemma Point_le_trans (p q r : Point) :
  Point_le p q -> Point_le q r -> Point_le p r.
Proof. unfold Point_le. rewrite !Less_false_iff. lra. Qed.

Lemma Less_asym (p q : Point) : Less p q = true -> Less q p = false.
Proof. rewrite Less_true_iff, Less_false_iff. lra. Qed.

Lemma Less_total (p q : Point) :
  Less p q = false -> Less q p = false -> p = q.
Proof.
  rewrite !Less_false_iff. destruct p, q. simpl. intros H1 H2.
  f_equal; lra.
Qed.

(** ** [sort.Search] *)

Section Search.
Context {E : Type}.
Variable f : Z -> M E bool.
Variable p : Z -> bool.
Variable n : Z.

(** The predicate is a pure test [p] below [n] (whatever it logs), and [p]
    is monotone: false up to some index, true from there on. *)
Hypothesis f_pure : forall h, (0 <= h < n)%Z -> exists t, f h = (t, Ret (p h)).
Hypothesis p_mono :
  forall a b, (0 <= a <= b)%Z -> (b < n)%Z -> p a = true -> p b = true.

Lemma search_loop_spec (fuel : nat) :
  forall i j,
    (0 <= i <= j)%Z -> (j <= n)%Z -> (j - i <= Z.of_nat fuel)%Z ->
    (forall k, (0 <= k < i)%Z -> p k = false) ->
    ((j < n)%Z -> p j = true) ->
    exists t x,
      search_loop fuel f i j = (t, Ret x)
      /\ (i <= x <= j)%Z
      /\ (forall k, (0 <= k < x)%Z -> p k = false)
      /\ ((x < n)%Z -> p x = true).
Proof.
  induction fuel as [ | fuel IH]; intros i j Hij Hjn Hfuel Hlow Hhigh.
  - assert (i = j) by lia. subst j. simpl.
    rewrite Z.ltb_irrefl. exists [], i. repeat split; auto; lia.
  - simpl. destruct (i <? j)%Z eqn:Elt.
    + apply Z.ltb_lt in Elt.
      assert (Hh : (i <= (i + j) / 2 < j)%Z).
      { split.
        - apply Z.div_le_lower_bound; lia.
        - apply Z.div_lt_upper_bound; lia. }
      destruct (f_pure ((i + j) / 2)) as [t0 Ef]; [lia | ].
      rewrite Ef, bind_ret.
      destruct (p ((i + j) / 2)) eqn:Ep; simpl negb; cbv iota.
      * destruct (IH i ((i + j) / 2)%Z) as (t & x & Hrun & Hx & Hl & Hr);
          try lia; auto.
        exists (t0 ++ t), x. rewrite Hrun. simpl.
        repeat split; auto; lia.
      * destruct (IH ((i + j) / 2 + 1)%Z j) as (t & x & Hrun & Hx & Hl & Hr);
          try lia; auto.
        { intros k Hk.
          destruct (p k) eqn:Epk; [ | reflexivity].
          rewrite (p_mono k ((i + j) / 2)) in Ep; auto; try lia. }
        exists (t0 ++ t), x. rewrite Hrun. simpl.
        repeat split; auto; lia.
    + apply Z.ltb_ge in Elt. assert (i = j) by lia. subst j.
      exists [], i. repeat split; auto; lia.
Qed.

(** [sort.Search] returns, and what it returns is the partition point of
    the predicate: the first index where it holds, or [n]. *)
Lemma sort_Search_spec :
  (0 <= n)%Z ->
  exists t x,
    sort_Search n f = (t, Ret x)
    /\ (0 <= x <= n)%Z
    /\ (forall k, (0 <= k < x)%Z -> p k = false)
    /\ ((x < n)%Z -> p x = true).
Proof.
  intros Hn. unfold sort_Search.
  apply search_loop_spec; lia.
Qed.
End Search.

Lemma sort_Search_empty {E} (n : Z) (f : Z -> M E bool) :
  (n <= 0)%Z -> sort_Search n f = ([], Ret 0%Z).
Proof.
  intros Hn. unfold sort_Search.
  destruct (Z.to_nat n); simpl;
    (replace (0 <? n)%Z with false by (symmetry; apply Z.ltb_ge; exact Hn));
    reflexivity.
Qed.

Lemma search_loop_step {E} (fuel : nat) (f : Z -> M E bool) (i j : Z) :
  (i < j)%Z ->
  search_loop (S fuel) f i j =
  bind (f ((i + j) / 2)%Z) (fun b =>
    if negb b then search_loop fuel f ((i + j) / 2 + 1)%Z j
    else search_loop fuel f i ((i + j) / 2)%Z).
Proof.
  intros H. simpl. apply Z.ltb_lt in H. rewrite H. reflexivity.
Qed.

Lemma search_loop_stop {E} (fuel : nat) (f : Z -> M E bool) (i j : Z) :
  (j <= i)%Z -> search_loop fuel f i j = ret i.
Proof.
  intros H. apply Z.ltb_ge in H. destruct fuel; simpl; rewrite H; reflexivity.
Qed.

(** ** [for] loops *)

Lemma for_loop_step {E S} (fuel : nat) (cond : Z -> bool) (next : Z -> Z)
    (body : Z -> S -> M E (step S)) (i : Z) (s : S) :
  cond i = true ->
  for_loop (Datatypes.S fuel) cond next body i s =
  bind (body i s) (fun r =>
    match r with
    | Next s' => for_loop fuel cond next body (next i) s'
    | Break s' => ret s'
    end).
Proof. intros H. simpl. rewrite H. reflexivity. Qed.

Lemma for_loop_stop {E S} (fuel : nat) (cond : Z -> bool) (next : Z -> Z)
    (body : Z -> S -> M E (step S)) (i : Z) (s : S) :
  cond i = false -> for_loop fuel cond next body i s = ret s.
Proof. intros H. destruct fuel; simpl; rewrite H; reflexivity. Qed.

(** ** Reading a slice *)

Lemma read_slice (l : list Point) (i : Z) (p : Point) :
  index l i = Some p -> read (slicePoints l) i = ([Read i], Ret p).
Proof. intros H. unfold read. simpl. rewrite H. reflexivity. Qed.

Lemma index_Some {A} (l : list A) (i : Z) :
  (0 <= i < len l)%Z -> exists a, index l i = Some a.
Proof.
  intros [H0 H1]. unfold index, len in *.
  replace (0 <=? i)%Z with true by (symmetry; apply Z.leb_le; exact H0).
  destruct (nth_error l (Z.to_nat i)) eqn:E'; [eauto | ].
  apply nth_error_None in E'. lia.
Qed.

Lemma index_nth_error {A} (l : list A) (i : Z) (a : A) :
  index l i = Some a -> (0 <= i)%Z /\ nth_error l (Z.to_nat i) = Some a.
Proof.
  unfold index. destruct (0 <=? i)%Z eqn:E'; [ | discriminate].
  apply Z.leb_le in E'. auto.
Qed.

(** Evaluation of a run on concrete indices: integer subterms are computed,
    the monad is unfolded where it meets a value. *)
Ltac zfold :=
  repeat match goal with
  | |- context [Z.to_nat ?z] =>
      let v := eval compute in (Z.to_nat z) in
      progress change (Z.to_nat z) with v
  | |- context [Z.div ?a ?b] =>
      let v := eval compute in (Z.div a b) in
      progress change (Z.div a b) with v
  | |- context [Z.add ?a ?b] =>
      let v := eval compute in (Z.add a b) in
      progress change (Z.add a b) with v
  | |- context [Z.sub ?a ?b] =>
      let v := eval compute in (Z.sub a b) in
      progress change (Z.sub a b) with v
  | |- context [Z.pred ?a] =>
      let v := eval compute in (Z.pred a) in
      progress change (Z.pred a) with v
  | |- context [Z.succ ?a] =>
      let v := eval compute in (Z.succ a) in
      progress change (Z.succ a) with v
  | |- context [Z.eqb ?a ?b] =>
      let v := eval compute in (Z.eqb a b) in
      progress change (Z.eqb a b) with v
  end.

Ltac mstep :=
  cbn [bind ret emit lift panic app fst snd negb orb andb
       Len IndexPoint slicePoints length Z.of_nat Pos.of_succ_nat Pos.succ
       measure Point_Distance closest best minLat deltaLon Lat Lon];
  zfold.

Ltac rcalc :=
  unfold DegreeToKilometer, EarthRadiusInKM; lra.

(** The binary search on a sorted slice returns, and returns the first index
    whose point is strictly GREATER than the query: every point below it is
    not greater than the query (it may be equal to it). *)
Lemma seed_slice_spec (l : list Point) (pt : Point) :
  sorted_points l ->
  exists t x,
    seed (slicePoints l) pt = (t, Ret x)
    /\ (0 <= x <= len l)%Z
    /\ (forall k p, (0 <= k < x)%Z -> index l k = Some p -> Less pt p = false)
    /\ (forall p, index l x = Some p -> Less pt p = true).
Proof.
  intros Hs. unfold seed.
  set (p := fun k => match index l k with
                     | Some q => Less pt q
                     | None => false
                     end).
  destruct (sort_Search_spec
              (fun i => bind (read (slicePoints l) i) (fun h => ret (Less pt h)))
              p (Len (slicePoints l))) as (t & x & Hrun & Hx & Hlow & Hhigh).
  - intros h Hh. destruct (index_Some l h Hh) as [q Hq].
    exists [Read h]. rewrite (read_slice _ _ q Hq). unfold p. rewrite Hq.
    reflexivity.
  - intros a b Hab Hb. unfold p.
    destruct (index_Some l a) as [qa Ha]; [simpl in Hb; unfold len; lia | ].
    destruct (index_Some l b) as [qb Hqb]; [simpl in Hb; unfold len; lia | ].
    rewrite Ha, Hqb. intros Hlt.
    apply index_nth_error in Ha, Hqb.
    apply (Less_le_trans pt qa qb Hlt).
    apply (Hs (Z.to_nat a) (Z.to_nat b)); try tauto. lia.
  - simpl. lia.
  - exists t, x. split; [exact Hrun | ]. split; [exact Hx | ]. split.
    + intros k q Hk Hq. specialize (Hlow k Hk). unfold p in Hlow.
      rewrite Hq in Hlow. exact Hlow.
    + intros q Hq. unfold p in Hhigh. rewrite Hq in Hhigh. apply Hhigh.
      destruct (Z.lt_ge_cases x (Len (slicePoints l))) as [ | Hge]; [assumption | ].
      exfalso. apply index_nth_error in Hq. destruct Hq as [_ Hq].
      assert (nth_error l (Z.to_nat x) <> None) by congruence.
      apply nth_error_Some in H. simpl in Hge. lia.
Qed.

(** C4. The seed index is the first index whose point is strictly greater
    than the query, not the first that is not less: on the sorted sequence
    (0,0), (1,1), (2,2) and the query (1,1) the binary search reads indices 1
    and 2 and returns 2, so the point equal to the query sits at index 1,
    below the seed, and is not strictly less than the query. *)
Theorem seed_lands_after_equal_point :
  seed (slicePoints [mkPoint 0 0; mkPoint 1 1; mkPoint 2 2]) (mkPoint 1 1)
  = ([Read 1%Z; Read 2%Z], Ret 2%Z)
  /\ index [mkPoint 0 0; mkPoint 1 1; mkPoint 2 2] 1%Z = Some (mkPoint 1 1)
  /\ Less (mkPoint 1 1) (mkPoint 1 1) = false.
Proof.
  split; [ | split; [reflexivity | apply Less_irrefl]].
  unfold seed, sort_Search. mstep.
  rewrite search_loop_step by lia. zfold.
  erewrite read_slice by reflexivity. mstep.
  rewrite Less_irrefl. mstep.
  rewrite search_loop_step by lia. zfold.
  erewrite read_slice by reflexivity. mstep.
  replace (Less (mkPoint 1 1) (mkPoint 2 2)) with true
    by (symmetry; apply Less_true_iff; simpl; lra).
  mstep. rewrite search_loop_stop by lia. reflexivity.
Qed.

(** ** Empty sequences *)

(** C9. On a sequence of length 0 both searches return index 0 (the length)
    and distance -1, and their trace is empty: no element is read, whatever
    the sequence would answer to a read. *)
Theorem search_empty_sequence (g : GeoPoints) (pt : Point) (deltaKm : R) :
  Len g = 0%Z ->
  Bestest g pt deltaKm = ([], Ret (0%Z, -1))
  /\ Closest g pt deltaKm = ([], Ret (0%Z, -1)).
Proof.
  intros H. unfold Bestest, Closest, seed.
  rewrite H, sort_Search_empty by lia. split; reflexivity.
Qed.

Lemma search_empty_sequence_witness :
  Bestest (slicePoints []) (mkPoint 37 (-122)) 50 = ([], Ret (0%Z, -1))
  /\ Closest (slicePoints []) (mkPoint 37 (-122)) 50 = ([], Ret (0%Z, -1)).
Proof.
  apply (search_empty_sequence (slicePoints []) (mkPoint 37 (-122)) 50).
  reflexivity.
Defined.

(** ** The exact distance *)

Lemma Distance_same_point (lat lon : R) : Distance lat lon lat lon = 0.
Proof.
  unfold Distance. cbv zeta.
  replace (deg2rad lon - deg2rad lon) with 0 by lra.
  rewrite cos_0.
  replace (sin (deg2rad lat) * sin (deg2rad lat)
           + cos (deg2rad lat) * cos (deg2rad lat) * 1)
    with (Rsqr (sin (deg2rad lat)) + Rsqr (cos (deg2rad lat)))
    by (unfold Rsqr; lra).
  rewrite sin2_cos2, acos_1. lra.
Qed.

(** Along the meridian of the query, from the equator: the arc itself. *)
Lemma Distance_to_equator (lat : R) :
  0 <= lat <= 180 -> Distance lat 0 0 0 = lat * Radian * EarthRadiusInKM.
Proof.
  intros [H0 H1]. unfold Distance, deg2rad. cbv zeta.
  pose proof PI_RGT_0 as Hpi.
  replace (0 * Radian) with 0 by lra.
  replace (0 - 0) with 0 by lra.
  rewrite sin_0, cos_0.
  replace (sin (lat * Radian) * 0 + cos (lat * Radian) * 1 * 1)
    with (cos (lat * Radian)) by lra.
  rewrite acos_cos; [reflexivity | ].
  unfold Radian. split.
  - apply Rmult_le_pos; lra.
  - replace PI with (180 * (PI / 180)) at 2 by lra.
    apply Rmult_le_compat_r; lra.
Qed.

Lemma Distance_ten_degrees : 1000 < Distance 10 0 0 0.
Proof.
  rewrite Distance_to_equator by lra.
  pose proof PI2_3_2 as Hpi. unfold Radian, EarthRadiusInKM. lra.
Qed.

(** ** The exact search *)

(** C1. When the binary search succeeds and no point is within the radius,
    [Bestest] returns the length with the seed distance [deltaKm + 0.0001],
    which is positive, where its documentation promises -1: on the single
    point (10,0), the query (0,0) and a radius of 1 km the search reads the
    point, measures more than 1000 km, and returns (1, 1.0001). *)
Theorem Bestest_not_found_returns_seed_distance :
  Bestest (slicePoints [mkPoint 10 0]) (mkPoint 0 0) 1
  = ([Read 0%Z; Read 0%Z; Measure 0%Z], Ret (1%Z, 1.0001))
  /\ 0 < 1.0001.
Proof.
  split; [ | lra].
  pose proof Distance_ten_degrees as Hd.
  unfold Bestest, seed, sort_Search. mstep.
  rewrite search_loop_step by lia. zfold.
  erewrite read_slice by reflexivity. mstep.
  replace (Less (mkPoint 0 0) (mkPoint 10 0)) with true
    by (symmetry; apply Less_true_iff; simpl; lra).
  mstep. rewrite search_loop_stop by lia. mstep.
  unfold Bestest_vars. mstep.
  erewrite read_slice by reflexivity. mstep.
  unfold DistanceGeoType. rewrite flt_false by lra.
  unfold scans. mstep.
  rewrite for_loop_stop by reflexivity. mstep.
  rewrite for_loop_stop by reflexivity. mstep.
  repeat f_equal. lra.
Qed.

(** C2. A point equal to the query is not always returned.  Alone in the
    sequence it is below the seed index, the binary search "fails" and the
    result is (1, -1); at index 0 with a farther point after it, the seed is
    index 1, the backward scan stops above index 0 and never reads it, and the
    result is the length with the seed distance. *)
Theorem Bestest_misses_equal_point :
  Bestest (slicePoints [mkPoint 1 1]) (mkPoint 1 1) 1
  = ([Read 0%Z], Ret (1%Z, -1))
  /\ Bestest (slicePoints [mkPoint 0 0; mkPoint 10 0]) (mkPoint 0 0) 1
     = ([Read 1%Z; Read 0%Z; Read 1%Z; Measure 1%Z], Ret (2%Z, 1.0001)).
Proof.
  split.
  - unfold Bestest, seed, sort_Search. mstep.
    rewrite search_loop_step by lia. zfold.
    erewrite read_slice by reflexivity. mstep.
    rewrite Less_irrefl. mstep.
    rewrite search_loop_stop by lia. mstep. reflexivity.
  - pose proof Distance_ten_degrees as Hd.
    unfold Bestest, seed, sort_Search. mstep.
    rewrite search_loop_step by lia. zfold.
    erewrite read_slice by reflexivity. mstep.
    replace (Less (mkPoint 0 0) (mkPoint 10 0)) with true
      by (symmetry; apply Less_true_iff; simpl; lra).
    mstep. rewrite search_loop_step by lia. zfold.
    erewrite read_slice by reflexivity. mstep.
    rewrite Less_irrefl. mstep.
    rewrite search_loop_stop by lia. mstep.
    unfold Bestest_vars. mstep.
    erewrite read_slice by reflexivity. mstep.
    unfold DistanceGeoType. rewrite flt_false by lra.
    unfold scans. mstep.
    rewrite for_loop_stop by reflexivity. mstep.
    rewrite for_loop_stop by reflexivity. mstep.
    repeat f_equal. lra.
Qed.

(** ** The approximate distance and the corridor *)

Lemma ApproximateDistanceGeo_first_cell (lat1 lon1 lat2 lon2 dist : R) :
  0 <= lat1 < 0.1 -> 0 <= dist ->
  Pow2 ((lat2 - lat1) * 111.111) + Pow2 ((lon2 - lon1) * 111.111) = dist * dist ->
  ApproximateDistanceGeo lat1 lon1 lat2 lon2 = Some dist.
Proof.
  intros Hlat Hd Hsq. unfold ApproximateDistanceGeo.
  rewrite LookupLonKmPerLat_first_cell by exact Hlat.
  unfold DegreeToKilometer. rewrite Hsq, sqrt_square by exact Hd.
  reflexivity.
Qed.

(** The forward scan never touches [deltaLon], whatever the metric. *)
Lemma forward_keeps_deltaLon (metric : Point -> Point -> option R)
    (g : GeoPoints) (pt : Point) (i : Z) (maxLat : R) (s : vars)
    (t : list probe) (r : step (R * vars)) :
  forward metric g pt i (maxLat, s) = (t, Ret r) ->
  deltaLon (snd (match r with Next ms => ms | Break ms => ms end)) = deltaLon s.
Proof.
  unfold forward, read, measure. simpl.
  destruct (IndexPoint g i) as [this | ]; simpl; [ | discriminate].
  destruct (flt maxLat (Lat this)); simpl.
  { intros H; inversion H; reflexivity. }
  destruct (lonOutside pt (deltaLon s) (Lon this)); simpl.
  { intros H; inversion H; reflexivity. }
  destruct (metric this pt) as [dist | ]; simpl; [ | discriminate].
  destruct (flt dist (closest s)); simpl; intros H; inversion H; reflexivity.
Qed.

Lemma Closest_vars_stale_corridor :
  Closest_vars
    (slicePoints [mkPoint 0.012 (-0.016); mkPoint 0.012 0.005;
                  mkPoint 0.012 0.016])
    (mkPoint 0 0) 10 0
  = ([Read 0%Z; Measure 0%Z; Read 1%Z; Measure 1%Z; Read 2%Z; Measure 2%Z],
     Ret (111.111,
          (0.013, {| closest := 1.444443; best := 1%Z;
                     minLat := 0 - 10 / 111.111; deltaLon := 0.02 |}))).
Proof.
  assert (D0 : ApproximateDistanceGeo 0.012 (-0.016) 0 0 = Some 2.22222)
    by (apply ApproximateDistanceGeo_first_cell; unfold Pow2; lra).
  assert (D1 : ApproximateDistanceGeo 0.012 0.005 0 0 = Some 1.444443)
    by (apply ApproximateDistanceGeo_first_cell; unfold Pow2; lra).
  assert (D2 : ApproximateDistanceGeo 0.012 0.016 0 0 = Some 2.22222)
    by (apply ApproximateDistanceGeo_first_cell; unfold Pow2; lra).
  unfold Closest_vars. mstep.
  erewrite read_slice by reflexivity. mstep.
  unfold Approximately at 1. mstep. rewrite D0. mstep.
  rewrite LookupLonKmPerLat_first_cell by lra. mstep.
  unfold scans. mstep.
  rewrite for_loop_stop by reflexivity. mstep.
  (* forward, index 1 *)
  rewrite for_loop_step by reflexivity.
  unfold forward at 1. erewrite read_slice by reflexivity. mstep.
  rewrite (flt_false _ 0.012) by rcalc.
  unfold lonOutside at 1. mstep.
  rewrite !flt_false by rcalc. mstep.
  unfold Approximately at 1. mstep. rewrite D1. mstep.
  rewrite flt_true by lra. mstep.
  (* forward, index 2 *)
  rewrite for_loop_step by reflexivity.
  unfold forward at 1. erewrite read_slice by reflexivity. mstep.
  rewrite (flt_false _ 0.012) by rcalc.
  unfold lonOutside at 1. mstep.
  rewrite !flt_false by rcalc. mstep.
  unfold Approximately at 1. mstep. rewrite D2. mstep.
  rewrite flt_false by lra. mstep.
  rewrite for_loop_stop by reflexivity. mstep.
  unfold DegreeToKilometer. repeat f_equal; lra.
Qed.

(** C5. The forward scan does not recompute the corridor.  On the sorted
    sequence (0.012,-0.016), (0.012,0.005), (0.012,0.016), the query (0,0) and
    a radius of 10 km, [Closest] seeds at index 0 with distance 2.22222 and
    corridor 0.02; the forward scan improves to 1.444443 at index 1, for which
    the corridor would be 0.013, but [deltaLon] is still 0.02 at the return,
    and index 2, whose longitude 0.016 is outside the corridor of the current
    best, is measured instead of skipped.  The result, (1, 1.444443), is not
    affected. *)
Theorem Closest_forward_scan_keeps_stale_corridor :
  Closest
    (slicePoints [mkPoint 0.012 (-0.016); mkPoint 0.012 0.005;
                  mkPoint 0.012 0.016])
    (mkPoint 0 0) 10
  = ([Read 1%Z; Read 0%Z;
      Read 0%Z; Measure 0%Z; Read 1%Z; Measure 1%Z; Read 2%Z; Measure 2%Z],
     Ret (1%Z, 1.444443))
  /\ result (Closest_vars
               (slicePoints [mkPoint 0.012 (-0.016); mkPoint 0.012 0.005;
                             mkPoint 0.012 0.016])
               (mkPoint 0 0) 10 0)
     = Ret (111.111,
            (0.013, {| closest := 1.444443; best := 1%Z;
                       minLat := 0 - 10 / 111.111; deltaLon := 0.02 |}))
  /\ 1.444443 / 111.111 = 0.013
  /\ lonOutside (mkPoint 0 0) 0.013 0.016 = true
  /\ lonOutside (mkPoint 0 0) 0.02 0.016 = false.
Proof.
  split; [ | split; [ | split; [lra | split]]].
  - unfold Closest, seed, sort_Search. mstep.
    rewrite search_loop_step by lia. zfold.
    erewrite read_slice by reflexivity. mstep.
    replace (Less (mkPoint 0 0) (mkPoint 0.012 0.005)) with true
      by (symmetry; apply Less_true_iff; simpl; lra).
    mstep. rewrite search_loop_step by lia. zfold.
    erewrite read_slice by reflexivity. mstep.
    replace (Less (mkPoint 0 0) (mkPoint 0.012 (-0.016))) with true
      by (symmetry; apply Less_true_iff; simpl; lra).
    mstep. rewrite search_loop_stop by lia. mstep.
    rewrite Closest_vars_stale_corridor. mstep. reflexivity.
  - rewrite Closest_vars_stale_corridor. reflexivity.
  - unfold lonOutside. simpl. rewrite (flt_true (0 + 0.013)) by lra.
    apply orb_true_r.
  - unfold lonOutside. simpl. rewrite !flt_false by lra. reflexivity.
Qed.

(** ** The record store *)

Lemma wrap64_small (z : Z) :
  (- 2 ^ 63 <= z < 2 ^ 63)%Z -> wrap64 z = z.
Proof.
  intros H. unfold wrap64. rewrite Z.mod_small; lia.
Qed.

Lemma wrap64_overflow (z : Z) :
  (2 ^ 63 <= z < 2 ^ 64)%Z -> (wrap64 z < 0)%Z.
Proof.
  intros H. unfold wrap64.
  replace (z + 2 ^ 63)%Z with ((z - 2 ^ 63) + 1 * 2 ^ 64)%Z by lia.
  rewrite Z.mod_add by lia. rewrite Z.mod_small; lia.
Qed.

Lemma len_nonneg {A} (b : list A) : (0 <= len b)%Z.
Proof. unfold len. lia. Qed.

Lemma slice_Some {A} (b : list A) (off end_ : Z) :
  (0 <= off <= end_)%Z -> (end_ <= len b)%Z ->
  slice b off end_
  = Some (firstn (Z.to_nat (end_ - off)) (skipn (Z.to_nat off) b)).
Proof.
  intros [H0 H1] H2. unfold slice.
  replace (0 <=? off)%Z with true by (symmetry; apply Z.leb_le; exact H0).
  replace (off <=? end_)%Z with true by (symmetry; apply Z.leb_le; exact H1).
  replace (end_ <=? len b)%Z with true by (symmetry; apply Z.leb_le; exact H2).
  reflexivity.
Qed.

Lemma slice_Some_inv {A} (b buf : list A) (off end_ : Z) :
  slice b off end_ = Some buf -> (0 <= off <= end_)%Z /\ (end_ <= len b)%Z.
Proof.
  unfold slice.
  destruct (0 <=? off)%Z eqn:E0; simpl; [ | discriminate].
  destruct (off <=? end_)%Z eqn:E1; simpl; [ | discriminate].
  destruct (end_ <=? len b)%Z eqn:E2; simpl; [ | discriminate].
  intros _. apply Z.leb_le in E0, E1, E2. lia.
Qed.

Lemma Iter_Len_floor {St} (m : Iter St) :
  (0 < Size (d m))%Z -> Iter_Len m = Some (len (B m) / Size (d m))%Z.
Proof.
  intros Hs. unfold Iter_Len.
  replace (Size (d m) =? 0)%Z with false by (symmetry; apply Z.eqb_neq; lia).
  rewrite Z.quot_div_nonneg by (try apply len_nonneg; lia). reflexivity.
Qed.

(** Below the length, the offsets of a record do not wrap and stay inside
    the buffer. *)
Lemma record_offsets {St} (m : Iter St) (i : Z) :
  (0 < Size (d m))%Z -> (len (B m) <= max_int)%Z ->
  (0 <= i < len (B m) / Size (d m))%Z ->
  wrap64 (Size (d m) * i) = (Size (d m) * i)%Z
  /\ wrap64 (wrap64 (Size (d m) * i) + Size (d m)) = (Size (d m) * i + Size (d m))%Z
  /\ (0 <= Size (d m) * i)%Z
  /\ (Size (d m) * i + Size (d m) <= len (B m))%Z.
Proof.
  intros Hs Hmax [Hi0 Hi1]. unfold max_int in Hmax.
  set (s := Size (d m)) in *. set (n := len (B m)) in *.
  assert (Hle : (s * (n / s) <= n)%Z) by (apply Z.mul_div_le; lia).
  assert (Hend : (s * i + s <= n)%Z) by nia.
  assert (Hoff : (0 <= s * i)%Z) by nia.
  rewrite (wrap64_small (s * i)) by lia.
  rewrite (wrap64_small (s * i + s)) by lia.
  auto.
Qed.

(** C10. For a record size [s > 0], [Len()] is the floor of the buffer
    length over [s], and for every index below it [IndexPoint] decodes
    exactly the [s] bytes from offset [i * s], which lie inside the buffer:
    the read neither wraps nor runs past the end, and bytes of a trailing
    partial record belong to no index. *)
Theorem Iter_IndexPoint_within_buffer {St} (m : Iter St) :
  (0 < Size (d m))%Z -> (len (B m) <= max_int)%Z ->
  Iter_Len m = Some (len (B m) / Size (d m))%Z
  /\ forall i,
       (0 <= i < len (B m) / Size (d m))%Z ->
       (0 <= i * Size (d m))%Z
       /\ ((i + 1) * Size (d m) <= len (B m))%Z
       /\ length (firstn (Z.to_nat (Size (d m)))
                    (skipn (Z.to_nat (i * Size (d m))) (B m)))
          = Z.to_nat (Size (d m))
       /\ Iter_IndexPoint m i
          = ([Fetch i],
             match Decode (d m)
                     (firstn (Z.to_nat (Size (d m)))
                        (skipn (Z.to_nat (i * Size (d m))) (B m))) with
             | Some cur => Ret (DPoint (d m) cur)
             | None => Panic
             end).
Proof.
  intros Hs Hmax.
  split; [apply Iter_Len_floor; exact Hs | ].
  intros i Hi.
  destruct (record_offsets m i Hs Hmax Hi) as (Woff & Wend & Hoff & Hend).
  split; [lia | ]. split; [lia | ]. split.
  - rewrite length_firstn, length_skipn. unfold len in Hend. lia.
  - unfold Iter_IndexPoint. cbv zeta. rewrite Wend, Woff.
    rewrite slice_Some by lia.
    replace (Size (d m) * i + Size (d m) - Size (d m) * i)%Z
      with (Size (d m)) by lia.
    replace (Size (d m) * i)%Z with (i * Size (d m))%Z by lia.
    simpl.
    destruct (Decode (d m) _); reflexivity.
Qed.

Lemma Iter_IndexPoint_within_buffer_witness :
  Iter_Len store_tail = Some (len (B store_tail) / Size (d store_tail))%Z
  /\ forall i,
       (0 <= i < len (B store_tail) / Size (d store_tail))%Z ->
       (0 <= i * Size (d store_tail))%Z
       /\ ((i + 1) * Size (d store_tail) <= len (B store_tail))%Z
       /\ length (firstn (Z.to_nat (Size (d store_tail)))
                    (skipn (Z.to_nat (i * Size (d store_tail))) (B store_tail)))
          = Z.to_nat (Size (d store_tail))
       /\ Iter_IndexPoint store_tail i
          = ([Fetch i],
             match Decode (d store_tail)
                     (firstn (Z.to_nat (Size (d store_tail)))
                        (skipn (Z.to_nat (i * Size (d store_tail)))
                           (B store_tail))) with
             | Some cur => Ret (DPoint (d store_tail) cur)
             | None => Panic
             end).
Proof.
  apply (Iter_IndexPoint_within_buffer store_tail).
  - reflexivity.
  - vm_compute. discriminate.
Defined.

(** In [store_tail] the last whole record is read in full. *)
Lemma store_tail_last_record :
  Iter_IndexPoint store_tail 1 = ([Fetch 1%Z], Ret (mkPoint 2 2)).
Proof.
  unfold Iter_IndexPoint. cbv zeta.
  change (slice (B store_tail) (wrap64 (Size (d store_tail) * 1))
            (wrap64 (wrap64 (Size (d store_tail) * 1) + Size (d store_tail))))
    with (Some [Byte.x02; Byte.x02]).
  simpl. reflexivity.
Qed.

(** The tail byte of [store_tail] belongs to no record: the length is 2. *)
Lemma store_tail_Len : Iter_Len store_tail = Some 2%Z.
Proof. reflexivity. Qed.

Lemma degrees_x01 : degrees Byte.x01 = 1.
Proof. reflexivity. Qed.

Lemma degrees_x02 : degrees Byte.x02 = 2.
Proof. reflexivity. Qed.

Ltac sfold :=
  repeat match goal with
  | |- context [wrap64 ?z] =>
      let v := eval compute in (wrap64 z) in
      progress change (wrap64 z) with v
  | |- context [slice ?b ?o ?e] =>
      let v := eval compute in (slice b o e) in
      progress change (slice b o e) with v
  | |- context [Iter_Len ?m] =>
      let v := eval compute in (Iter_Len m) in
      progress change (Iter_Len m) with v
  | |- context [Z.mul ?a ?b] =>
      let v := eval compute in (Z.mul a b) in
      progress change (Z.mul a b) with v
  end.

Ltac sstep :=
  repeat progress
    (cbn [bind ret emit lift panic app fst snd negb orb andb
          Load Iter_IndexPoint Iter_Less B d Size Decode DPoint DLess
          byteDecoder store_one store_tail Lat Lon];
     zfold; sfold).

(** C6. The range scan reads past the end.  On a store of one record (1,1),
    scanned from (0,0) to (5,5), every record is less than [to]: the loop
    calls back with record 0, asks for index 1, which is the length, and the
    slice expression there panics. *)
Theorem Ranger_fetches_past_the_end :
  Iter_Len store_one = Some 1%Z
  /\ Ranger store_one (mkPoint 0 0) (mkPoint 5 5) None
     = ([Fetch 0%Z; Fetch 0%Z; Callback (mkPoint 1 1); Fetch 1%Z], Panic).
Proof.
  split; [reflexivity | ].
  assert (L1 : Less (mkPoint 0 0) (mkPoint 1 1) = true)
    by (apply Less_true_iff; simpl; lra).
  assert (L2 : Less (mkPoint 1 1) (mkPoint 5 5) = true)
    by (apply Less_true_iff; simpl; lra).
  unfold Ranger. sstep. unfold sort_Search. zfold.
  rewrite search_loop_step by lia. sstep.
  rewrite degrees_x01, L1. sstep.
  rewrite search_loop_stop by lia. sstep.
  unfold Ranger_loop. sstep.
  rewrite degrees_x01, L2. sstep.
  unfold between. rewrite !fle_true by lra. sstep.
  reflexivity.
Qed.

(** ** Traces and outcomes of composed runs *)

Lemma fst_bind {E A B} (m : M E A) (f : A -> M E B) :
  fst (bind m f)
  = fst m ++ match snd m with Ret a => fst (f a) | _ => [] end.
Proof.
  destruct m as [t [a | | ]]; simpl; try (rewrite app_nil_r; reflexivity).
  destruct (f a); reflexivity.
Qed.

Lemma snd_bind {E A B} (m : M E A) (f : A -> M E B) :
  snd (bind m f)
  = match snd m with
    | Ret a => snd (f a)
    | Panic => Panic
    | OutOfFuel => OutOfFuel
    end.
Proof.
  destruct m as [t [a | | ]]; simpl; try reflexivity.
  destruct (f a); reflexivity.
Qed.

Lemma bind_ret_l {E A B} (a : A) (f : A -> M E B) : bind (ret a) f = f a.
Proof. unfold bind, ret. destruct (f a). reflexivity. Qed.

Lemma callbacks_app {St} (t1 t2 : list (access St)) :
  callbacks (t1 ++ t2) = callbacks t1 ++ callbacks t2.
Proof.
  induction t1 as [ | [i | rec] t1 IH]; simpl; [reflexivity | exact IH | ].
  rewrite IH. reflexivity.
Qed.

Lemma search_loop_range {E} (f : Z -> M E bool) (fuel : nat) :
  forall i j x,
    (i <= j)%Z -> snd (search_loop fuel f i j) = Ret x -> (i <= x <= j)%Z.
Proof.
  induction fuel as [ | fuel IH]; intros i j x Hij; simpl;
    destruct (i <? j)%Z eqn:Elt; simpl;
    try (intros H; inversion H; subst; lia); try discriminate.
  apply Z.ltb_lt in Elt.
  assert (Hh : (i <= (i + j) / 2 < j)%Z).
  { split; [apply Z.div_le_lower_bound | apply Z.div_lt_upper_bound]; lia. }
  rewrite snd_bind.
  destruct (snd (f ((i + j) / 2)%Z)) as [[ | ] | | ]; simpl;
    try discriminate; intros H; apply IH in H; lia.
Qed.

Lemma search_loop_fuel {E} (f : Z -> M E bool) (fuel : nat) :
  (forall h, snd (f h) <> OutOfFuel) ->
  forall i j,
    (j - i <= Z.of_nat fuel)%Z -> snd (search_loop fuel f i j) <> OutOfFuel.
Proof.
  intros Hf. induction fuel as [ | fuel IH]; intros i j Hfuel; simpl;
    destruct (i <? j)%Z eqn:Elt; simpl; try discriminate.
  - apply Z.ltb_lt in Elt. lia.
  - apply Z.ltb_lt in Elt.
    assert (Hh : (i <= (i + j) / 2 < j)%Z).
    { split; [apply Z.div_le_lower_bound | apply Z.div_lt_upper_bound]; lia. }
    rewrite snd_bind. specialize (Hf ((i + j) / 2)%Z).
    destruct (snd (f ((i + j) / 2)%Z)) as [[ | ] | | ]; simpl;
      try discriminate; try contradiction; apply IH; lia.
Qed.

Lemma search_loop_callbacks {St} (f : Z -> M (access St) bool) (fuel : nat) :
  (forall h, callbacks (fst (f h)) = []) ->
  forall i j, callbacks (fst (search_loop fuel f i j)) = [].
Proof.
  intros Hf. induction fuel as [ | fuel IH]; intros i j; simpl;
    destruct (i <? j)%Z; simpl; try reflexivity.
  rewrite fst_bind, callbacks_app, Hf. simpl.
  destruct (snd (f ((i + j) / 2)%Z)) as [[ | ] | | ]; simpl;
    try reflexivity; apply IH.
Qed.

(** ** The range scan *)

Section RangeScan.
Context {St : Type}.
Variable m : Iter St.
Variables from to : Point.
Variable ctr : option (Point -> bool).

Hypothesis size_pos : (0 < Size (d m))%Z.
Hypothesis len_int : (len (B m) <= max_int)%Z.

Lemma record_at_in_range (k : Z) (cur : St) :
  (0 <= k)%Z -> record_at m k = Some cur -> (k < records m)%Z.
Proof.
  intros Hk. unfold record_at.
  destruct (slice (B m) (Size (d m) * k) (Size (d m) * k + Size (d m)))
    as [buf | ] eqn:Es; [ | discriminate].
  intros _. apply slice_Some_inv in Es. destruct Es as [_ Hend].
  assert (k + 1 <= len (B m) / Size (d m))%Z
    by (apply Z.div_le_lower_bound; lia).
  unfold records. lia.
Qed.

(** Up to the length included, [Load] fetches the record of that index, and
    panics where there is none. *)
Lemma Load_record (k : Z) :
  (0 <= k <= records m)%Z -> (1 <= records m)%Z ->
  Load m k = ([Fetch k], match record_at m k with
                         | Some cur => Ret cur
                         | None => Panic
                         end).
Proof.
  intros Hk Hsize. unfold Load, record_at. cbv zeta.
  pose proof len_int as Hmax. unfold max_int in Hmax.
  assert (Hle : (Size (d m) * records m <= len (B m))%Z)
    by (unfold records; apply Z.mul_div_le; lia).
  assert (Hs : (Size (d m) <= len (B m))%Z) by nia.
  assert (Hoff : (0 <= Size (d m) * k <= len (B m))%Z) by nia.
  rewrite (wrap64_small (Size (d m) * k)) by lia.
  destruct (Z_lt_le_dec (Size (d m) * k + Size (d m)) (2 ^ 63)) as [Hin | Hout].
  - rewrite (wrap64_small (Size (d m) * k + Size (d m))) by lia.
    simpl.
    destruct (slice (B m) (Size (d m) * k) (Size (d m) * k + Size (d m)));
      simpl; [ | reflexivity].
    destruct (Decode (d m) l); reflexivity.
  - pose proof (wrap64_overflow (Size (d m) * k + Size (d m))) as Hw.
    assert (Hneg : (wrap64 (Size (d m) * k + Size (d m)) < 0)%Z)
      by (apply Hw; lia).
    assert (E1 : slice (B m) (Size (d m) * k)
                   (wrap64 (Size (d m) * k + Size (d m))) = None).
    { destruct (slice _ _ _) eqn:Es; [ | reflexivity].
      apply slice_Some_inv in Es. lia. }
    assert (E2 : slice (B m) (Size (d m) * k)
                   (Size (d m) * k + Size (d m)) = None).
    { destruct (slice (B m) (Size (d m) * k) (Size (d m) * k + Size (d m)))
        eqn:Es; [ | reflexivity].
      apply slice_Some_inv in Es. lia. }
    rewrite E1, E2. reflexivity.
Qed.

Hypothesis decoder_lawful : lawful (d m).
Hypothesis store_sorted : sorted_store m.

Lemma Ranger_loop_callbacks (fuel : nat) :
  forall k,
    (0 <= k <= records m)%Z -> (1 <= records m)%Z ->
    (Z.of_nat fuel = records m - k + 1)%Z ->
    snd (Ranger_loop fuel m from to ctr k) <> OutOfFuel
    /\ Forall (visited m from to k) (callbacks (fst (Ranger_loop fuel m from to ctr k)))
    /\ StronglySorted Point_le
         (map (DPoint (d m))
            (callbacks (fst (Ranger_loop fuel m from to ctr k)))).
Proof.
  induction fuel as [ | fuel IH]; intros k Hk Hsize Hfuel; [lia | ].
  simpl Ranger_loop. rewrite (Load_record k Hk Hsize).
  destruct (record_at m k) as [cur | ] eqn:Erec.
  2:{ simpl. repeat split; try discriminate; constructor. }
  assert (Hlt : (k < records m)%Z) by (apply (record_at_in_range k cur); tauto).
  rewrite bind_ret. unfold Iter_Less. rewrite decoder_lawful.
  destruct (Less (DPoint (d m) cur) to) eqn:Eto; simpl negb; cbv iota.
  2:{ simpl. repeat split; try discriminate; constructor. }
  destruct (IH (k + 1)%Z) as (Hfu & Hvis & Hsort); try lia.
  assert (Hvis' : Forall (visited m from to k)
            (callbacks (fst (Ranger_loop fuel m from to ctr (k + 1))))).
  { eapply Forall_impl; [ | exact Hvis].
    intros rec ((j & Hj & Hrec) & Hlon & Hless).
    split; [exists j; split; [lia | exact Hrec] | tauto]. }
  assert (Hge : Forall (Point_le (DPoint (d m) cur))
            (map (DPoint (d m))
               (callbacks (fst (Ranger_loop fuel m from to ctr (k + 1)))))).
  { apply Forall_map. eapply Forall_impl; [ | exact Hvis].
    intros rec ((j & Hj & Hrec) & _). unfold Point_le.
    apply (store_sorted k j cur rec); auto. lia. }
  assert (Hcall :
    forall cb : M (access St) unit,
      cb = emit (Callback cur) ->
      between (Lon (DPoint (d m) cur)) (Lon from) (Lon to) = true ->
      snd (bind cb (fun _ => Ranger_loop fuel m from to ctr (k + 1))) <> OutOfFuel
      /\ Forall (visited m from to k)
           (callbacks ([Fetch k] ++
              fst (bind cb (fun _ => Ranger_loop fuel m from to ctr (k + 1)))))
      /\ StronglySorted Point_le
           (map (DPoint (d m))
              (callbacks ([Fetch k] ++
                 fst (bind cb (fun _ => Ranger_loop fuel m from to ctr (k + 1))))))).
  { intros cb -> Hbt. unfold emit. rewrite bind_ret. simpl.
    split; [exact Hfu | ]. split.
    - constructor; [ | exact Hvis'].
      split; [exists k; split; [lia | exact Erec] | ].
      split; [apply between_true_iff; exact Hbt | exact Eto].
    - constructor; assumption. }
  assert (Hskip :
    forall cb : M (access St) unit,
      cb = ret tt ->
      snd (bind cb (fun _ => Ranger_loop fuel m from to ctr (k + 1))) <> OutOfFuel
      /\ Forall (visited m from to k)
           (callbacks ([Fetch k] ++
              fst (bind cb (fun _ => Ranger_loop fuel m from to ctr (k + 1)))))
      /\ StronglySorted Point_le
           (map (DPoint (d m))
              (callbacks ([Fetch k] ++
                 fst (bind cb (fun _ => Ranger_loop fuel m from to ctr (k + 1))))))).
  { intros cb ->. unfold ret. rewrite bind_ret. simpl. auto. }
  cbv zeta.
  destruct (between (Lon (DPoint (d m) cur)) (Lon from) (Lon to)) eqn:Ebt.
  - destruct ctr as [ContainsPoint | ].
    + destruct (ContainsPoint (DPoint (d m) cur)).
      * apply Hcall; reflexivity.
      * apply Hskip; reflexivity.
    + apply Hcall; reflexivity.
  - apply Hskip; reflexivity.
Qed.

Lemma Iter_IndexPoint_no_callback (i : Z) :
  callbacks (fst (Iter_IndexPoint m i)) = []
  /\ snd (Iter_IndexPoint m i) <> OutOfFuel.
Proof.
  unfold Iter_IndexPoint. cbv zeta.
  destruct (slice (B m) _ _) as [buf | ]; simpl; [ | split; [reflexivity | discriminate]].
  destruct (Decode (d m) buf); simpl; split; try reflexivity; discriminate.
Qed.

Lemma Ranger_callbacks :
  snd (Ranger m from to ctr) <> OutOfFuel
  /\ Forall (visited m from to 0) (callbacks (fst (Ranger m from to ctr)))
  /\ StronglySorted Point_le
       (map (DPoint (d m)) (callbacks (fst (Ranger m from to ctr)))).
Proof.
  unfold Ranger. rewrite (Iter_Len_floor m size_pos). fold (records m).
  cbn [lift]. rewrite bind_ret_l.
  set (f := fun i : Z => bind (Iter_IndexPoint m i) (fun p => ret (Less from p))).
  assert (Hsize0 : (0 <= records m)%Z)
    by (unfold records; apply Z.div_pos; [apply len_nonneg | lia]).
  assert (Hf1 : forall h, callbacks (fst (f h)) = []).
  { intros h. unfold f. rewrite fst_bind, callbacks_app.
    rewrite (proj1 (Iter_IndexPoint_no_callback h)).
    destruct (snd (Iter_IndexPoint m h)); reflexivity. }
  assert (Hf2 : forall h, snd (f h) <> OutOfFuel).
  { intros h. unfold f. rewrite snd_bind.
    pose proof (proj2 (Iter_IndexPoint_no_callback h)) as Hn.
    destruct (snd (Iter_IndexPoint m h)); simpl; try discriminate; contradiction. }
  pose proof (search_loop_callbacks f (Z.to_nat (records m)) Hf1 0 (records m)) as Hc.
  pose proof (search_loop_fuel f (Z.to_nat (records m)) Hf2 0 (records m)) as Hfu.
  pose proof (search_loop_range f (Z.to_nat (records m)) 0 (records m)) as Hr.
  unfold sort_Search. rewrite fst_bind, snd_bind, callbacks_app, Hc.
  cbn [app].
  destruct (snd (search_loop (Z.to_nat (records m)) f 0 (records m)))
    as [idx | | ] eqn:Erun.
  - specialize (Hr idx Hsize0 eq_refl).
    destruct (idx =? records m)%Z eqn:Eidx.
    + simpl. repeat split; try discriminate; constructor.
    + apply Z.eqb_neq in Eidx.
      destruct (Ranger_loop_callbacks (S (Z.to_nat (records m - idx))) idx)
        as (Hfu' & Hvis & Hsort); try lia.
      rewrite fst_bind, snd_bind, callbacks_app.
      assert (Hnil : callbacks
                (match snd (Ranger_loop (S (Z.to_nat (records m - idx)))
                              m from to ctr idx) with
                 | Ret _ => fst (@ret (access St) error nil_error)
                 | _ => []
                 end) = []).
      { destruct (snd (Ranger_loop _ m from to ctr idx)); reflexivity. }
      rewrite Hnil, app_nil_r.
      split; [ | split; [ | exact Hsort]].
      * destruct (snd (Ranger_loop _ m from to ctr idx)); simpl;
          try discriminate; contradiction.
      * eapply Forall_impl; [ | exact Hvis].
        intros rec ((j & Hj & Hrec) & Hrest).
        split; [exists j; split; [lia | exact Hrec] | exact Hrest].
  - simpl. repeat split; try discriminate; constructor.
  - exfalso. apply Hfu; [lia | reflexivity].
Qed.

End RangeScan.

(** C8. On a sorted store read through a decoder whose [Less] is the
    [Point] order, the records the range scan passes to its callback come in
    non-decreasing [Point] order, each has its longitude in
    [[from.Lon, to.Lon]] and each is strictly less than [to]; and the scan
    ends (in a result or in a panic).  This holds for any two bounds, ordered
    or not, and with or without a container. *)
Theorem Ranger_callbacks_ordered {St} (m : Iter St) (from to : Point)
    (ctr : option (Point -> bool)) :
  (0 < Size (d m))%Z -> (len (B m) <= max_int)%Z ->
  lawful (d m) -> sorted_store m ->
  StronglySorted Point_le
    (map (DPoint (d m)) (callbacks (trace (Ranger m from to ctr))))
  /\ Forall (fun p => Lon from <= Lon p <= Lon to /\ Less p to = true)
       (map (DPoint (d m)) (callbacks (trace (Ranger m from to ctr))))
  /\ result (Ranger m from to ctr) <> OutOfFuel.
Proof.
  intros Hs Hmax Hlaw Hsorted.
  destruct (Ranger_callbacks m from to ctr Hs Hmax Hlaw Hsorted)
    as (Hfuel & Hvis & Hsort).
  unfold trace, result. split; [exact Hsort | ]. split; [ | exact Hfuel].
  apply Forall_map. eapply Forall_impl; [ | exact Hvis].
  intros rec (_ & Hlon & Hless). auto.
Qed.

Lemma byteDecoder_lawful : lawful byteDecoder.
Proof. intros cur pt. reflexivity. Qed.

Lemma store_tail_records (i : Z) (rec : Point) :
  (0 <= i)%Z -> record_at store_tail i = Some rec ->
  (i = 0%Z /\ rec = mkPoint 1 1) \/ (i = 1%Z /\ rec = mkPoint 2 2).
Proof.
  intros Hi Hrec.
  assert (Hlt : (i < records store_tail)%Z)
    by exact (record_at_in_range store_tail eq_refl i rec Hi Hrec).
  change (records store_tail) with 2%Z in Hlt.
  assert (Hcase : i = 0%Z \/ i = 1%Z) by lia.
  destruct Hcase as [-> | ->]; [left | right]; split; try reflexivity.
  - change (record_at store_tail 0)
      with (Some (mkPoint (degrees Byte.x01) (degrees Byte.x01))) in Hrec.
    rewrite degrees_x01 in Hrec. congruence.
  - change (record_at store_tail 1)
      with (Some (mkPoint (degrees Byte.x02) (degrees Byte.x02))) in Hrec.
    rewrite degrees_x02 in Hrec. congruence.
Qed.

Lemma store_tail_sorted : sorted_store store_tail.
Proof.
  intros i j ri rj Hij Hi Hj.
  destruct (store_tail_records i ri) as [[-> ->] | [-> ->]]; try lia; auto;
    destruct (store_tail_records j rj) as [[-> ->] | [-> ->]]; try lia; auto;
    apply Less_false_iff; simpl; lra.
Qed.

Lemma Ranger_callbacks_ordered_witness :
  StronglySorted Point_le
    (map (DPoint (d store_tail))
       (callbacks (trace (Ranger store_tail (mkPoint 0 0) (mkPoint 5 5) None))))
  /\ Forall (fun p => Lon (mkPoint 0 0) <= Lon p <= Lon (mkPoint 5 5)
                      /\ Less p (mkPoint 5 5) = true)
       (map (DPoint (d store_tail))
          (callbacks (trace (Ranger store_tail (mkPoint 0 0) (mkPoint 5 5) None))))
  /\ result (Ranger store_tail (mkPoint 0 0) (mkPoint 5 5) None) <> OutOfFuel.
Proof.
  apply (Ranger_callbacks_ordered store_tail (mkPoint 0 0) (mkPoint 5 5) None).
  - reflexivity.
  - vm_compute. discriminate.
  - exact byteDecoder_lawful.
  - exact store_tail_sorted.
Defined.

(** The scan of [store_tail], run: both records are called back, in order,
    and the loop then asks for index 2, the length. *)
Lemma Ranger_store_tail_run :
  Ranger store_tail (mkPoint 0 0) (mkPoint 5 5) None
  = ([Fetch 1%Z; Fetch 0%Z;
      Fetch 0%Z; Callback (mkPoint 1 1);
      Fetch 1%Z; Callback (mkPoint 2 2);
      Fetch 2%Z], Panic).
Proof.
  assert (L1 : Less (mkPoint 0 0) (mkPoint 1 1) = true)
    by (apply Less_true_iff; simpl; lra).
  assert (L2 : Less (mkPoint 0 0) (mkPoint 2 2) = true)
    by (apply Less_true_iff; simpl; lra).
  assert (L3 : Less (mkPoint 1 1) (mkPoint 5 5) = true)
    by (apply Less_true_iff; simpl; lra).
  assert (L4 : Less (mkPoint 2 2) (mkPoint 5 5) = true)
    by (apply Less_true_iff; simpl; lra).
  unfold Ranger. sstep. unfold sort_Search. zfold.
  rewrite search_loop_step by lia. sstep.
  rewrite degrees_x02, L2. sstep.
  rewrite search_loop_step by lia. sstep.
  rewrite degrees_x01, L1. sstep.
  rewrite search_loop_stop by lia. sstep.
  unfold Ranger_loop. sstep.
  rewrite degrees_x01, L3. sstep.
  unfold between. rewrite !fle_true by lra. sstep.
  rewrite degrees_x02, L4. sstep.
  rewrite !fle_true by lra. sstep.
  reflexivity.
Qed.

(** ** The searches end, and what "not found" returns *)

Lemma for_loop_fuel {E S} (cond : Z -> bool) (next : Z -> Z)
    (body : Z -> S -> M E (step S)) (mu : Z -> Z) :
  (forall i s, snd (body i s) <> OutOfFuel) ->
  (forall i, cond i = true -> (0 < mu i)%Z /\ (mu (next i) < mu i)%Z) ->
  forall fuel i s,
    (mu i <= Z.of_nat fuel)%Z ->
    snd (for_loop fuel cond next body i s) <> OutOfFuel.
Proof.
  intros Hbody Hmu. induction fuel as [ | fuel IH]; intros i s Hfuel; simpl;
    destruct (cond i) eqn:Ec; simpl; try discriminate.
  - destruct (Hmu i Ec). lia.
  - destruct (Hmu i Ec) as [_ Hdec]. rewrite snd_bind.
    specialize (Hbody i s).
    destruct (snd (body i s)) as [[s' | s'] | | ]; simpl;
      try discriminate; try contradiction.
    apply IH. lia.
Qed.

Lemma for_loop_invariant {E S} (cond : Z -> bool) (next : Z -> Z)
    (body : Z -> S -> M E (step S)) (J : Z -> Prop) (I : S -> Prop) :
  (forall i, J i -> cond i = true -> J (next i)) ->
  (forall i s r,
      J i -> cond i = true -> I s -> snd (body i s) = Ret r ->
      I (match r with Next s' => s' | Break s' => s' end)) ->
  forall fuel i s s',
    J i -> I s -> snd (for_loop fuel cond next body i s) = Ret s' -> I s'.
Proof.
  intros HJ HI. induction fuel as [ | fuel IH]; intros i s s' Hi Hs; simpl;
    destruct (cond i) eqn:Ec; simpl; try discriminate;
    try (intros H; inversion H; subst; exact Hs).
  rewrite snd_bind.
  destruct (snd (body i s)) as [r | | ] eqn:Eb; try discriminate.
  pose proof (HI i s r Hi Ec Hs Eb) as Hr.
  destruct r as [s1 | s1]; simpl.
  - apply IH; auto.
  - intros H; inversion H; subst; exact Hr.
Qed.

Lemma read_ends (g : GeoPoints) (i : Z) : snd (read g i) <> OutOfFuel.
Proof. unfold read. simpl. destruct (IndexPoint g i); simpl; discriminate. Qed.

Lemma measure_ends (i : Z) (o : option R) : snd (measure i o) <> OutOfFuel.
Proof. unfold measure. simpl. destruct o; simpl; discriminate. Qed.

Lemma backward_ends (metric : Point -> Point -> option R) (g : GeoPoints)
    (pt : Point) (k : R) (i : Z) (s : vars) :
  snd (backward metric g pt k i s) <> OutOfFuel.
Proof.
  unfold backward, read, measure. simpl.
  destruct (IndexPoint g i) as [this | ]; simpl; [ | discriminate].
  destruct (flt (Lat this) (minLat s)); simpl; [discriminate | ].
  destruct (lonOutside pt (deltaLon s) (Lon this)); simpl; [discriminate | ].
  destruct (metric pt this) as [dist | ]; simpl; [ | discriminate].
  destruct (flt dist (closest s)); simpl; discriminate.
Qed.

Lemma forward_ends (metric : Point -> Point -> option R) (g : GeoPoints)
    (pt : Point) (i : Z) (ms : R * vars) :
  snd (forward metric g pt i ms) <> OutOfFuel.
Proof.
  destruct ms as [maxLat s]. unfold forward, read, measure. simpl.
  destruct (IndexPoint g i) as [this | ]; simpl; [ | discriminate].
  destruct (flt maxLat (Lat this)); simpl; [discriminate | ].
  destruct (lonOutside pt (deltaLon s) (Lon this)); simpl; [discriminate | ].
  destruct (metric this pt) as [dist | ]; simpl; [ | discriminate].
  destruct (flt dist (closest s)); simpl; discriminate.
Qed.

Lemma scans_end (metric : Point -> Point -> option R) (g : GeoPoints)
    (pt : Point) (k : R) (x : Z) (s0 : vars) :
  snd (scans metric g pt k x s0) <> OutOfFuel.
Proof.
  unfold scans. rewrite snd_bind.
  assert (Hb : snd (for_loop (Z.to_nat x) (fun i => (0 <? i)%Z) Z.pred
                      (backward metric g pt k) (x - 1)%Z s0) <> OutOfFuel).
  { apply (for_loop_fuel (fun i => (0 <? i)%Z) Z.pred
             (backward metric g pt k) (fun i => i)
             (backward_ends metric g pt k)).
    - intros i H. apply Z.ltb_lt in H. lia.
    - lia. }
  destruct (snd (for_loop (Z.to_nat x) _ Z.pred _ (x - 1)%Z s0)) as [s | | ];
    try discriminate; try contradiction.
  apply (for_loop_fuel (fun i => (i <? Len g)%Z) Z.succ
           (forward metric g pt) (fun i => (Len g - i)%Z)
           (forward_ends metric g pt)).
  - intros i H. apply Z.ltb_lt in H. lia.
  - lia.
Qed.

Lemma seed_ends (g : GeoPoints) (pt : Point) : snd (seed g pt) <> OutOfFuel.
Proof.
  unfold seed, sort_Search. apply search_loop_fuel; [ | lia].
  intros h. rewrite snd_bind. pose proof (read_ends g h) as Hr.
  destruct (snd (read g h)); simpl; try discriminate; contradiction.
Qed.

(** Neither search runs out of fuel, on any sequence: the fuel of the model
    covers every turn of the three loops. *)
Lemma searches_end (g : GeoPoints) (pt : Point) (deltaKm : R) :
  result (Bestest g pt deltaKm) <> OutOfFuel
  /\ result (Closest g pt deltaKm) <> OutOfFuel.
Proof.
  unfold result, Bestest, Closest. rewrite !snd_bind.
  pose proof (seed_ends g pt) as Hseed.
  destruct (snd (seed g pt)) as [x | | ]; try contradiction;
    [ | split; discriminate].
  destruct (x =? Len g)%Z; [split; discriminate | ].
  rewrite !snd_bind. split.
  - unfold Bestest_vars. rewrite snd_bind.
    pose proof (read_ends g x) as Hr.
    destruct (snd (read g x)) as [this | | ]; try discriminate; try contradiction.
    rewrite snd_bind.
    pose proof (measure_ends x (Point_Distance this pt)) as Hm.
    destruct (snd (measure x (Point_Distance this pt))) as [dist | | ];
      try discriminate; try contradiction.
    destruct (flt dist (deltaKm + 0.0001)); rewrite snd_bind;
      match goal with
      | |- context [scans ?mt ?g ?pt ?k ?x ?s] =>
          pose proof (scans_end mt g pt k x s) as Hs;
          destruct (snd (scans mt g pt k x s)); simpl;
          try discriminate; try contradiction
      end.
  - unfold Closest_vars. rewrite snd_bind.
    pose proof (read_ends g x) as Hr.
    destruct (snd (read g x)) as [this | | ]; try discriminate; try contradiction.
    rewrite snd_bind.
    pose proof (measure_ends x (Approximately this pt)) as Hm.
    destruct (snd (measure x (Approximately this pt))) as [dist | | ];
      try discriminate; try contradiction.
    rewrite snd_bind.
    destruct (LookupLonKmPerLat (Lat pt)) as [k | ]; simpl; [ | discriminate].
    rewrite snd_bind.
    match goal with
    | |- context [scans ?mt ?g ?pt ?k ?x ?s] =>
        pose proof (scans_end mt g pt k x s) as Hs;
        destruct (snd (scans mt g pt k x s)); simpl;
        try discriminate; try contradiction
    end.
Qed.

(** The scans keep this: the best index is the length only while the best
    distance is still the seed [seed0]. *)
Lemma scans_not_found (metric : Point -> Point -> option R) (g : GeoPoints)
    (pt : Point) (k : R) (x : Z) (s0 : vars) (seed0 : R) (ms : R * vars) :
  (x <= Len g)%Z ->
  (best s0 = Len g -> closest s0 = seed0) ->
  snd (scans metric g pt k x s0) = Ret ms ->
  best (snd ms) = Len g -> closest (snd ms) = seed0.
Proof.
  intros Hx H0. unfold scans. rewrite snd_bind.
  destruct (snd (for_loop (Z.to_nat x) _ Z.pred _ (x - 1)%Z s0))
    as [s | | ] eqn:Eb; try discriminate.
  assert (Hs : best s = Len g -> closest s = seed0).
  { revert Eb.
    apply (for_loop_invariant (fun i => (0 <? i)%Z) Z.pred
             (backward metric g pt k) (fun i => (i < Len g)%Z)
             (fun s => best s = Len g -> closest s = seed0));
      [ intros; lia | | lia | exact H0 ].
    intros i s1 r Hi _ Hs1. unfold backward, read, measure. simpl.
    destruct (IndexPoint g i) as [this | ]; simpl; [ | discriminate].
    destruct (flt (Lat this) (minLat s1)); simpl.
    { intros H; inversion H; subst; exact Hs1. }
    destruct (lonOutside pt (deltaLon s1) (Lon this)); simpl.
    { intros H; inversion H; subst; exact Hs1. }
    destruct (metric pt this) as [dist | ]; simpl; [ | discriminate].
    destruct (flt dist (closest s1)); simpl; intros H; inversion H; subst;
      simpl; [lia | exact Hs1]. }
  apply (for_loop_invariant (fun i => (i <? Len g)%Z) Z.succ
           (forward metric g pt) (fun _ => True)
           (fun ms => best (snd ms) = Len g -> closest (snd ms) = seed0));
    [ auto | | exact I | exact Hs ].
  intros i [m1 s1] r _ Hc Hs1. apply Z.ltb_lt in Hc.
  unfold forward, read, measure. simpl in *.
  destruct (IndexPoint g i) as [this | ]; simpl; [ | discriminate].
  destruct (flt m1 (Lat this)); simpl.
  { intros H; inversion H; subst; exact Hs1. }
  destruct (lonOutside pt (deltaLon s1) (Lon this)); simpl.
  { intros H; inversion H; subst; exact Hs1. }
  destruct (metric this pt) as [dist | ]; simpl; [ | discriminate].
  destruct (flt dist (closest s1)); simpl; intros H; inversion H; subst;
    simpl; [lia | exact Hs1].
Qed.

(** Whenever [Bestest] returns the length as its index, the distance it
    returns is -1 if the binary search found no greater point, and the seed
    [deltaKm + 0.0001] otherwise. *)
Lemma Bestest_not_found_distance (g : GeoPoints) (pt : Point) (deltaKm : R)
    (dist : R) :
  (0 <= Len g)%Z ->
  result (Bestest g pt deltaKm) = Ret (Len g, dist) ->
  (result (seed g pt) = Ret (Len g) /\ dist = -1)
  \/ (exists x, result (seed g pt) = Ret x /\ (x < Len g)%Z
                /\ dist = deltaKm + 0.0001).
Proof.
  intros Hlen. unfold result, Bestest. rewrite snd_bind.
  destruct (snd (seed g pt)) as [x | | ] eqn:Eseed; try discriminate.
  assert (Hx : (0 <= x <= Len g)%Z).
  { unfold seed, sort_Search in Eseed.
    apply search_loop_range in Eseed; lia. }
  destruct (x =? Len g)%Z eqn:Ex.
  - apply Z.eqb_eq in Ex. subst x. simpl. intros H; inversion H. left. auto.
  - apply Z.eqb_neq in Ex. rewrite snd_bind.
    destruct (snd (Bestest_vars g pt deltaKm x)) as [[k ms] | | ] eqn:Ev;
      try discriminate.
    simpl. intros H; inversion H as [[Hbest Hdist]]. right.
    exists x. split; [reflexivity | ]. split; [lia | ].
    revert Ev. unfold Bestest_vars. rewrite snd_bind.
    destruct (snd (read g x)) as [this | | ]; try discriminate.
    rewrite snd_bind.
    destruct (snd (measure x (Point_Distance this pt))) as [d0 | | ];
      try discriminate.
    destruct (flt d0 (deltaKm + 0.0001)) eqn:Ed; rewrite snd_bind;
      match goal with
      | |- context [scans ?mt ?g ?pt ?k ?x ?s] =>
          destruct (snd (scans mt g pt k x s)) as [ms' | | ] eqn:Es;
          try discriminate
      end;
      simpl; intros H'; inversion H'; subst;
      (eapply scans_not_found;
       [ | | exact Es | exact Hbest]; [lia | simpl; intros; try reflexivity;
                                              exfalso; lia]).
Qed.

(* ===================================================================== *)
(** * Further properties of the package *)
(* ===================================================================== *)

(** ** The order of points *)

(** [Less] is a strict total order: of two points exactly one of "less",
    "equal" and "greater" holds. *)
Theorem Less_trichotomy (p q : Point) :
  (Less p q = true /\ Less q p = false /\ p <> q)
  \/ (p = q /\ Less p q = false /\ Less q p = false)
  \/ (Less q p = true /\ Less p q = false /\ p <> q).
Proof.
  destruct (Less p q) eqn:Epq.
  - left. split; [reflexivity | ]. split; [apply Less_asym; exact Epq | ].
    intros ->. rewrite Less_irrefl in Epq. discriminate.
  - destruct (Less q p) eqn:Eqp.
    + right. right. split; [reflexivity | ]. split; [reflexivity | ].
      intros ->. rewrite Less_irrefl in Eqp. discriminate.
    + right. left. split; [apply Less_total; assumption | auto].
Qed.

(** [Less] is transitive. *)
Theorem Less_transitive (p q r : Point) :
  Less p q = true -> Less q r = true -> Less p r = true.
Proof. apply Less_trans. Qed.

Lemma Less_transitive_witness :
  Less (mkPoint 1 5) (mkPoint 3 0) = true.
Proof.
  apply (Less_transitive (mkPoint 1 5) (mkPoint 1 7) (mkPoint 3 0));
    apply Less_true_iff; simpl; lra.
Defined.

(** ** The exact distance *)

Lemma PI_gt_314 : 3.14 < PI.
Proof.
  pose proof (PI_2_3_7_ineq 1) as [H _].
  unfold sum_f_R0, tg_alt, PI_2_3_7_tg, Ratan_seq in H. simpl in H. lra.
Qed.

Lemma Distance_sym (lat1 lon1 lat2 lon2 : R) :
  Distance lat1 lon1 lat2 lon2 = Distance lat2 lon2 lat1 lon1.
Proof.
  unfold Distance. cbv zeta. f_equal. f_equal.
  replace (deg2rad lon1 - deg2rad lon2)
    with (- (deg2rad lon2 - deg2rad lon1)) by lra.
  rewrite cos_neg. ring.
Qed.

(** The exact distance does not depend on the order of its two points. *)
Theorem Distance_symmetric (lat1 lon1 lat2 lon2 : R) :
  Distance lat1 lon1 lat2 lon2 = Distance lat2 lon2 lat1 lon1.
Proof. exact (Distance_sym lat1 lon1 lat2 lon2). Qed.

(** Over the reals the argument of [acos] in [Distance] never leaves
    [-1, 1].  In float64 the sum of the two products can round outside, at
    the same point taken twice as well as at antipodes, and [math.Acos] then
    returns NaN.  The two statements that follow are therefore worded by the
    tests the code makes on a distance, [d < c] and [c < d]: a NaN fails
    every such test, as does the number the statement excludes. *)

(** [Distance] never returns a negative number, nor a number above half the
    circumference, [PI * 6371.1] km: the tests [d < 0] and
    [PI * 6371.1 < d] are false of every result. *)
Theorem Distance_range (lat1 lon1 lat2 lon2 : R) :
  flt (Distance lat1 lon1 lat2 lon2) 0 = false
  /\ flt (PI * EarthRadiusInKM) (Distance lat1 lon1 lat2 lon2) = false.
Proof.
  assert (H : 0 <= Distance lat1 lon1 lat2 lon2 <= PI * EarthRadiusInKM).
  { unfold Distance. cbv zeta.
    match goal with
    | |- context [acos ?x] => pose proof (acos_bound x) as [H0 H1]
    end.
    unfold EarthRadiusInKM. split.
    - apply Rmult_le_pos; lra.
    - apply Rmult_le_compat_r; lra. }
  split; apply flt_false; lra.
Qed.

Lemma acos_ge (x t : R) : 0 <= t <= PI -> -1 <= x <= cos t -> t <= acos x.
Proof.
  intros Ht [Hlo Hhi].
  destruct (Rle_lt_dec t (acos x)) as [Hle | Hlt]; [exact Hle | exfalso].
  pose proof (acos_bound x) as [Ha0 Ha1].
  pose proof (COS_bound t) as [_ Hc1].
  assert (Hcos : cos t < cos (acos x))
    by (apply cos_decreasing_1; lra).
  rewrite cos_acos in Hcos by lra. lra.
Qed.

(** Between latitudes within 90 degrees of the equator the exact distance is
    at least the arc of the latitude difference, which is more than 111.111
    km per degree. *)
Lemma Distance_latitude_leg (lat1 lon1 lat2 lon2 : R) :
  -90 <= lat1 <= 90 -> -90 <= lat2 <= 90 ->
  Rabs (lat2 - lat1) * DegreeToKilometer <= Distance lat1 lon1 lat2 lon2.
Proof.
  intros H1 H2. pose proof PI_gt_314 as Hpi. pose proof PI_4 as Hpi4.
  unfold Distance, deg2rad, Radian. cbv zeta.
  set (a := lat1 * (PI / 180)). set (b := lat2 * (PI / 180)).
  set (dl := lon2 * (PI / 180) - lon1 * (PI / 180)).
  assert (Ha : - (PI / 2) <= a <= PI / 2) by (unfold a; split; nra).
  assert (Hb : - (PI / 2) <= b <= PI / 2) by (unfold b; split; nra).
  assert (Hca : 0 <= cos a) by (apply cos_ge_0; lra).
  assert (Hcb : 0 <= cos b) by (apply cos_ge_0; lra).
  pose proof (COS_bound dl) as [Hd0 Hd1].
  assert (Hprod : 0 <= cos a * cos b) by (apply Rmult_le_pos; assumption).
  assert (Hup : sin a * sin b + cos a * cos b * cos dl <= cos (Rabs (b - a))).
  { assert (E : cos (Rabs (b - a)) = cos b * cos a + sin b * sin a).
    { unfold Rabs. destruct (Rcase_abs (b - a)).
      - rewrite cos_neg. apply cos_minus.
      - apply cos_minus. }
    rewrite E. nra. }
  assert (Hlow : -1 <= sin a * sin b + cos a * cos b * cos dl).
  { pose proof (COS_bound (a + b)) as [_ Hc]. rewrite cos_plus in Hc. nra. }
  assert (Habs : 0 <= Rabs (b - a) <= PI).
  { split; [apply Rabs_pos | ]. unfold Rabs. destruct (Rcase_abs (b - a)); lra. }
  pose proof (acos_ge _ _ Habs (conj Hlow Hup)) as Hac.
  assert (Eabs : Rabs (b - a) = Rabs (lat2 - lat1) * (PI / 180)).
  { unfold a, b. replace (lat2 * (PI / 180) - lat1 * (PI / 180))
      with ((lat2 - lat1) * (PI / 180)) by lra.
    rewrite Rabs_mult. f_equal. apply Rabs_right. lra. }
  rewrite Eabs in Hac. pose proof (Rabs_pos (lat2 - lat1)) as Hpos.
  unfold DegreeToKilometer, EarthRadiusInKM.
  apply Rle_trans with (Rabs (lat2 - lat1) * (PI / 180) * 6371.1).
  - nra.
  - apply Rmult_le_compat_r; lra.
Qed.

(** The latitude bound of [Bestest] is sound.  For a radius [c] of at least
    one kilometre, a point whose latitude is more than [c / 111.111] degrees
    below (or above) the query's never passes the test [dist < c], in either
    order of the two points and whatever the longitudes: the scan loses
    nothing by stopping there.  (The bound on [c] keeps the statement clear
    of separations of a few metres and less, where float64 cannot tell the
    cosine from 1; above it the margin between 111.111 and the 111.1967 km
    that a degree of latitude spans on this sphere covers the rounding.) *)
Theorem Distance_latitude_prune (lat lon qlat qlon c : R) :
  -90 <= lat <= 90 -> -90 <= qlat <= 90 -> 1 <= c ->
  lat < qlat - c / DegreeToKilometer \/ qlat + c / DegreeToKilometer < lat ->
  flt (Distance lat lon qlat qlon) c = false
  /\ flt (Distance qlat qlon lat lon) c = false.
Proof.
  intros H1 H2 _ Hout.
  pose proof (Distance_latitude_leg lat lon qlat qlon H1 H2) as Hleg.
  assert (Hc : c < Rabs (qlat - lat) * DegreeToKilometer).
  { unfold DegreeToKilometer in *. unfold Rabs.
    destruct (Rcase_abs (qlat - lat)); destruct Hout as [Ho | Ho];
      (apply Rmult_lt_reg_r with (/ 111.111); [lra | ]);
      field_simplify; lra. }
  split; apply flt_false; [lra | ]. rewrite Distance_sym. lra.
Qed.

Lemma Distance_latitude_prune_witness :
  flt (Distance 10 0 10.5 3) 1 = false /\ flt (Distance 10.5 3 10 0) 1 = false.
Proof.
  apply (Distance_latitude_prune 10 0 10.5 3 1); try lra.
  left. unfold DegreeToKilometer. lra.
Defined.

(** ** Kilometres per degree of longitude *)

Lemma deg2rad_quarter (lat : R) :
  -90 < lat < 90 -> - (PI / 2) < deg2rad lat < PI / 2.
Proof.
  intros H. pose proof PI_RGT_0 as Hpi. unfold deg2rad, Radian. split; nra.
Qed.

Lemma LonKilos_bounds (lat : R) :
  -90 < lat < 90 ->
  LonKilos (- lat) = LonKilos lat /\ 0 < LonKilos lat <= DegreeToKilometer.
Proof.
  intros H. pose proof (deg2rad_quarter lat H) as [Hlo Hhi].
  unfold LonKilos. split.
  - unfold deg2rad. replace (- lat * Radian) with (- (lat * Radian)) by lra.
    rewrite cos_neg. reflexivity.
  - pose proof (cos_gt_0 (deg2rad lat) Hlo Hhi) as Hc.
    pose proof (COS_bound (deg2rad lat)) as [_ Hc1].
    unfold DegreeToKilometer. split; nra.
Qed.

(** [LonKilos] is the same north and south of the equator, and between the
    poles it is positive and at most 111.111. *)
Theorem LonKilos_range (lat : R) :
  -90 < lat < 90 ->
  LonKilos (- lat) = LonKilos lat /\ 0 < LonKilos lat <= DegreeToKilometer.
Proof. exact (LonKilos_bounds lat). Qed.

Lemma LonKilos_range_witness :
  LonKilos (- 45) = LonKilos 45 /\ 0 < LonKilos 45 <= DegreeToKilometer.
Proof. apply (LonKilos_range 45). lra. Defined.

Lemma LonKilos_decreasing (a b : R) :
  0 <= a -> a <= b -> b <= 180 -> LonKilos b <= LonKilos a.
Proof.
  intros Ha Hab Hb. pose proof PI_RGT_0 as Hpi.
  unfold LonKilos, DegreeToKilometer.
  apply Rmult_le_compat_r; [lra | ].
  unfold deg2rad, Radian. apply cos_decr_1; nra.
Qed.

Lemma int_of_float_floor (x : R) :
  0 <= x -> IZR (int_of_float x) <= x /\ (0 <= int_of_float x)%Z.
Proof.
  intros H. unfold int_of_float. destruct (Rle_dec 0 x); [ | contradiction].
  pose proof (Zfloor_bound x) as [Hlo _]. split; [exact Hlo | ].
  apply (Zfloor_lub 0 x). exact H.
Qed.

Lemma lookup_in_table (lat : R) :
  -0.1 < lat < 90.1 ->
  (0 <= int_of_float (lat * 10) < 901)%Z
  /\ LookupLonKmPerLat lat
     = Some (LonKilos (IZR (int_of_float (lat * 10)) / 10)).
Proof.
  intros [Hlo Hhi].
  assert (Hidx : (0 <= int_of_float (lat * 10) < 901)%Z).
  { destruct (Rle_dec 0 lat) as [Hpos | Hneg].
    - apply int_of_float_nonneg; lra.
    - rewrite int_of_float_small_negative by lra. lia. }
  split; [exact Hidx | ].
  unfold LookupLonKmPerLat. cbv zeta. apply lonKmLookup_index. exact Hidx.
Qed.

Lemma lookup_upper_bound (lat : R) :
  -0.1 < lat < 90.1 ->
  exists k,
    LookupLonKmPerLat lat = Some k
    /\ LonKilos lat <= k /\ 0 <= k <= DegreeToKilometer.
Proof.
  intros H.
  destruct (lookup_in_table lat H) as [Hidx Hlook].
  exists (LonKilos (IZR (int_of_float (lat * 10)) / 10)).
  split; [exact Hlook | ].
  set (i := int_of_float (lat * 10)) in *.
  assert (Hi0 : 0 <= IZR i) by (apply IZR_le; lia).
  assert (Hi1 : IZR i <= 900) by (apply IZR_le; lia).
  pose proof PI_RGT_0 as Hpi.
  pose proof (COS_bound (deg2rad (IZR i / 10))) as [_ Hc1].
  assert (Hc0 : 0 <= cos (deg2rad (IZR i / 10))).
  { apply cos_ge_0; unfold deg2rad, Radian; nra. }
  split; [ | unfold LonKilos, DegreeToKilometer; split; nra].
  destruct (Rle_dec 0 lat) as [Hpos | Hneg].
  - apply LonKilos_decreasing; try lra.
    pose proof (int_of_float_floor (lat * 10)) as [Hfl _]; [lra | ].
    fold i in Hfl. lra.
  - assert (Ei : i = 0%Z) by (apply int_of_float_small_negative; lra).
    rewrite Ei. replace (0 / 10) with 0 by lra. rewrite LonKilos_0.
    unfold LonKilos, DegreeToKilometer.
    pose proof (COS_bound (deg2rad lat)) as [_ Hc]. nra.
Qed.



Lemma int_of_float_mono (x y : R) :
  0 <= x -> x <= y -> (int_of_float x <= int_of_float y)%Z.
Proof.
  intros Hx Hxy. unfold int_of_float.
  destruct (Rle_dec 0 x); [ | contradiction].
  destruct (Rle_dec 0 y); [ | lra].
  apply Zfloor_le. exact Hxy.
Qed.

(** The table is monotone: toward the pole the entry it returns does not
    grow. *)
Theorem LookupLonKmPerLat_monotone (lat1 lat2 k1 k2 : R) :
  0 <= lat1 -> lat1 <= lat2 ->
  LookupLonKmPerLat lat1 = Some k1 -> LookupLonKmPerLat lat2 = Some k2 ->
  k2 <= k1.
Proof.
  intros H0 H12 E1 E2.
  assert (Hhi : lat2 < 90.1).
  { destruct (Rlt_le_dec lat2 90.1) as [ | Hge]; [assumption | ].
    rewrite (LookupLonKmPerLat_above_panics lat2 Hge) in E2. discriminate. }
  destruct (lookup_in_table lat1) as [Hi1 L1]; [lra | ].
  destruct (lookup_in_table lat2) as [Hi2 L2]; [lra | ].
  rewrite L1 in E1. rewrite L2 in E2. inversion E1. inversion E2.
  pose proof (int_of_float_mono (lat1 * 10) (lat2 * 10)) as Hm.
  assert (Hle : (int_of_float (lat1 * 10) <= int_of_float (lat2 * 10))%Z)
    by (apply Hm; lra).
  apply IZR_le in Hle.
  assert (0 <= IZR (int_of_float (lat1 * 10))) by (apply IZR_le; lia).
  assert (IZR (int_of_float (lat2 * 10)) <= 900) by (apply IZR_le; lia).
  apply LonKilos_decreasing; lra.
Qed.

Lemma LookupLonKmPerLat_monotone_witness :
  LonKilos (IZR (int_of_float (60 * 10)) / 10)
  <= LonKilos (IZR (int_of_float (30 * 10)) / 10).
Proof.
  apply (LookupLonKmPerLat_monotone 30 60); try lra;
    apply lookup_in_table; lra.
Defined.

(** ** The approximate distance *)

(** The two approximate distances are each other's mirror: [float64]
    [ApproximateDistance] from a to b is [ApproximateDistanceGeo] from b to
    a, since the first scales longitude at the second latitude and the other
    at the first. *)
Theorem ApproximateDistance_mirror (lat1 lon1 lat2 lon2 : R) :
  ApproximateDistance lat1 lon1 lat2 lon2
  = ApproximateDistanceGeo lat2 lon2 lat1 lon1.
Proof.
  unfold ApproximateDistance, ApproximateDistanceGeo.
  destruct (LookupLonKmPerLat lat2) as [k | ]; [ | reflexivity].
  f_equal. f_equal. unfold Pow2. ring.
Qed.

Lemma sqrt_sum_ge_left (a b : R) : Rabs a <= sqrt (Pow2 a + Pow2 b).
Proof.
  unfold Pow2. rewrite <- sqrt_Rsqr_abs. apply sqrt_le_1_alt.
  unfold Rsqr. nra.
Qed.

(** When the approximate distance is defined it is at least the latitude
    leg, 111.111 km per degree of latitude difference, and at least the
    longitude leg at the scale of the table. *)
Theorem ApproximateDistanceGeo_legs (lat1 lon1 lat2 lon2 dist : R) :
  ApproximateDistanceGeo lat1 lon1 lat2 lon2 = Some dist ->
  Rabs (lat2 - lat1) * DegreeToKilometer <= dist
  /\ (exists k, LookupLonKmPerLat lat1 = Some k
                /\ Rabs (lon2 - lon1) * k <= dist)
  /\ 0 <= dist.
Proof.
  unfold ApproximateDistanceGeo.
  destruct (LookupLonKmPerLat lat1) as [k | ] eqn:Ek; [ | discriminate].
  intros H. inversion H as [Hd]. clear H.
  assert (Hk : 0 <= k).
  { destruct (Rlt_le_dec (-0.1) lat1) as [Hlo | Hlo].
    - destruct (Rlt_le_dec lat1 90.1) as [Hhi | Hhi].
      + destruct (lookup_upper_bound lat1) as (k' & E' & _ & Hk' & _);
          [lra | ]. congruence.
      + rewrite LookupLonKmPerLat_above_panics in Ek by exact Hhi. discriminate.
    - rewrite LookupLonKmPerLat_below_panics in Ek by exact Hlo. discriminate. }
  split; [ | split].
  - pose proof (sqrt_sum_ge_left ((lat2 - lat1) * DegreeToKilometer)
                  ((lon2 - lon1) * k)) as Hs.
    rewrite Rabs_mult in Hs.
    rewrite (Rabs_right DegreeToKilometer) in Hs
      by (unfold DegreeToKilometer; lra).
    exact Hs.
  - exists k. split; [reflexivity | ].
    pose proof (sqrt_sum_ge_left ((lon2 - lon1) * k)
                  ((lat2 - lat1) * DegreeToKilometer)) as Hs.
    rewrite Rabs_mult in Hs. rewrite (Rabs_right k) in Hs by lra.
    rewrite (Rplus_comm (Pow2 ((lon2 - lon1) * k))) in Hs. exact Hs.
  - apply sqrt_pos.
Qed.

Lemma ApproximateDistanceGeo_legs_witness :
  Rabs (0 - 0.012) * DegreeToKilometer <= 1.444443
  /\ (exists k, LookupLonKmPerLat 0.012 = Some k
                /\ Rabs (0 - 0.005) * k <= 1.444443)
  /\ 0 <= 1.444443.
Proof.
  apply (ApproximateDistanceGeo_legs 0.012 0.005 0 0 1.444443).
  apply ApproximateDistanceGeo_first_cell; unfold Pow2; lra.
Defined.

(** ** Areas and boxes *)

(** [AreaInKm] does not depend on the order of the two corners, is never
    negative, and is zero for a box without height or without width. *)
Theorem AreaInKm_basic (lat1 lon1 lat2 lon2 : R) :
  AreaInKm lat1 lon1 lat2 lon2 = AreaInKm lat2 lon2 lat1 lon1
  /\ 0 <= AreaInKm lat1 lon1 lat2 lon2
  /\ AreaInKm lat1 lon1 lat1 lon2 = 0
  /\ AreaInKm lat1 lon1 lat2 lon1 = 0.
Proof.
  unfold AreaInKm, LongitudeKilometers. cbv zeta.
  split; [ | split; [ | split]].
  - rewrite (Rabs_minus_sym lon1 lon2), (Rabs_minus_sym lat1 lat2).
    rewrite (Rplus_comm (LonKilos lat1 * Rabs (lon2 - lon1))). reflexivity.
  - pose proof (Rabs_pos (lat2 - lat1)).
    pose proof (Rabs_pos (LonKilos lat2 * Rabs (lon2 - lon1)
                          + LonKilos lat1 * Rabs (lon2 - lon1))).
    unfold DegreeToKilometer. apply Rmult_le_pos; [nra | lra].
  - replace (lat1 - lat1) with 0 by lra. rewrite Rabs_R0. lra.
  - replace (lon1 - lon1) with 0 by lra. rewrite Rabs_R0, !Rmult_0_r.
    rewrite Rplus_0_r, Rabs_R0. lra.
Qed.

(** Between the poles [AreaInKm] is the area of the trapezoid: the height in
    km times the mean of the two widths in km. *)
Theorem AreaInKm_trapezoid (lat1 lon1 lat2 lon2 : R) :
  -90 < lat1 < 90 -> -90 < lat2 < 90 ->
  AreaInKm lat1 lon1 lat2 lon2
  = Rabs (lat2 - lat1) * DegreeToKilometer
    * (Rabs (lon2 - lon1) * (LonKilos lat1 + LonKilos lat2) / 2).
Proof.
  intros H1 H2.
  destruct (LonKilos_bounds lat1 H1) as [_ [Hk1 _]].
  destruct (LonKilos_bounds lat2 H2) as [_ [Hk2 _]].
  unfold AreaInKm, LongitudeKilometers. cbv zeta.
  pose proof (Rabs_pos (lon2 - lon1)) as Hd.
  rewrite (Rabs_right (LonKilos lat2 * Rabs (lon2 - lon1)
                       + LonKilos lat1 * Rabs (lon2 - lon1))) by nra.
  lra.
Qed.

Lemma AreaInKm_trapezoid_witness :
  AreaInKm 40.5 (-73.9) 41 (-73.5)
  = Rabs (41 - 40.5) * DegreeToKilometer
    * (Rabs (-73.5 - -73.9) * (LonKilos 40.5 + LonKilos 41) / 2).
Proof. apply (AreaInKm_trapezoid 40.5 (-73.9) 41 (-73.5)); lra. Defined.

(** Between the poles and for a distance that is not negative, the box of
    [AreaInRange64] contains its centre, and its corners are as far from the
    centre on either side: [distance / 111.111] degrees of latitude and
    [distance / LonKilos lat] degrees of longitude. *)
Theorem AreaInRange64_contains_centre (lat lon distance : R) :
  -90 < lat < 90 -> 0 <= distance ->
  Within lat lon
    (fst (fst (AreaInRange64 (lat, lon) distance)))
    (snd (fst (AreaInRange64 (lat, lon) distance)))
    (fst (snd (AreaInRange64 (lat, lon) distance)))
    (snd (snd (AreaInRange64 (lat, lon) distance))) = true
  /\ lat - fst (fst (AreaInRange64 (lat, lon) distance))
     = distance / DegreeToKilometer
  /\ fst (snd (AreaInRange64 (lat, lon) distance)) - lat
     = distance / DegreeToKilometer
  /\ lon - snd (fst (AreaInRange64 (lat, lon) distance))
     = distance / LonKilos lat
  /\ snd (snd (AreaInRange64 (lat, lon) distance)) - lon
     = distance / LonKilos lat.
Proof.
  intros Hlat Hd.
  destruct (LonKilos_bounds lat Hlat) as [_ [Hk _]].
  unfold AreaInRange64, LongitudeKilometerDegrees. simpl.
  assert (H1 : 0 <= distance / DegreeToKilometer).
  { unfold DegreeToKilometer. apply Rmult_le_pos; [lra | ].
    apply Rlt_le, Rinv_0_lt_compat. lra. }
  assert (H2 : 0 <= distance / LonKilos lat).
  { apply Rmult_le_pos; [lra | ]. apply Rlt_le, Rinv_0_lt_compat. exact Hk. }
  split; [ | repeat split; lra].
  unfold Within. apply andb_true_iff. split; apply between_true_iff; lra.
Qed.

Lemma AreaInRange64_contains_centre_witness :
  Within 37 (-122)
    (fst (fst (AreaInRange64 (37, -122) 50)))
    (snd (fst (AreaInRange64 (37, -122) 50)))
    (fst (snd (AreaInRange64 (37, -122) 50)))
    (snd (snd (AreaInRange64 (37, -122) 50))) = true
  /\ 37 - fst (fst (AreaInRange64 (37, -122) 50)) = 50 / DegreeToKilometer
  /\ fst (snd (AreaInRange64 (37, -122) 50)) - 37 = 50 / DegreeToKilometer
  /\ -122 - snd (fst (AreaInRange64 (37, -122) 50)) = 50 / LonKilos 37
  /\ snd (snd (AreaInRange64 (37, -122) 50)) - -122 = 50 / LonKilos 37.
Proof. apply (AreaInRange64_contains_centre 37 (-122) 50); lra. Defined.

(** ** The sanity check of a box *)

Lemma feq_true_iff (a b : R) : feq a b = true <-> a = b.
Proof.
  unfold feq. destruct (Req_dec_T a b); split; intros; try assumption;
    try reflexivity; try discriminate; contradiction.
Qed.

Lemma coordCheck_None_iff (coord : list R) :
  coordCheck coord = None <->
  exists c0 c1 c2 c3 rest,
    coord = c0 :: c1 :: c2 :: c3 :: rest
    /\ ~ (c0 = 0 /\ c1 = 0 /\ c2 = 0 /\ c3 = 0)
    /\ 0 <= c0 <= c2 /\ c1 <= c3 <= 0.
Proof.
  split.
  - destruct coord as [ | c0 [ | c1 [ | c2 [ | c3 rest]]]]; simpl;
      try discriminate.
    destruct (feq c0 0 && feq c1 0 && feq c2 0 && feq c3 0) eqn:Ez;
      [discriminate | ].
    destruct (flt c0 0) eqn:E0; [discriminate | ].
    destruct (flt 0 c1) eqn:E1; [discriminate | ].
    destruct (flt c2 0) eqn:E2; [discriminate | ].
    destruct (flt 0 c3) eqn:E3; [discriminate | ].
    destruct (flt c2 c0) eqn:E4; [discriminate | ].
    destruct (flt c3 c1) eqn:E5; [discriminate | ].
    intros _. exists c0, c1, c2, c3, rest.
    apply flt_false_iff in E0, E1, E2, E3, E4, E5.
    split; [reflexivity | ]. split; [ | lra].
    intros (Z0 & Z1 & Z2 & Z3).
    rewrite (proj2 (feq_true_iff c0 0) Z0), (proj2 (feq_true_iff c1 0) Z1),
      (proj2 (feq_true_iff c2 0) Z2), (proj2 (feq_true_iff c3 0) Z3) in Ez.
    discriminate.
  - intros (c0 & c1 & c2 & c3 & rest & -> & Hz & H02 & H13). simpl.
    destruct (feq c0 0 && feq c1 0 && feq c2 0 && feq c3 0) eqn:Ez.
    { exfalso. apply Hz. rewrite !andb_true_iff, !feq_true_iff in Ez. tauto. }
    rewrite (flt_false c0 0), (flt_false 0 c1), (flt_false c2 0),
      (flt_false 0 c3), (flt_false c2 c0), (flt_false c3 c1) by lra.
    reflexivity.
Qed.

(** [coordCheck] accepts exactly the lists whose first four coordinates are
    not all zero, have latitudes that are not negative and longitudes that
    are not positive, and have the first corner not beyond the second in
    either axis; whatever follows the fourth coordinate is not looked at. *)
Theorem coordCheck_accepts (coord : list R) :
  coordCheck coord = None <->
  exists c0 c1 c2 c3 rest,
    coord = c0 :: c1 :: c2 :: c3 :: rest
    /\ ~ (c0 = 0 /\ c1 = 0 /\ c2 = 0 /\ c3 = 0)
    /\ 0 <= c0 <= c2 /\ c1 <= c3 <= 0.
Proof. exact (coordCheck_None_iff coord). Qed.

(** A box in the southern or in the eastern hemisphere is rejected, as is the
    box of four zeros and every list of fewer than four coordinates. *)
Theorem coordCheck_rejects (c0 c1 c2 c3 : R) (rest : list R) :
  (c0 < 0 \/ c2 < 0 \/ 0 < c1 \/ 0 < c3) ->
  coordCheck (c0 :: c1 :: c2 :: c3 :: rest) <> None
  /\ coordCheck (0 :: 0 :: 0 :: 0 :: rest) = Some ZeroCoordinates
  /\ coordCheck [c0; c1; c2] = Some RequiresFour.
Proof.
  intros H. split; [ | split; [ | reflexivity]].
  - intros Hacc. apply coordCheck_None_iff in Hacc.
    destruct Hacc as (d0 & d1 & d2 & d3 & r & E & _ & H02 & H13).
    inversion E; subst. lra.
  - simpl. rewrite (proj2 (feq_true_iff 0 0) eq_refl). reflexivity.
Qed.

Lemma coordCheck_rejects_witness :
  coordCheck (-33.9 :: 151.2 :: -33.8 :: 151.3 :: []) <> None
  /\ coordCheck (0 :: 0 :: 0 :: 0 :: []) = Some ZeroCoordinates
  /\ coordCheck [-33.9; 151.2; -33.8] = Some RequiresFour.
Proof.
  apply (coordCheck_rejects (-33.9) 151.2 (-33.8) 151.3 []). left. lra.
Defined.

(** ** Splitting and parsing coordinate strings *)

Lemma Split_length (s : string) (sep : ascii) :
  length (Split s sep) = S (count_char sep s).
Proof.
  induction s as [ | c s IH]; simpl; [reflexivity | ].
  destruct (Ascii.eqb c sep); simpl.
  - rewrite IH. reflexivity.
  - destruct (Split s sep) as [ | piece pieces]; simpl in *; [discriminate | ].
    exact IH.
Qed.

Lemma Split_no_separator (s : string) (sep : ascii) :
  count_char sep s = 0%nat -> Split s sep = [s].
Proof.
  induction s as [ | c s IH]; simpl; [reflexivity | ].
  destruct (Ascii.eqb c sep); simpl; [discriminate | ].
  intros H. rewrite IH by exact H. reflexivity.
Qed.

Lemma Split_first_field (a t : string) (sep : ascii) :
  count_char sep a = 0%nat ->
  Split (a ++ String sep t)%string sep = a :: Split t sep.
Proof.
  induction a as [ | c a IH]; simpl.
  - intros _. rewrite Ascii.eqb_refl. reflexivity.
  - destruct (Ascii.eqb c sep); simpl; [discriminate | ].
    intros H. rewrite IH by exact H. reflexivity.
Qed.

Lemma geos_from_spec (ParseFloat : string -> option R) (ss : list string) :
  forall i n,
    match geos_from ParseFloat i n ss with
    | inl ff => Forall2 (fun s f => ParseFloat s = Some f) ss ff
    | inr (j, n', s) =>
        n' = n /\ (i <= j)%nat
        /\ nth_error ss (j - i) = Some s /\ ParseFloat s = None
        /\ forall k s', (k < j - i)%nat -> nth_error ss k = Some s' ->
                        ParseFloat s' <> None
    end.
Proof.
  induction ss as [ | s rest IH]; intros i n; simpl; [constructor | ].
  destruct (ParseFloat s) as [f | ] eqn:Es.
  - specialize (IH (S i) n).
    destruct (geos_from ParseFloat (S i) n rest) as [ff | [[j n'] s']].
    + constructor; assumption.
    + destruct IH as (En & Hj & Hnth & Hfail & Hbefore).
      split; [exact En | ]. split; [lia | ].
      replace (j - i)%nat with (S (j - S i)) by lia. simpl.
      split; [exact Hnth | ]. split; [exact Hfail | ].
      intros k s'' Hk. destruct k as [ | k]; simpl.
      * intros H; inversion H; subst. congruence.
      * apply Hbefore. lia.
  - split; [reflexivity | ]. split; [lia | ].
    rewrite Nat.sub_diag. simpl. split; [reflexivity | ].
    split; [exact Es | ]. intros k s' Hk. lia.
Qed.

Lemma geos_spec (ParseFloat : string -> option R)
    (ss : list string) :
  match geos ParseFloat ss with
  | inl ff => Forall2 (fun s f => ParseFloat s = Some f) ss ff
  | inr (j, n, s) =>
      n = length ss /\ nth_error ss j = Some s /\ ParseFloat s = None
      /\ forall k s', (k < j)%nat -> nth_error ss k = Some s' ->
                      ParseFloat s' <> None
  end.
Proof.
  unfold geos. pose proof (geos_from_spec ParseFloat ss 0 (length ss)) as H.
  destruct (geos_from ParseFloat 0 (length ss) ss) as [ff | [[j n] s]];
    [exact H | ].
  rewrite Nat.sub_0_r in H. tauto.
Qed.

(** [geos] parses every field, in order, and on a failure reports the first
    field that does not parse, with its index and the field count. *)
Theorem geos_first_failure (ParseFloat : string -> option R)
    (ss : list string) :
  match geos ParseFloat ss with
  | inl ff => Forall2 (fun s f => ParseFloat s = Some f) ss ff
  | inr (j, n, s) =>
      n = length ss /\ nth_error ss j = Some s /\ ParseFloat s = None
      /\ forall k s', (k < j)%nat -> nth_error ss k = Some s' ->
                      ParseFloat s' <> None
  end.
Proof. exact (geos_spec ParseFloat ss). Qed.

(** When [Coords] succeeds it returns exactly four numbers, each parsed from
    the field of the same position (the comma fields if there are four of
    them, else the slash fields), and they form a box that [coordCheck]
    accepts. *)
Theorem Coords_success (ParseFloat : string -> option R) (query : string)
    (coords : list R) :
  Coords ParseFloat query = inl coords ->
  exists c0 c1 c2 c3,
    coords = [c0; c1; c2; c3]
    /\ Forall2 (fun s f => ParseFloat s = Some f)
         (if (count_char comma query =? 3)%nat then Split query comma
          else Split query slash) coords
    /\ ~ (c0 = 0 /\ c1 = 0 /\ c2 = 0 /\ c3 = 0)
    /\ 0 <= c0 <= c2 /\ c1 <= c3 <= 0.
Proof.
  unfold Coords. cbv zeta. rewrite (Split_length query comma).
  change (S (count_char comma query) =? 4)%nat
    with (count_char comma query =? 3)%nat.
  set (parts := if negb (count_char comma query =? 3)%nat
                then Split query slash else Split query comma).
  assert (Eparts : parts = if (count_char comma query =? 3)%nat
                           then Split query comma else Split query slash).
  { unfold parts. destruct (count_char comma query =? 3)%nat; reflexivity. }
  destruct (length parts =? 4)%nat eqn:Elen; simpl; [ | discriminate].
  apply Nat.eqb_eq in Elen.
  pose proof (geos_spec ParseFloat parts) as Hg.
  destruct (geos ParseFloat parts) as [ff | [[j n] s]]; [ | discriminate].
  destruct (coordCheck ff) as [e | ] eqn:Echeck; [discriminate | ].
  intros H; inversion H; subst coords. clear H.
  apply coordCheck_None_iff in Echeck.
  destruct Echeck as (c0 & c1 & c2 & c3 & rest & -> & Hz & H02 & H13).
  assert (Hlen : length (c0 :: c1 :: c2 :: c3 :: rest) = 4%nat).
  { rewrite <- Elen. symmetry. eapply Forall2_length. exact Hg. }
  destruct rest; [ | simpl in Hlen; lia].
  exists c0, c1, c2, c3. rewrite <- Eparts. auto.
Qed.

Lemma Coords_success_witness :
  exists c0 c1 c2 c3,
    [40; -74; 41; -73] = [c0; c1; c2; c3]
    /\ Forall2 (fun s f => parseWhole s = Some f)
         (if (count_char comma "40,-74,41,-73" =? 3)%nat
          then Split "40,-74,41,-73" comma
          else Split "40,-74,41,-73" slash) [40; -74; 41; -73]
    /\ ~ (c0 = 0 /\ c1 = 0 /\ c2 = 0 /\ c3 = 0)
    /\ 0 <= c0 <= c2 /\ c1 <= c3 <= 0.
Proof.
  apply (Coords_success parseWhole "40,-74,41,-73" [40; -74; 41; -73]).
  unfold Coords. cbv zeta.
  change (Split "40,-74,41,-73" comma) with ["40"; "-74"; "41"; "-73"]%string.
  cbn [length Nat.eqb negb].
  change (geos parseWhole ["40"; "-74"; "41"; "-73"]%string)
    with (@inl (list R) (nat * nat * string)
            [IZR 40; IZR (- (74)); IZR 41; IZR (- (73))]).
  cbv iota.
  assert (E : coordCheck [IZR 40; IZR (- (74)); IZR 41; IZR (- (73))] = None).
  { apply coordCheck_None_iff. exists 40, (-74), 41, (-73), [].
    split; [reflexivity | ]. split; [ | lra]. intros (H & _). lra. }
  rewrite E. reflexivity.
Defined.

(** A string that has neither exactly three commas nor exactly three slashes
    is refused with [ErrInvalidCoordinates], before any field is parsed. *)
Theorem Coords_field_count (ParseFloat : string -> option R) (query : string) :
  count_char comma query <> 3%nat -> count_char slash query <> 3%nat ->
  Coords ParseFloat query = inr ErrInvalidCoordinates.
Proof.
  intros Hc Hs. unfold Coords. cbv zeta. rewrite (Split_length query comma).
  replace (S (count_char comma query) =? 4)%nat with false
    by (symmetry; apply Nat.eqb_neq; lia).
  simpl negb. cbv iota. rewrite (Split_length query slash).
  replace (S (count_char slash query) =? 4)%nat with false
    by (symmetry; apply Nat.eqb_neq; lia).
  reflexivity.
Qed.

Lemma Coords_field_count_witness :
  Coords parseWhole "40,-74,41" = inr ErrInvalidCoordinates.
Proof.
  apply (Coords_field_count parseWhole "40,-74,41");
    vm_compute; discriminate.
Defined.

(** [QueryCoords] reads the first two comma fields and ignores whatever
    follows them: a string "a,b" and a string "a,b,anything" give the same
    pair. *)
Theorem QueryCoords_first_two_fields (ParseFloat : string -> option R)
    (a b rest : string) (lat lon : R) :
  count_char comma a = 0%nat -> count_char comma b = 0%nat ->
  ParseFloat a = Some lat -> ParseFloat b = Some lon ->
  QueryCoords ParseFloat (a ++ String comma b)%string = ((lat, lon), None)
  /\ QueryCoords ParseFloat (a ++ String comma (b ++ String comma rest))%string
     = ((lat, lon), None).
Proof.
  intros Ha Hb Pa Pb. unfold QueryCoords. cbv zeta.
  rewrite !Split_first_field by assumption.
  rewrite (Split_no_separator b comma Hb).
  split; simpl; rewrite Pa, Pb; reflexivity.
Qed.

Lemma QueryCoords_first_two_fields_witness :
  QueryCoords parseWhole ("37" ++ String comma "-122")%string
  = ((37, -122), None)
  /\ QueryCoords parseWhole
       ("37" ++ String comma ("-122" ++ String comma "x/y"))%string
     = ((37, -122), None).
Proof.
  apply (QueryCoords_first_two_fields parseWhole "37" "-122" "x/y" 37 (-122));
    reflexivity.
Defined.

(** A slash separates the fields only when the string has no comma: "a/b"
    gives the pair of a and b, but in "a/b,c" the first field is "a/b" as a
    whole. *)
Theorem QueryCoords_separators (ParseFloat : string -> option R)
    (a b c : string) (lat lon : R) :
  count_char comma a = 0%nat -> count_char comma b = 0%nat ->
  count_char slash a = 0%nat -> count_char slash b = 0%nat ->
  count_char comma c = 0%nat ->
  ParseFloat a = Some lat -> ParseFloat b = Some lon ->
  ParseFloat (a ++ String slash b)%string = None ->
  QueryCoords ParseFloat (a ++ String slash b)%string = ((lat, lon), None)
  /\ QueryCoords ParseFloat ((a ++ String slash b) ++ String comma c)%string
     = ((0, 0), Some (InvalidLatitude (a ++ String slash b)%string)).
Proof.
  intros Ha Hb Hsa Hsb Hc Pa Pb Pab.
  assert (Hab : count_char comma (a ++ String slash b)%string = 0%nat).
  { clear - Ha Hb. induction a as [ | x a IH]; simpl in *.
    - exact Hb.
    - destruct (Ascii.eqb x comma); [discriminate | ]. apply IH. exact Ha. }
  unfold QueryCoords. cbv zeta. split.
  - rewrite (Split_no_separator _ comma Hab). simpl.
    rewrite Split_first_field by exact Hsa.
    rewrite (Split_no_separator b slash Hsb). rewrite Pa, Pb. reflexivity.
  - rewrite Split_first_field by exact Hab.
    rewrite (Split_no_separator c comma Hc). simpl. rewrite Pab. reflexivity.
Qed.

Lemma QueryCoords_separators_witness :
  QueryCoords parseWhole ("37" ++ String slash "-122")%string
  = ((37, -122), None)
  /\ QueryCoords parseWhole
       (("37" ++ String slash "-122") ++ String comma "5")%string
     = ((0, 0), Some (InvalidLatitude ("37" ++ String slash "-122")%string)).
Proof.
  apply (QueryCoords_separators parseWhole "37" "-122" "5" 37 (-122));
    reflexivity.
Defined.

(** Whenever [QueryCoords] or [QueryPoint] returns an error, the pair or
    point it returns with it is zero; and [QueryPoint] returns the point of
    the pair, with the same error. *)
Theorem QueryPoint_of_QueryCoords (ParseFloat : string -> option R)
    (s : string) :
  QueryPoint ParseFloat s
  = ({| Lat := fst (fst (QueryCoords ParseFloat s));
        Lon := snd (fst (QueryCoords ParseFloat s)) |},
     snd (QueryCoords ParseFloat s))
  /\ (snd (QueryCoords ParseFloat s) = None
      \/ (fst (QueryCoords ParseFloat s) = (0, 0)
          /\ fst (QueryPoint ParseFloat s) = {| Lat := 0; Lon := 0 |})).
Proof.
  unfold QueryPoint.
  destruct (QueryCoords ParseFloat s) as [pt err] eqn:E. simpl.
  split; [reflexivity | ].
  revert E. unfold QueryCoords. cbv zeta.
  destruct (if (length (Split s comma) <? 2)%nat
            then Split s slash else Split s comma) as [ | p0 [ | p1 ps]];
    try (intros H; inversion H; subst; right; split; reflexivity).
  destruct (ParseFloat p0);
    try (intros H; inversion H; subst; right; split; reflexivity).
  destruct (ParseFloat p1);
    intros H; inversion H; subst; [left | right; split]; reflexivity.
Qed.

(** ** Decoding a pair *)

Lemma byte_val_range (b : Byte.byte) : (0 <= byte_val b < 256)%Z.
Proof. destruct b; vm_compute; split; congruence. Qed.

Lemma Uint64_Some (b : list Byte.byte) :
  Uint64 b <> None <-> (8 <= len b)%Z.
Proof.
  unfold len.
  destruct b as [ | b0 [ | b1 [ | b2 [ | b3 [ | b4 [ | b5 [ | b6 [ | b7 r]]]]]]]];
    simpl; split; intros H; try lia; try congruence; try discriminate.
Qed.

Lemma Uint64_firstn (b : list Byte.byte) (n : nat) :
  (8 <= n)%nat -> Uint64 (firstn n b) = Uint64 b.
Proof.
  intros Hn.
  do 8 (destruct n as [ | n]; [lia | ]).
  destruct b as [ | b0 [ | b1 [ | b2 [ | b3 [ | b4 [ | b5 [ | b6 [ | b7 r]]]]]]]];
    reflexivity.
Qed.

Lemma Uint64_base256 (b : list Byte.byte) (v : Z) :
  Uint64 b = Some v -> v = base256 (firstn 8 b).
Proof.
  destruct b as [ | b0 [ | b1 [ | b2 [ | b3 [ | b4 [ | b5 [ | b6 [ | b7 r]]]]]]]];
    intros H; cbn [Uint64] in H; try discriminate H.
  assert (E : Some v = Some (base256 (firstn 8
              (b0 :: b1 :: b2 :: b3 :: b4 :: b5 :: b6 :: b7 :: r)))).
  { rewrite <- H. f_equal. cbn [firstn base256]. ring. }
  congruence.
Qed.

Lemma base256_range (l : list Byte.byte) :
  (0 <= base256 l < 256 ^ len l)%Z.
Proof.
  unfold len. induction l as [ | b l IH]; cbn [base256 length].
  - simpl. lia.
  - rewrite Nat2Z.inj_succ, Z.pow_succ_r by lia.
    pose proof (byte_val_range b). lia.
Qed.

Lemma base256_digit (l : list Byte.byte) :
  forall i x,
    nth_error l i = Some x ->
    byte_val x = ((base256 l / 256 ^ Z.of_nat i) mod 256)%Z.
Proof.
  induction l as [ | b l IH]; intros i x; destruct i as [ | i]; simpl nth_error;
    try discriminate.
  - intros H; inversion H; subst x. cbn [base256].
    change (256 ^ Z.of_nat 0)%Z with 1%Z. rewrite Z.div_1_r.
    pose proof (byte_val_range b) as Hb.
    replace (byte_val b + 256 * base256 l)%Z
      with (byte_val b + base256 l * 256)%Z by lia.
    rewrite Z_mod_plus_full, Z.mod_small; lia.
  - intros H. rewrite (IH i x H). cbn [base256].
    rewrite Nat2Z.inj_succ, Z.pow_succ_r by lia.
    rewrite <- Z.div_div by lia.
    pose proof (byte_val_range b) as Hb.
    replace (byte_val b + 256 * base256 l)%Z
      with (byte_val b + base256 l * 256)%Z by lia.
    rewrite Z.div_add by lia. rewrite (Z.div_small (byte_val b)) by lia.
    reflexivity.
Qed.

(** [binary.LittleEndian.Uint64] is below 2^64 and puts the first byte in the
    lowest place: byte [i] of the slice is digit [i] of the value in base
    256. *)
Theorem Uint64_little_endian (b : list Byte.byte) (v : Z) (i : nat)
    (x : Byte.byte) :
  Uint64 b = Some v -> (i < 8)%nat -> nth_error b i = Some x ->
  (0 <= v < 2 ^ 64)%Z /\ byte_val x = ((v / 256 ^ Z.of_nat i) mod 256)%Z.
Proof.
  intros Hv Hi Hx.
  assert (Hlen : (8 <= len b)%Z) by (apply Uint64_Some; congruence).
  rewrite (Uint64_base256 b v Hv). split.
  - pose proof (base256_range (firstn 8 b)) as Hr.
    unfold len in *. rewrite length_firstn in Hr.
    replace (Nat.min 8 (length b)) with 8%nat in Hr by lia.
    change (256 ^ Z.of_nat 8)%Z with (2 ^ 64)%Z in Hr. exact Hr.
  - apply base256_digit. rewrite nth_error_firstn.
    replace (i <? 8)%nat with true by (symmetry; apply Nat.ltb_lt; lia).
    exact Hx.
Qed.

Lemma Uint64_little_endian_witness :
  (0 <= 513 < 2 ^ 64)%Z
  /\ byte_val Byte.x02 = ((513 / 256 ^ Z.of_nat 1) mod 256)%Z.
Proof.
  apply (Uint64_little_endian
           [Byte.x01; Byte.x02; Byte.x00; Byte.x00;
            Byte.x00; Byte.x00; Byte.x00; Byte.x00] 513 1 Byte.x02);
    [reflexivity | lia | reflexivity].
Defined.

Lemma slice_tail {A} (b : list A) (k : Z) :
  (0 <= k <= len b)%Z -> slice b k (len b) = Some (skipn (Z.to_nat k) b).
Proof.
  intros H. rewrite slice_Some by lia. f_equal.
  apply firstn_all2. rewrite length_skipn. unfold len. lia.
Qed.

Lemma DecodePair_unfold (Float64frombits : Z -> R) (buf : list Byte.byte) :
  DecodePair Float64frombits buf
  = match Uint64 buf with
    | None => None
    | Some latbits =>
        match Uint64 (skipn 8 buf) with
        | None => None
        | Some lonbits =>
            Some (Float64frombits latbits, Float64frombits lonbits)
        end
    end.
Proof.
  unfold DecodePair.
  destruct (Uint64 buf) as [latbits | ] eqn:E; [ | reflexivity].
  assert (Hlen : (8 <= len buf)%Z) by (apply Uint64_Some; congruence).
  rewrite slice_tail by lia. reflexivity.
Qed.

(** [DecodePair] panics exactly on a buffer of fewer than 16 bytes, and what
    it returns depends on the first 16 bytes only. *)
Theorem DecodePair_sixteen_bytes (Float64frombits : Z -> R)
    (buf : list Byte.byte) :
  (DecodePair Float64frombits buf = None <-> (len buf < 16)%Z)
  /\ DecodePair Float64frombits (firstn 16 buf)
     = DecodePair Float64frombits buf.
Proof.
  rewrite !DecodePair_unfold. split.
  - pose proof (Uint64_Some buf) as H1.
    pose proof (Uint64_Some (skipn 8 buf)) as H2.
    unfold len in *. rewrite length_skipn in H2.
    destruct (Uint64 buf) as [a | ].
    + destruct (Uint64 (skipn 8 buf)) as [b | ].
      * split; [discriminate | ]. intros H.
        assert (8 <= length buf - 8)%nat by (apply Nat2Z.inj_le, H2; discriminate).
        lia.
      * split; [ | reflexivity]. intros _.
        destruct (Z_lt_le_dec (Z.of_nat (length buf)) 16) as [ | Hge];
          [assumption | ].
        exfalso. apply (proj2 H2); [lia | reflexivity].
    + split; [ | reflexivity]. intros _.
      destruct (Z_lt_le_dec (Z.of_nat (length buf)) 8) as [ | Hge]; [lia | ].
      exfalso. apply (proj2 H1); [lia | reflexivity].
  - rewrite (Uint64_firstn buf 16) by lia.
    rewrite skipn_firstn_comm. change (16 - 8)%nat with 8%nat.
    rewrite (Uint64_firstn (skipn 8 buf) 8) by lia. reflexivity.
Qed.

(** The byte layout [DecodePair] reads: the latitude is the float of the
    64-bit pattern in bytes 0 to 7 and the longitude that of bytes 8 to 15,
    each least significant byte first; byte [i] of a field is digit [i] of
    its pattern in base 256. *)
Theorem DecodePair_layout (Float64frombits : Z -> R) (buf : list Byte.byte)
    (pair : Pair) :
  DecodePair Float64frombits buf = Some pair ->
  exists latbits lonbits,
    pair = (Float64frombits latbits, Float64frombits lonbits)
    /\ (0 <= latbits < 2 ^ 64)%Z /\ (0 <= lonbits < 2 ^ 64)%Z
    /\ forall (i : nat) (x : Byte.byte),
         (i < 8)%nat ->
         (nth_error buf i = Some x ->
          byte_val x = ((latbits / 256 ^ Z.of_nat i) mod 256)%Z)
         /\ (nth_error buf (8 + i) = Some x ->
             byte_val x = ((lonbits / 256 ^ Z.of_nat i) mod 256)%Z).
Proof.
  rewrite DecodePair_unfold.
  destruct (Uint64 buf) as [latbits | ] eqn:Elat; [ | discriminate].
  destruct (Uint64 (skipn 8 buf)) as [lonbits | ] eqn:Elon; [ | discriminate].
  intros E. exists latbits, lonbits.
  assert (Hlat8 : (8 <= len buf)%Z) by (apply Uint64_Some; congruence).
  assert (Hlon8 : (8 <= len (skipn 8 buf))%Z) by (apply Uint64_Some; congruence).
  destruct buf as [ | b0 buf0]; [discriminate | ].
  assert (Hb0 : nth_error (b0 :: buf0) 0 = Some b0) by reflexivity.
  destruct (skipn 8 (b0 :: buf0)) as [ | c0 rest] eqn:Eskip; [discriminate | ].
  assert (Hc0 : nth_error (c0 :: rest) 0 = Some c0) by reflexivity.
  split; [congruence | ].
  split; [exact (proj1 (Uint64_little_endian _ _ 0 b0 Elat ltac:(lia) Hb0)) | ].
  split; [exact (proj1 (Uint64_little_endian _ _ 0 c0 Elon ltac:(lia) Hc0)) | ].
  intros i x Hi. split; intros Hx.
  - exact (proj2 (Uint64_little_endian _ _ i x Elat Hi Hx)).
  - assert (Hx' : nth_error (c0 :: rest) i = Some x)
      by (rewrite <- Eskip, nth_error_skipn; exact Hx).
    exact (proj2 (Uint64_little_endian _ _ i x Elon Hi Hx')).
Qed.

Lemma DecodePair_layout_witness :
  exists latbits lonbits,
    (IZR 513, IZR 7) = (IZR latbits, IZR lonbits)
    /\ (0 <= latbits < 2 ^ 64)%Z /\ (0 <= lonbits < 2 ^ 64)%Z
    /\ forall (i : nat) (x : Byte.byte),
         (i < 8)%nat ->
         (nth_error [Byte.x01; Byte.x02; Byte.x00; Byte.x00;
                     Byte.x00; Byte.x00; Byte.x00; Byte.x00;
                     Byte.x07; Byte.x00; Byte.x00; Byte.x00;
                     Byte.x00; Byte.x00; Byte.x00; Byte.x00] i = Some x ->
          byte_val x = ((latbits / 256 ^ Z.of_nat i) mod 256)%Z)
         /\ (nth_error [Byte.x01; Byte.x02; Byte.x00; Byte.x00;
                        Byte.x00; Byte.x00; Byte.x00; Byte.x00;
                        Byte.x07; Byte.x00; Byte.x00; Byte.x00;
                        Byte.x00; Byte.x00; Byte.x00; Byte.x00] (8 + i)
             = Some x ->
             byte_val x = ((lonbits / 256 ^ Z.of_nat i) mod 256)%Z).
Proof.
  apply (DecodePair_layout IZR
           [Byte.x01; Byte.x02; Byte.x00; Byte.x00;
            Byte.x00; Byte.x00; Byte.x00; Byte.x00;
            Byte.x07; Byte.x00; Byte.x00; Byte.x00;
            Byte.x00; Byte.x00; Byte.x00; Byte.x00] (IZR 513, IZR 7)).
  reflexivity.
Defined.

(** ** Reading at an offset *)

Lemma copy_spec {A} (dst src : list A) :
  snd (copy dst src) = Z.min (len dst) (len src)
  /\ len (fst (copy dst src)) = len dst
  /\ firstn (Z.to_nat (snd (copy dst src))) (fst (copy dst src))
     = firstn (Z.to_nat (snd (copy dst src))) src
  /\ skipn (Z.to_nat (snd (copy dst src))) (fst (copy dst src))
     = skipn (Z.to_nat (snd (copy dst src))) dst.
Proof.
  unfold copy, len. cbv zeta. simpl fst. simpl snd.
  set (n := Z.to_nat (Z.min (Z.of_nat (length dst)) (Z.of_nat (length src)))).
  assert (Hn : (n <= length dst)%nat /\ (n <= length src)%nat)
    by (unfold n; lia).
  assert (Hl : length (firstn n src) = n)
    by (rewrite length_firstn; lia).
  split; [reflexivity | ]. split; [ | split].
  - rewrite length_app, Hl, length_skipn. lia.
  - rewrite firstn_app, Hl, Nat.sub_diag. simpl. rewrite app_nil_r.
    apply firstn_all2. lia.
  - rewrite skipn_app, Hl, Nat.sub_diag. simpl.
    rewrite skipn_all2 by lia. reflexivity.
Qed.

(** [ReadAt] at an offset inside the buffer (its end included) copies
    [min(len(p), len(B) - i)] bytes from that offset to the front of [p],
    leaves the rest of [p] as it was, and returns the count with a nil
    error, also when the count is 0. *)
Theorem ReadAt_copies (mB p : list Byte.byte) (i : Z) :
  (0 <= i <= len mB)%Z ->
  exists p' n,
    ReadAt mB p i = Ret (p', n, None)
    /\ n = Z.min (len p) (len mB - i)
    /\ len p' = len p
    /\ firstn (Z.to_nat n) p' = firstn (Z.to_nat n) (skipn (Z.to_nat i) mB)
    /\ skipn (Z.to_nat n) p' = skipn (Z.to_nat n) p.
Proof.
  intros Hi. unfold ReadAt.
  replace (len mB <? i)%Z with false by (symmetry; apply Z.ltb_ge; lia).
  rewrite slice_tail by exact Hi.
  pose proof (copy_spec p (skipn (Z.to_nat i) mB)) as (Hn & Hlen & Hfst & Hsnd).
  destruct (copy p (skipn (Z.to_nat i) mB)) as [p' n].
  cbn [fst snd] in *.
  exists p', n. split; [reflexivity | ]. split; [ | auto].
  rewrite Hn. unfold len in *. rewrite length_skipn. lia.
Qed.

Lemma ReadAt_copies_witness :
  exists p' n,
    ReadAt [Byte.x01; Byte.x02; Byte.x03] [Byte.x00; Byte.x00; Byte.x00] 2
    = Ret (p', n, None)
    /\ n = Z.min (len [Byte.x00; Byte.x00; Byte.x00])
             (len [Byte.x01; Byte.x02; Byte.x03] - 2)
    /\ len p' = len [Byte.x00; Byte.x00; Byte.x00]
    /\ firstn (Z.to_nat n) p'
       = firstn (Z.to_nat n) (skipn (Z.to_nat 2) [Byte.x01; Byte.x02; Byte.x03])
    /\ skipn (Z.to_nat n) p' = skipn (Z.to_nat n) [Byte.x00; Byte.x00; Byte.x00].
Proof.
  apply (ReadAt_copies [Byte.x01; Byte.x02; Byte.x03]
           [Byte.x00; Byte.x00; Byte.x00] 2).
  vm_compute. split; discriminate.
Defined.

(** [ReadAt] beyond the end of the buffer returns 0 and an error and leaves
    [p] alone; at a negative offset it panics. *)
Theorem ReadAt_out_of_range (mB p : list Byte.byte) (i : Z) :
  (i < 0 \/ len mB < i)%Z ->
  ReadAt mB p i
  = if (i <? 0)%Z then Panic else Ret (p, 0%Z, Some IndexExceedsFileSize).
Proof.
  intros H. unfold ReadAt. pose proof (len_nonneg mB) as Hl.
  destruct (len mB <? i)%Z eqn:E.
  - apply Z.ltb_lt in E.
    replace (i <? 0)%Z with false by (symmetry; apply Z.ltb_ge; lia).
    reflexivity.
  - apply Z.ltb_ge in E.
    replace (i <? 0)%Z with true by (symmetry; apply Z.ltb_lt; lia).
    destruct (slice mB i (len mB)) eqn:Es; [ | reflexivity].
    apply slice_Some_inv in Es. lia.
Qed.

Lemma ReadAt_out_of_range_witness :
  ReadAt [Byte.x01; Byte.x02] [Byte.x00] 3
  = if (3 <? 0)%Z then Panic else Ret ([Byte.x00], 0%Z, Some IndexExceedsFileSize).
Proof.
  apply (ReadAt_out_of_range [Byte.x01; Byte.x02] [Byte.x00] 3).
  right. vm_compute. reflexivity.
Defined.

(** ** What the searches read and return *)

Lemma search_loop_trace {E} (P : E -> Prop) (f : Z -> M E bool) (lo hi : Z)
    (fuel : nat) :
  (forall h, (lo <= h < hi)%Z -> Forall P (fst (f h))) ->
  forall i j, (lo <= i)%Z -> (j <= hi)%Z ->
    Forall P (fst (search_loop fuel f i j)).
Proof.
  intros Hf. induction fuel as [ | fuel IH]; intros i j Hi Hj; simpl;
    destruct (i <? j)%Z eqn:Elt; simpl; try constructor.
  apply Z.ltb_lt in Elt.
  assert (Hh : (i <= (i + j) / 2 < j)%Z).
  { split; [apply Z.div_le_lower_bound | apply Z.div_lt_upper_bound]; lia. }
  rewrite fst_bind. apply Forall_app. split; [apply Hf; lia | ].
  destruct (snd (f ((i + j) / 2)%Z)) as [[ | ] | | ]; simpl;
    try constructor; apply IH; lia.
Qed.

Lemma search_loop_no_panic {E} (f : Z -> M E bool) (lo hi : Z) (fuel : nat) :
  (forall h, (lo <= h < hi)%Z -> snd (f h) <> Panic) ->
  forall i j, (lo <= i)%Z -> (j <= hi)%Z ->
    snd (search_loop fuel f i j) <> Panic.
Proof.
  intros Hf. induction fuel as [ | fuel IH]; intros i j Hi Hj; simpl;
    destruct (i <? j)%Z eqn:Elt; simpl; try discriminate.
  apply Z.ltb_lt in Elt.
  assert (Hh : (i <= (i + j) / 2 < j)%Z).
  { split; [apply Z.div_le_lower_bound | apply Z.div_lt_upper_bound]; lia. }
  rewrite snd_bind. specialize (Hf ((i + j) / 2)%Z).
  destruct (snd (f ((i + j) / 2)%Z)) as [[ | ] | | ]; simpl;
    try discriminate; try (apply IH; lia).
  intros _. apply Hf; [lia | reflexivity].
Qed.

Lemma for_loop_trace {E S} (P : E -> Prop) (cond : Z -> bool) (next : Z -> Z)
    (body : Z -> S -> M E (step S)) (J : Z -> Prop) :
  (forall i, J i -> cond i = true -> J (next i)) ->
  (forall i s, J i -> cond i = true -> Forall P (fst (body i s))) ->
  forall fuel i s, J i -> Forall P (fst (for_loop fuel cond next body i s)).
Proof.
  intros HJ Hb. induction fuel as [ | fuel IH]; intros i s Hi; simpl;
    destruct (cond i) eqn:Ec; simpl; try constructor.
  rewrite fst_bind. apply Forall_app. split; [apply Hb; assumption | ].
  destruct (snd (body i s)) as [[s' | s'] | | ]; simpl; try constructor.
  apply IH. apply HJ; assumption.
Qed.

Lemma for_loop_no_panic {E S} (cond : Z -> bool) (next : Z -> Z)
    (body : Z -> S -> M E (step S)) (J : Z -> Prop) :
  (forall i, J i -> cond i = true -> J (next i)) ->
  (forall i s, J i -> cond i = true -> snd (body i s) <> Panic) ->
  forall fuel i s, J i -> snd (for_loop fuel cond next body i s) <> Panic.
Proof.
  intros HJ Hb. induction fuel as [ | fuel IH]; intros i s Hi; simpl;
    destruct (cond i) eqn:Ec; simpl; try discriminate.
  rewrite snd_bind. pose proof (Hb i s Hi Ec) as Hn.
  destruct (snd (body i s)) as [[s' | s'] | | ]; simpl; try discriminate;
    try contradiction.
  apply IH. apply HJ; assumption.
Qed.

Ltac inb H := repeat (apply Forall_cons; [exact H | ]); apply Forall_nil.

Lemma backward_trace (metric : Point -> Point -> option R) (g : GeoPoints)
    (pt : Point) (k : R) (i : Z) (s : vars) :
  (0 <= i < Len g)%Z -> Forall (in_bounds g) (fst (backward metric g pt k i s)).
Proof.
  intros Hi. unfold backward, read, measure. simpl.
  destruct (IndexPoint g i) as [this | ]; simpl;
    [ | inb Hi].
  destruct (flt (Lat this) (minLat s)); simpl;
    [inb Hi | ].
  destruct (lonOutside pt (deltaLon s) (Lon this)); simpl;
    [inb Hi | ].
  destruct (metric pt this) as [dist | ]; simpl;
    [ | inb Hi].
  destruct (flt dist (closest s)); simpl; inb Hi.
Qed.

Lemma forward_trace (metric : Point -> Point -> option R) (g : GeoPoints)
    (pt : Point) (i : Z) (ms : R * vars) :
  (0 <= i < Len g)%Z -> Forall (in_bounds g) (fst (forward metric g pt i ms)).
Proof.
  intros Hi. destruct ms as [maxLat s]. unfold forward, read, measure. simpl.
  destruct (IndexPoint g i) as [this | ]; simpl;
    [ | inb Hi].
  destruct (flt maxLat (Lat this)); simpl;
    [inb Hi | ].
  destruct (lonOutside pt (deltaLon s) (Lon this)); simpl;
    [inb Hi | ].
  destruct (metric this pt) as [dist | ]; simpl;
    [ | inb Hi].
  destruct (flt dist (closest s)); simpl; inb Hi.
Qed.

Lemma scans_trace (metric : Point -> Point -> option R) (g : GeoPoints)
    (pt : Point) (k : R) (x : Z) (s0 : vars) :
  (0 <= x <= Len g)%Z ->
  Forall (in_bounds g) (fst (scans metric g pt k x s0)).
Proof.
  intros Hx. unfold scans. rewrite fst_bind. apply Forall_app. split.
  - apply (for_loop_trace (in_bounds g) (fun i => (0 <? i)%Z) Z.pred
             (backward metric g pt k) (fun i => (i < Len g)%Z)).
    + intros i Hi _. lia.
    + intros i s Hi Hc. apply Z.ltb_lt in Hc. apply backward_trace. lia.
    + lia.
  - destruct (snd (for_loop (Z.to_nat x) _ Z.pred _ (x - 1)%Z s0))
      as [s | | ]; try constructor.
    apply (for_loop_trace (in_bounds g) (fun i => (i <? Len g)%Z) Z.succ
             (forward metric g pt) (fun i => (0 <= i)%Z)).
    + intros i Hi _. lia.
    + intros i s' Hi Hc. apply Z.ltb_lt in Hc. apply forward_trace. lia.
    + lia.
Qed.

Lemma seed_trace (g : GeoPoints) (pt : Point) :
  Forall (in_bounds g) (fst (seed g pt)).
Proof.
  unfold seed, sort_Search.
  apply (search_loop_trace (in_bounds g) _ 0 (Len g)); try lia.
  intros h Hh. rewrite fst_bind. apply Forall_app. split.
  - unfold read. simpl. destruct (IndexPoint g h); inb Hh.
  - destruct (snd (read g h)); constructor.
Qed.

Lemma seed_range (g : GeoPoints) (pt : Point) (x : Z) :
  (0 <= Len g)%Z -> snd (seed g pt) = Ret x -> (0 <= x <= Len g)%Z.
Proof.
  intros Hlen H. unfold seed, sort_Search in H.
  apply search_loop_range in H; lia.
Qed.

(** Both searches only ever ask for indices of the sequence: every read and
    every measurement is at an index from 0 up to the length, excluded. *)
Theorem searches_stay_in_bounds (g : GeoPoints) (pt : Point) (deltaKm : R) :
  (0 <= Len g)%Z ->
  Forall (in_bounds g) (trace (Bestest g pt deltaKm))
  /\ Forall (in_bounds g) (trace (Closest g pt deltaKm)).
Proof.
  intros Hlen. unfold trace, Bestest, Closest. rewrite !fst_bind.
  pose proof (seed_trace g pt) as Hseed.
  pose proof (seed_range g pt) as Hrange.
  destruct (snd (seed g pt)) as [x | | ];
    [ | split; apply Forall_app; split; auto | split; apply Forall_app; split; auto ].
  specialize (Hrange x Hlen eq_refl).
  destruct (x =? Len g)%Z eqn:Ex;
    [split; apply Forall_app; split; auto; constructor | ].
  apply Z.eqb_neq in Ex.
  assert (Hx : (0 <= x < Len g)%Z) by lia.
  split; apply Forall_app; (split; [exact Hseed | ]); rewrite fst_bind;
    apply Forall_app.
  - split.
    + unfold Bestest_vars. rewrite fst_bind. apply Forall_app. split.
      { unfold read. simpl. destruct (IndexPoint g x); inb Hx. }
      destruct (snd (read g x)) as [this | | ]; try constructor.
      rewrite fst_bind. apply Forall_app. split.
      { unfold measure, Point_Distance. simpl. inb Hx. }
      destruct (snd (measure x (Point_Distance this pt))) as [dist | | ];
        try constructor.
      destruct (flt dist (deltaKm + 0.0001)); rewrite fst_bind;
        (apply Forall_app; split; [apply scans_trace; lia | ]);
        match goal with
        | |- context [snd ?m] => destruct (snd m); constructor
        end.
    + destruct (snd (Bestest_vars g pt deltaKm x)); constructor.
  - split.
    + unfold Closest_vars. rewrite fst_bind. apply Forall_app. split.
      { unfold read. simpl. destruct (IndexPoint g x); inb Hx. }
      destruct (snd (read g x)) as [this | | ]; try constructor.
      rewrite fst_bind. apply Forall_app. split.
      { unfold measure. simpl. destruct (Approximately this pt);
          inb Hx. }
      destruct (snd (measure x (Approximately this pt))) as [dist | | ];
        try constructor.
      rewrite fst_bind. apply Forall_app. split.
      { destruct (LookupLonKmPerLat (Lat pt)); constructor. }
      destruct (snd (lift (LookupLonKmPerLat (Lat pt)))) as [lonKm | | ];
        try constructor.
      rewrite fst_bind.
      apply Forall_app; split; [apply scans_trace; lia | ].
      match goal with
      | |- context [snd ?m] => destruct (snd m); constructor
      end.
    + destruct (snd (Closest_vars g pt deltaKm x)); constructor.
Qed.

Lemma searches_stay_in_bounds_witness :
  Forall (in_bounds (slicePoints [mkPoint 0 0; mkPoint 10 0]))
    (trace (Bestest (slicePoints [mkPoint 0 0; mkPoint 10 0]) (mkPoint 0 0) 1))
  /\ Forall (in_bounds (slicePoints [mkPoint 0 0; mkPoint 10 0]))
       (trace (Closest (slicePoints [mkPoint 0 0; mkPoint 10 0]) (mkPoint 0 0) 1)).
Proof.
  apply (searches_stay_in_bounds (slicePoints [mkPoint 0 0; mkPoint 10 0])
           (mkPoint 0 0) 1).
  vm_compute. discriminate.
Defined.

Lemma read_no_panic (g : GeoPoints) (i : Z) :
  IndexPoint g i <> None -> snd (read g i) <> Panic.
Proof.
  intros H. unfold read. simpl.
  destruct (IndexPoint g i); simpl; [discriminate | contradiction].
Qed.

Lemma backward_no_panic (metric : Point -> Point -> option R) (g : GeoPoints)
    (pt : Point) (k : R) (i : Z) (s : vars) :
  IndexPoint g i <> None ->
  (forall this, IndexPoint g i = Some this -> metric pt this <> None) ->
  snd (backward metric g pt k i s) <> Panic.
Proof.
  intros Hi Hm. unfold backward, read, measure. simpl.
  destruct (IndexPoint g i) as [this | ]; simpl; [ | contradiction].
  destruct (flt (Lat this) (minLat s)); simpl; [discriminate | ].
  destruct (lonOutside pt (deltaLon s) (Lon this)); simpl; [discriminate | ].
  specialize (Hm this eq_refl).
  destruct (metric pt this) as [dist | ]; simpl; [ | contradiction].
  destruct (flt dist (closest s)); simpl; discriminate.
Qed.

Lemma forward_no_panic (metric : Point -> Point -> option R) (g : GeoPoints)
    (pt : Point) (i : Z) (ms : R * vars) :
  IndexPoint g i <> None ->
  (forall this, IndexPoint g i = Some this -> metric this pt <> None) ->
  snd (forward metric g pt i ms) <> Panic.
Proof.
  intros Hi Hm. destruct ms as [maxLat s]. unfold forward, read, measure. simpl.
  destruct (IndexPoint g i) as [this | ]; simpl; [ | contradiction].
  destruct (flt maxLat (Lat this)); simpl; [discriminate | ].
  destruct (lonOutside pt (deltaLon s) (Lon this)); simpl; [discriminate | ].
  specialize (Hm this eq_refl).
  destruct (metric this pt) as [dist | ]; simpl; [ | contradiction].
  destruct (flt dist (closest s)); simpl; discriminate.
Qed.

Lemma scans_no_panic (metric : Point -> Point -> option R) (g : GeoPoints)
    (pt : Point) (k : R) (x : Z) (s0 : vars) :
  (0 <= x <= Len g)%Z ->
  (forall i, (0 <= i < Len g)%Z -> IndexPoint g i <> None) ->
  (forall i this, IndexPoint g i = Some this ->
                  metric pt this <> None /\ metric this pt <> None) ->
  snd (scans metric g pt k x s0) <> Panic.
Proof.
  intros Hx Htot Hm. unfold scans. rewrite snd_bind.
  assert (Hb : snd (for_loop (Z.to_nat x) (fun i => (0 <? i)%Z) Z.pred
                      (backward metric g pt k) (x - 1)%Z s0) <> Panic).
  { apply (for_loop_no_panic (fun i => (0 <? i)%Z) Z.pred
             (backward metric g pt k) (fun i => (i < Len g)%Z)).
    - intros i Hi _. lia.
    - intros i s Hi Hc. apply Z.ltb_lt in Hc. apply backward_no_panic.
      + apply Htot. lia.
      + intros this Hthis. apply (Hm i this Hthis).
    - lia. }
  destruct (snd (for_loop (Z.to_nat x) _ Z.pred _ (x - 1)%Z s0)) as [s | | ];
    try discriminate; try contradiction.
  apply (for_loop_no_panic (fun i => (i <? Len g)%Z) Z.succ
           (forward metric g pt) (fun i => (0 <= i)%Z)).
  - intros i Hi _. lia.
  - intros i s' Hi Hc. apply Z.ltb_lt in Hc. apply forward_no_panic.
    + apply Htot. lia.
    + intros this Hthis. apply (Hm i this Hthis).
  - lia.
Qed.

Lemma seed_no_panic (g : GeoPoints) (pt : Point) :
  (forall i, (0 <= i < Len g)%Z -> IndexPoint g i <> None) ->
  snd (seed g pt) <> Panic.
Proof.
  intros Htot. unfold seed, sort_Search.
  apply (search_loop_no_panic _ 0 (Len g)); try lia.
  intros h Hh. rewrite snd_bind.
  pose proof (read_no_panic g h (Htot h Hh)) as Hr.
  destruct (snd (read g h)); simpl; try discriminate; contradiction.
Qed.

Lemma read_Ret (g : GeoPoints) (i : Z) (p : Point) :
  snd (read g i) = Ret p -> IndexPoint g i = Some p.
Proof.
  unfold read. simpl. destruct (IndexPoint g i); simpl; intros H;
    inversion H; reflexivity.
Qed.

Lemma measure_Ret (i : Z) (o : option R) (dist : R) :
  snd (measure i o) = Ret dist -> o = Some dist.
Proof.
  unfold measure. simpl. destruct o; simpl; intros H; inversion H; reflexivity.
Qed.

Lemma outcome_is_Ret {A} (o : outcome A) :
  o <> Panic -> o <> OutOfFuel -> exists a, o = Ret a.
Proof. destruct o; intros; try contradiction; eauto. Qed.

(** Over a sequence that answers every index below its length, [Bestest]
    never panics: it always returns a pair. *)
Theorem Bestest_returns (g : GeoPoints) (pt : Point) (deltaKm : R) :
  (0 <= Len g)%Z ->
  (forall i, (0 <= i < Len g)%Z -> IndexPoint g i <> None) ->
  exists i dist, result (Bestest g pt deltaKm) = Ret (i, dist).
Proof.
  intros Hlen Htot.
  destruct (outcome_is_Ret (result (Bestest g pt deltaKm))) as [[i dist] H];
    [ | apply searches_end | exists i, dist; exact H ].
  unfold result, Bestest. rewrite snd_bind.
  pose proof (seed_no_panic g pt Htot) as Hseed.
  pose proof (seed_range g pt) as Hrange.
  destruct (snd (seed g pt)) as [x | | ]; try discriminate; try contradiction.
  specialize (Hrange x Hlen eq_refl).
  destruct (x =? Len g)%Z eqn:Ex; [discriminate | ].
  apply Z.eqb_neq in Ex. rewrite snd_bind.
  assert (Hv : snd (Bestest_vars g pt deltaKm x) <> Panic).
  { unfold Bestest_vars. rewrite snd_bind.
    pose proof (read_no_panic g x (Htot x ltac:(lia))) as Hr.
    destruct (snd (read g x)) as [this | | ]; try discriminate; try contradiction.
    rewrite snd_bind. unfold measure at 1, Point_Distance at 1. simpl.
    destruct (flt _ (deltaKm + 0.0001)); rewrite snd_bind;
      match goal with
      | |- context [scans ?mt ?g ?pt ?k ?x ?s] =>
          assert (Hs : snd (scans mt g pt k x s) <> Panic)
            by (apply scans_no_panic;
                [lia | exact Htot | intros; split; discriminate]);
          destruct (snd (scans mt g pt k x s)); simpl; try discriminate;
          contradiction
      end. }
  destruct (snd (Bestest_vars g pt deltaKm x)); simpl;
    try discriminate; contradiction.
Qed.

Lemma Bestest_returns_witness :
  exists i dist,
    result (Bestest (slicePoints [mkPoint 0 0; mkPoint 10 0]) (mkPoint 0 0) 1)
    = Ret (i, dist).
Proof.
  apply (Bestest_returns (slicePoints [mkPoint 0 0; mkPoint 10 0])
           (mkPoint 0 0) 1).
  - vm_compute. discriminate.
  - intros i Hi. simpl in Hi.
    assert (Hc : i = 0%Z \/ i = 1%Z) by lia.
    destruct Hc as [-> | ->]; discriminate.
Defined.

(** [Closest] panics on every query at a latitude of -0.1 degrees or below,
    as soon as the sequence has a point greater than the query: the table
    has no entry for the query's latitude. *)
Theorem Closest_panics_south (g : GeoPoints) (pt : Point) (deltaKm : R)
    (x : Z) :
  result (seed g pt) = Ret x -> x <> Len g -> Lat pt <= -0.1 ->
  result (Closest g pt deltaKm) = Panic.
Proof.
  unfold result. intros Hseed Hx Hlat. unfold Closest. rewrite snd_bind, Hseed.
  replace (x =? Len g)%Z with false by (symmetry; apply Z.eqb_neq; exact Hx).
  rewrite snd_bind. unfold Closest_vars. rewrite snd_bind.
  destruct (snd (read g x)) as [this | | ] eqn:Er; try reflexivity.
  - rewrite snd_bind.
    destruct (snd (measure x (Approximately this pt))) as [dist | | ] eqn:Em;
      try reflexivity.
    + rewrite snd_bind.
      rewrite (LookupLonKmPerLat_below_panics (Lat pt) Hlat). reflexivity.
    + exfalso. revert Em. apply measure_ends.
  - exfalso. revert Er. apply read_ends.
Qed.

Lemma Closest_panics_south_witness :
  result (Closest (slicePoints [mkPoint 1 1]) (mkPoint (-34) 151) 50) = Panic.
Proof.
  apply (Closest_panics_south (slicePoints [mkPoint 1 1]) (mkPoint (-34) 151)
           50 0).
  - unfold result, seed, sort_Search. mstep.
    rewrite search_loop_step by lia. zfold.
    erewrite read_slice by reflexivity. mstep.
    replace (Less (mkPoint (-34) 151) (mkPoint 1 1)) with true
      by (symmetry; apply Less_true_iff; simpl; lra).
    mstep. rewrite search_loop_stop by lia. reflexivity.
  - vm_compute. discriminate.
  - simpl. lra.
Defined.

(** The scans keep any property of the variables that every improvement
    keeps. *)
Lemma scans_invariant (metric : Point -> Point -> option R) (g : GeoPoints)
    (pt : Point) (k : R) (x : Z) (s0 : vars) (I : vars -> Prop)
    (ms : R * vars) :
  (forall i this dist s,
      (0 < i < x)%Z -> IndexPoint g i = Some this ->
      metric pt this = Some dist -> dist < closest s -> I s ->
      I {| closest := dist; best := i;
           minLat := Lat pt - dist / DegreeToKilometer;
           deltaLon := dist / k |}) ->
  (forall i this dist s,
      (x < i < Len g)%Z -> IndexPoint g i = Some this ->
      metric this pt = Some dist -> dist < closest s -> I s ->
      I {| closest := dist; best := i;
           minLat := minLat s; deltaLon := deltaLon s |}) ->
  I s0 -> snd (scans metric g pt k x s0) = Ret ms -> I (snd ms).
Proof.
  intros Hback Hfwd H0. unfold scans. rewrite snd_bind.
  destruct (snd (for_loop (Z.to_nat x) _ Z.pred _ (x - 1)%Z s0))
    as [s | | ] eqn:Eb; try discriminate.
  assert (Hs : I s).
  { revert Eb.
    apply (for_loop_invariant (fun i => (0 <? i)%Z) Z.pred
             (backward metric g pt k) (fun i => (i < x)%Z) I);
      [ intros; lia | | lia | exact H0 ].
    intros i s1 r Hi Hc Hs1. apply Z.ltb_lt in Hc.
    unfold backward, read, measure. simpl.
    destruct (IndexPoint g i) as [this | ] eqn:Ei; simpl; [ | discriminate].
    destruct (flt (Lat this) (minLat s1)); simpl.
    { intros H; inversion H; subst; exact Hs1. }
    destruct (lonOutside pt (deltaLon s1) (Lon this)); simpl.
    { intros H; inversion H; subst; exact Hs1. }
    destruct (metric pt this) as [dist | ] eqn:Em; simpl; [ | discriminate].
    destruct (flt dist (closest s1)) eqn:Ed; simpl; intros H; inversion H;
      subst; [ | exact Hs1].
    apply flt_true_iff in Ed. apply (Hback i this dist s1); auto; lia. }
  apply (for_loop_invariant (fun i => (i <? Len g)%Z) Z.succ
           (forward metric g pt) (fun i => (x < i)%Z)
           (fun ms => I (snd ms)));
    [ intros; lia | | lia | exact Hs ].
  intros i [m1 s1] r Hi Hc Hs1. apply Z.ltb_lt in Hc.
  unfold forward, read, measure. simpl in *.
  destruct (IndexPoint g i) as [this | ] eqn:Ei; simpl; [ | discriminate].
  destruct (flt m1 (Lat this)); simpl.
  { intros H; inversion H; subst; exact Hs1. }
  destruct (lonOutside pt (deltaLon s1) (Lon this)); simpl.
  { intros H; inversion H; subst; exact Hs1. }
  destruct (metric this pt) as [dist | ] eqn:Em; simpl; [ | discriminate].
  destruct (flt dist (closest s1)) eqn:Ed; simpl; intros H; inversion H;
    subst; [ | exact Hs1].
  apply flt_true_iff in Ed. simpl. apply (Hfwd i this dist s1); auto; lia.
Qed.

(** What [Bestest] returns is either "not found", the length as index, or
    the index of a point of the sequence together with the exact distance
    from that point to the query, which is then less than
    [deltaKm + 0.0001]. *)
Theorem Bestest_sound (g : GeoPoints) (pt : Point) (deltaKm : R)
    (i : Z) (dist : R) :
  (0 <= Len g)%Z ->
  result (Bestest g pt deltaKm) = Ret (i, dist) ->
  (i = Len g /\ (dist = -1 \/ dist = deltaKm + 0.0001))
  \/ ((0 <= i < Len g)%Z
      /\ exists p, IndexPoint g i = Some p
                   /\ dist = Distance (Lat p) (Lon p) (Lat pt) (Lon pt)
                   /\ dist < deltaKm + 0.0001).
Proof.
  intros Hlen. unfold result, Bestest. rewrite snd_bind.
  pose proof (seed_range g pt) as Hrange.
  destruct (snd (seed g pt)) as [x | | ]; try discriminate.
  specialize (Hrange x Hlen eq_refl).
  destruct (x =? Len g)%Z eqn:Ex.
  { apply Z.eqb_eq in Ex. simpl. intros H; inversion H; subst. left. auto. }
  apply Z.eqb_neq in Ex. rewrite snd_bind.
  destruct (snd (Bestest_vars g pt deltaKm x)) as [[k ms] | | ] eqn:Ev;
    try discriminate.
  simpl. intros H; inversion H as [[Hbest Hdist]]. clear H.
  set (I := fun s : vars =>
    (best s = Len g /\ closest s = deltaKm + 0.0001)
    \/ ((0 <= best s < Len g)%Z
        /\ exists p, IndexPoint g (best s) = Some p
                     /\ closest s = Distance (Lat p) (Lon p) (Lat pt) (Lon pt)
                     /\ closest s < deltaKm + 0.0001)).
  assert (Hle : forall s, I s -> closest s <= deltaKm + 0.0001).
  { intros s [[_ E] | [_ (p & _ & _ & E)]]; lra. }
  assert (HI : I (snd ms)).
  { revert Ev. unfold Bestest_vars. rewrite snd_bind.
    destruct (snd (read g x)) as [this | | ] eqn:Er; try discriminate.
    apply read_Ret in Er. rewrite snd_bind.
    destruct (snd (measure x (Point_Distance this pt))) as [d0 | | ] eqn:Em;
      try discriminate.
    apply measure_Ret in Em. unfold Point_Distance, DistanceGeoType in Em.
    assert (Hd0 : d0 = Distance (Lat this) (Lon this) (Lat pt) (Lon pt))
      by congruence.
    clear Em.
    destruct (flt d0 (deltaKm + 0.0001)) eqn:Ed; rewrite snd_bind;
      match goal with
      | |- context [scans ?mt ?g ?pt ?k ?x ?s] =>
          destruct (snd (scans mt g pt k x s)) as [ms' | | ] eqn:Es;
          try discriminate
      end; simpl; intros H'; inversion H'; subst ms' k;
      (eapply (scans_invariant _ _ _ _ _ _ I); [ | | | exact Es]).
    all: try (intros j this' d s Hj Hthis Hm Hlt Hs; right; simpl;
              split; [lia | ]; exists this';
              unfold Point_Distance, DistanceGeoType in Hm;
              inversion Hm as [Hd]; specialize (Hle s Hs);
              split; [exact Hthis | ]; split;
              [ try reflexivity; apply Distance_sym | ];
              try rewrite Hd; try lra;
              rewrite Distance_sym in Hd; lra).
    - right. simpl. split; [lia | ]. exists this.
      apply flt_true_iff in Ed. auto.
    - left. simpl. auto. }
  unfold I in HI. clear Hle. subst i dist.
  destruct HI as [[E1 E2] | HI]; [left; auto | right; exact HI].
Qed.

Lemma Bestest_sound_witness :
  (0%Z = Len (slicePoints [mkPoint 1 0])
   /\ (Distance 1 0 0 0 = -1 \/ Distance 1 0 0 0 = 200 + 0.0001))
  \/ ((0 <= 0 < Len (slicePoints [mkPoint 1 0]))%Z
      /\ exists p, IndexPoint (slicePoints [mkPoint 1 0]) 0 = Some p
                   /\ Distance 1 0 0 0
                      = Distance (Lat p) (Lon p) (Lat (mkPoint 0 0))
                          (Lon (mkPoint 0 0))
                   /\ Distance 1 0 0 0 < 200 + 0.0001).
Proof.
  apply (Bestest_sound (slicePoints [mkPoint 1 0]) (mkPoint 0 0) 200 0
           (Distance 1 0 0 0)).
  - vm_compute. discriminate.
  - assert (Hd : Distance 1 0 0 0 < 200 + 0.0001).
    { rewrite Distance_to_equator by lra. pose proof PI_4 as Hpi.
      unfold Radian, EarthRadiusInKM. lra. }
    unfold result, Bestest, seed, sort_Search. mstep.
    rewrite search_loop_step by lia. zfold.
    erewrite read_slice by reflexivity. mstep.
    replace (Less (mkPoint 0 0) (mkPoint 1 0)) with true
      by (symmetry; apply Less_true_iff; simpl; lra).
    mstep. rewrite search_loop_stop by lia. mstep.
    unfold Bestest_vars. mstep.
    erewrite read_slice by reflexivity. mstep.
    unfold DistanceGeoType. rewrite flt_true by exact Hd.
    unfold scans. mstep.
    rewrite for_loop_stop by reflexivity. mstep.
    rewrite for_loop_stop by reflexivity. mstep.
    reflexivity.
Defined.

Lemma ApproximateDistanceGeo_nonneg (lat1 lon1 lat2 lon2 dist : R) :
  ApproximateDistanceGeo lat1 lon1 lat2 lon2 = Some dist -> 0 <= dist.
Proof.
  unfold ApproximateDistanceGeo.
  destruct (LookupLonKmPerLat lat1); [ | discriminate].
  intros H; inversion H. apply sqrt_pos.
Qed.

(** When the binary search finds a greater point, [Closest] returns the index
    of a point of the sequence whatever the radius: the distance it returns
    is the approximate distance between that point and the query (scaled at
    the latitude of one of the two), it is not negative, and it is no more
    than the approximate distance of the point the binary search found.
    Otherwise it returns the length and -1. *)
Theorem Closest_sound (g : GeoPoints) (pt : Point) (deltaKm : R)
    (i : Z) (dist : R) :
  (0 <= Len g)%Z ->
  result (Closest g pt deltaKm) = Ret (i, dist) ->
  (i = Len g /\ dist = -1 /\ result (seed g pt) = Ret (Len g))
  \/ ((0 <= i < Len g)%Z
      /\ (exists p, IndexPoint g i = Some p
                    /\ (Approximately p pt = Some dist
                        \/ Approximately pt p = Some dist))
      /\ 0 <= dist
      /\ exists x px dx,
           result (seed g pt) = Ret x /\ IndexPoint g x = Some px
           /\ Approximately px pt = Some dx /\ dist <= dx).
Proof.
  intros Hlen. unfold result, Closest. rewrite snd_bind.
  pose proof (seed_range g pt) as Hrange.
  destruct (snd (seed g pt)) as [x | | ]; try discriminate.
  specialize (Hrange x Hlen eq_refl).
  destruct (x =? Len g)%Z eqn:Ex.
  { apply Z.eqb_eq in Ex. simpl. intros H; inversion H; subst. left. auto. }
  apply Z.eqb_neq in Ex. rewrite snd_bind.
  destruct (snd (Closest_vars g pt deltaKm x)) as [[k ms] | | ] eqn:Ev;
    try discriminate.
  simpl. intros H; inversion H as [[Hbest Hdist]]. clear H. right.
  revert Ev. unfold Closest_vars. rewrite snd_bind.
  destruct (snd (read g x)) as [this | | ] eqn:Er; try discriminate.
  apply read_Ret in Er. rewrite snd_bind.
  destruct (snd (measure x (Approximately this pt))) as [d0 | | ] eqn:Em;
    try discriminate.
  apply measure_Ret in Em. rewrite snd_bind.
  destruct (LookupLonKmPerLat (Lat pt)) as [lonKm | ]; simpl; [ | discriminate].
  rewrite snd_bind.
  match goal with
  | |- context [scans ?mt ?g ?pt ?k ?x ?s] =>
      destruct (snd (scans mt g pt k x s)) as [ms' | | ] eqn:Es;
      try discriminate
  end.
  simpl. intros H'; inversion H'; subst ms' k. clear H'.
  set (I := fun s : vars =>
    (0 <= best s < Len g)%Z
    /\ (exists p, IndexPoint g (best s) = Some p
                  /\ (Approximately p pt = Some (closest s)
                      \/ Approximately pt p = Some (closest s)))
    /\ closest s <= d0).
  assert (HI : I (snd ms)).
  { eapply (scans_invariant _ _ _ _ _ _ I); [ | | | exact Es].
    - intros j this' d s Hj Hthis Hm Hlt (_ & _ & Hle).
      split; [simpl; lia | ]. split; [ | simpl; lra].
      exists this'. simpl. auto.
    - intros j this' d s Hj Hthis Hm Hlt (_ & _ & Hle).
      split; [simpl; lia | ]. split; [ | simpl; lra].
      exists this'. simpl. auto.
    - split; [simpl; lia | ]. split; [ | simpl; lra].
      exists this. simpl. auto. }
  destruct HI as (Hi & (p & Hp & Hd) & Hle).
  subst i dist.
  split; [exact Hi | ]. split; [exists p; auto | ]. split.
  - destruct Hd as [Hd | Hd]; unfold Approximately in Hd;
      eapply ApproximateDistanceGeo_nonneg; exact Hd.
  - exists x, this, d0. auto.
Qed.

Lemma Closest_sound_witness :
  (1%Z = Len (slicePoints [mkPoint 0.012 (-0.016); mkPoint 0.012 0.005;
                           mkPoint 0.012 0.016])
   /\ 1.444443 = -1
   /\ result (seed (slicePoints [mkPoint 0.012 (-0.016); mkPoint 0.012 0.005;
                                 mkPoint 0.012 0.016]) (mkPoint 0 0))
      = Ret (Len (slicePoints [mkPoint 0.012 (-0.016); mkPoint 0.012 0.005;
                               mkPoint 0.012 0.016])))
  \/ ((0 <= 1 < Len (slicePoints [mkPoint 0.012 (-0.016); mkPoint 0.012 0.005;
                                  mkPoint 0.012 0.016]))%Z
      /\ (exists p,
             IndexPoint (slicePoints [mkPoint 0.012 (-0.016);
                                      mkPoint 0.012 0.005;
                                      mkPoint 0.012 0.016]) 1 = Some p
             /\ (Approximately p (mkPoint 0 0) = Some 1.444443
                 \/ Approximately (mkPoint 0 0) p = Some 1.444443))
      /\ 0 <= 1.444443
      /\ exists x px dx,
           result (seed (slicePoints [mkPoint 0.012 (-0.016);
                                      mkPoint 0.012 0.005;
                                      mkPoint 0.012 0.016]) (mkPoint 0 0))
           = Ret x
           /\ IndexPoint (slicePoints [mkPoint 0.012 (-0.016);
                                       mkPoint 0.012 0.005;
                                       mkPoint 0.012 0.016]) x = Some px
           /\ Approximately px (mkPoint 0 0) = Some dx /\ 1.444443 <= dx).
Proof.
  apply (Closest_sound
           (slicePoints [mkPoint 0.012 (-0.016); mkPoint 0.012 0.005;
                         mkPoint 0.012 0.016]) (mkPoint 0 0) 10 1 1.444443).
  - vm_compute. discriminate.
  - unfold result, Closest, seed, sort_Search. mstep.
    rewrite search_loop_step by lia. zfold.
    erewrite read_slice by reflexivity. mstep.
    replace (Less (mkPoint 0 0) (mkPoint 0.012 0.005)) with true
      by (symmetry; apply Less_true_iff; simpl; lra).
    mstep. rewrite search_loop_step by lia. zfold.
    erewrite read_slice by reflexivity. mstep.
    replace (Less (mkPoint 0 0) (mkPoint 0.012 (-0.016))) with true
      by (symmetry; apply Less_true_iff; simpl; lra).
    mstep. rewrite search_loop_stop by lia. mstep.
    rewrite Closest_vars_stale_corridor. mstep. reflexivity.
Defined.

(** ** What a range scan calls back with, and how it ends *)

Lemma Iter_IndexPoint_Load {St} (m : Iter St) (i : Z) :
  Iter_IndexPoint m i = bind (Load m i) (fun cur => ret (DPoint (d m) cur)).
Proof.
  unfold Iter_IndexPoint, Load. cbv zeta. simpl.
  destruct (slice (B m) _ _) as [buf | ]; simpl; [ | reflexivity].
  destruct (Decode (d m) buf); reflexivity.
Qed.

Lemma records_from_In {St} (m : Iter St) (k cnt : nat) (rec : St) :
  In rec (records_from m k cnt) <->
  exists j, (k <= j < k + cnt)%nat /\ record_at m (Z.of_nat j) = Some rec.
Proof.
  unfold records_from. rewrite in_flat_map. split.
  - intros (j & Hj & Hin). apply in_seq in Hj. exists j. split; [lia | ].
    destruct (record_at m (Z.of_nat j)) as [r | ]; simpl in Hin;
      [destruct Hin as [-> | []]; reflexivity | contradiction].
  - intros (j & Hj & Hrec). exists j. split; [apply in_seq; lia | ].
    rewrite Hrec. left. reflexivity.
Qed.

Lemma records_from_cons {St} (m : Iter St) (k cnt : nat) (rec : St) :
  record_at m (Z.of_nat k) = Some rec ->
  records_from m k (S cnt) = rec :: records_from m (S k) cnt.
Proof. intros H. unfold records_from. simpl. rewrite H. reflexivity. Qed.

Lemma records_from_app {St} (m : Iter St) (k a b : nat) :
  records_from m k (a + b) = records_from m k a ++ records_from m (k + a) b.
Proof. unfold records_from. rewrite seq_app, flat_map_app. reflexivity. Qed.

Lemma filter_none {A} (f : A -> bool) (l : list A) :
  (forall a, In a l -> f a = false) -> filter f l = [].
Proof.
  induction l as [ | a l IH]; intros H; simpl; [reflexivity | ].
  rewrite (H a) by (left; reflexivity). apply IH. intros b Hb. apply H.
  right. exact Hb.
Qed.

Lemma existsb_none {A} (f : A -> bool) (l : list A) :
  (forall a, In a l -> f a = false) -> existsb f l = false.
Proof.
  induction l as [ | a l IH]; intros H; simpl; [reflexivity | ].
  rewrite (H a) by (left; reflexivity). apply IH. intros b Hb. apply H.
  right. exact Hb.
Qed.

Lemma existsb_agree {A} (f g : A -> bool) (l : list A) :
  (forall a, In a l -> f a = g a) -> existsb f l = existsb g l.
Proof.
  induction l as [ | a l IH]; intros H; simpl; [reflexivity | ].
  rewrite (H a) by (left; reflexivity). rewrite IH; [reflexivity | ].
  intros b Hb. apply H. right. exact Hb.
Qed.

Section RangeScanExact.
Context {St : Type}.
Variable m : Iter St.
Variables from to : Point.
Variable ctr : option (Point -> bool).

Hypothesis size_pos : (0 < Size (d m))%Z.
Hypothesis len_int : (len (B m) <= max_int)%Z.
Hypothesis decoder_lawful : lawful (d m).
Hypothesis store_sorted : sorted_store m.
Hypothesis all_decode :
  forall i, (0 <= i < records m)%Z -> record_at m i <> None.

Lemma records_nonneg : (0 <= records m)%Z.
Proof. unfold records. apply Z.div_pos; [apply len_nonneg | lia]. Qed.

Lemma records_from_sorted (k j : nat) (rk rj : St) :
  (k <= j)%nat ->
  record_at m (Z.of_nat k) = Some rk -> record_at m (Z.of_nat j) = Some rj ->
  Less (DPoint (d m) rj) (DPoint (d m) rk) = false.
Proof.
  intros Hkj Hk Hj. apply (store_sorted (Z.of_nat k) (Z.of_nat j)); auto. lia.
Qed.

Lemma Ranger_loop_exact (fuel : nat) :
  forall k : nat,
    (Z.of_nat k <= records m)%Z -> (1 <= records m)%Z ->
    (Z.of_nat fuel = records m - Z.of_nat k + 1)%Z ->
    callbacks (fst (Ranger_loop fuel m from to ctr (Z.of_nat k)))
    = filter (fun rec => Less (DPoint (d m) rec) to
                         && between (Lon (DPoint (d m) rec)) (Lon from) (Lon to)
                         && accepted ctr (DPoint (d m) rec))
        (records_from m k (Z.to_nat (records m) - k))
    /\ snd (Ranger_loop fuel m from to ctr (Z.of_nat k))
       = if existsb (fun rec => negb (Less (DPoint (d m) rec) to))
              (records_from m k (Z.to_nat (records m) - k))
         then Ret tt else Panic.
Proof.
  induction fuel as [ | fuel IH]; intros k Hk Hsize Hfuel; [lia | ].
  simpl Ranger_loop. rewrite (Load_record m size_pos len_int) by lia.
  destruct (Z.eq_dec (Z.of_nat k) (records m)) as [Eend | Hlt].
  - assert (Enone : record_at m (Z.of_nat k) = None).
    { destruct (record_at m (Z.of_nat k)) as [cur | ] eqn:E; [ | reflexivity].
      pose proof (record_at_in_range m size_pos (Z.of_nat k) cur) as Hr.
      assert (Z.of_nat k < records m)%Z by (apply Hr; [lia | exact E]). lia. }
    rewrite Enone.
    replace (Z.to_nat (records m) - k)%nat with 0%nat by lia.
    split; reflexivity.
  - assert (Hin : (0 <= Z.of_nat k < records m)%Z) by lia.
    destruct (record_at m (Z.of_nat k)) as [cur | ] eqn:Erec;
      [ | exfalso; apply (all_decode _ Hin); exact Erec].
    replace (Z.to_nat (records m) - k)%nat
      with (S (Z.to_nat (records m) - S k)) by lia.
    rewrite (records_from_cons m k _ cur Erec).
    rewrite bind_ret. unfold Iter_Less. rewrite decoder_lawful.
    cbn [filter existsb].
    destruct (Less (DPoint (d m) cur) to) eqn:Eto; cbn [negb andb orb].
    + destruct (IH (S k)) as (Hcb & Hres); try lia.
      replace (Z.of_nat (S k)) with (Z.of_nat k + 1)%Z in Hcb, Hres by lia.
      cbv zeta.
      set (body := if between (Lon (DPoint (d m) cur)) (Lon from) (Lon to)
                   then match ctr with
                        | Some ContainsPoint =>
                            if ContainsPoint (DPoint (d m) cur)
                            then emit (Callback cur) else ret tt
                        | None => emit (Callback cur)
                        end
                   else ret tt).
      assert (Hbody :
        snd body = Ret tt /\
        callbacks (fst body)
        = if between (Lon (DPoint (d m) cur)) (Lon from) (Lon to)
             && accepted ctr (DPoint (d m) cur) then [cur] else []).
      { unfold body, accepted.
        destruct (between (Lon (DPoint (d m) cur)) (Lon from) (Lon to));
          [ | split; reflexivity].
        destruct ctr as [ContainsPoint | ]; [ | split; reflexivity].
        destruct (ContainsPoint (DPoint (d m) cur)); split; reflexivity. }
      destruct Hbody as (Hsnd & Hfst).
      rewrite fst_bind, snd_bind, Hsnd. cbn [app callbacks fst snd].
      rewrite callbacks_app, Hfst, Hcb, Hres. split; [ | reflexivity].
      destruct (between _ _ _ && accepted ctr _); reflexivity.
    + simpl. split; [ | reflexivity]. symmetry. apply filter_none.
      intros rec Hrec. apply records_from_In in Hrec.
      destruct Hrec as (j & Hj & Hrj).
      pose proof (records_from_sorted k j cur rec ltac:(lia) Erec Hrj) as Hs.
      destruct (Less (DPoint (d m) rec) to) eqn:E; [ | reflexivity].
      rewrite (le_Less_trans _ _ _ Hs E) in Eto. discriminate.
Qed.

Lemma Iter_IndexPoint_record (h : Z) (cur : St) :
  (0 <= h < records m)%Z -> record_at m h = Some cur ->
  Iter_IndexPoint m h = ([Fetch h], Ret (DPoint (d m) cur)).
Proof.
  intros Hh Hrec. rewrite Iter_IndexPoint_Load.
  rewrite (Load_record m size_pos len_int) by lia. rewrite Hrec. reflexivity.
Qed.

Lemma Ranger_seed :
  exists t idx,
    sort_Search (records m)
      (fun i => bind (Iter_IndexPoint m i) (fun p => ret (Less from p)))
    = (t, Ret idx)
    /\ callbacks t = []
    /\ (0 <= idx <= records m)%Z
    /\ (forall k rec, (0 <= k < idx)%Z -> record_at m k = Some rec ->
                      Less from (DPoint (d m) rec) = false)
    /\ (forall k rec, (idx <= k)%Z -> record_at m k = Some rec ->
                      Less from (DPoint (d m) rec) = true).
Proof.
  set (f := fun i => bind (Iter_IndexPoint m i) (fun p => ret (Less from p))).
  set (p := fun k => match record_at m k with
                     | Some rec => Less from (DPoint (d m) rec)
                     | None => false
                     end).
  assert (Hmono : forall a b, (0 <= a <= b)%Z -> (b < records m)%Z ->
                              p a = true -> p b = true).
  { intros a b Hab Hb. unfold p.
    destruct (record_at m a) as [ra | ] eqn:Ea; [ | discriminate].
    destruct (record_at m b) as [rb | ] eqn:Eb;
      [ | exfalso; apply (all_decode b); [lia | exact Eb]].
    intros Hlt. apply (Less_le_trans _ _ _ Hlt).
    apply (store_sorted a b ra rb); auto. }
  destruct (sort_Search_spec f p (records m)) as (t & idx & Hrun & Hidx & Hlow & Hhigh).
  - intros h Hh. unfold f, p.
    destruct (record_at m h) as [cur | ] eqn:E;
      [ | exfalso; apply (all_decode h Hh); exact E].
    exists [Fetch h]. rewrite (Iter_IndexPoint_record h cur Hh E). reflexivity.
  - exact Hmono.
  - apply records_nonneg.
  - exists t, idx. split; [exact Hrun | ]. split.
    + pose proof (search_loop_callbacks f (Z.to_nat (records m))) as Hc.
      unfold sort_Search in Hrun.
      specialize (Hc (fun h => ltac:(unfold f; rewrite fst_bind, callbacks_app;
        rewrite (proj1 (Iter_IndexPoint_no_callback m h));
        destruct (snd (Iter_IndexPoint m h)); reflexivity)) 0%Z (records m)).
      rewrite Hrun in Hc. exact Hc.
    + split; [exact Hidx | ]. split.
      * intros k rec Hk Hrec. specialize (Hlow k Hk). unfold p in Hlow.
        rewrite Hrec in Hlow. exact Hlow.
      * intros k rec Hk Hrec.
        assert (Hkn : (k < records m)%Z)
          by (apply (record_at_in_range m size_pos k rec); [lia | exact Hrec]).
        assert (Hp : p k = true) by (apply (Hmono idx k); try lia; apply Hhigh; lia).
        unfold p in Hp. rewrite Hrec in Hp. exact Hp.
Qed.

Lemma Ranger_exact_section :
  callbacks (trace (Ranger m from to ctr))
  = filter (fun rec => selected from to ctr (DPoint (d m) rec))
      (store_records m)
  /\ result (Ranger m from to ctr)
     = if negb (existsb (fun rec => Less from (DPoint (d m) rec))
                  (store_records m))
       then Ret ErrNotFound
       else if existsb (fun rec => Less from (DPoint (d m) rec)
                                   && negb (Less (DPoint (d m) rec) to))
                 (store_records m)
            then Ret nil_error
            else Panic.
Proof.
  destruct Ranger_seed as (t & idx & Hrun & Hcb & Hidx & Hlow & Hhigh).
  pose proof records_nonneg as Hn0.
  set (n := Z.to_nat (records m)).
  set (i := Z.to_nat idx).
  assert (Ei : Z.of_nat i = idx) by (unfold i; lia).
  assert (Hsplit : store_records m
                   = records_from m 0 i ++ records_from m i (n - i)).
  { unfold store_records. fold n.
    replace n with (i + (n - i))%nat at 1 by (unfold n, i; lia).
    rewrite records_from_app. reflexivity. }
  assert (Hpre : forall rec, In rec (records_from m 0 i) ->
                             Less from (DPoint (d m) rec) = false).
  { intros rec Hin. apply records_from_In in Hin.
    destruct Hin as (j & Hj & Hrec). apply (Hlow (Z.of_nat j)); [lia | exact Hrec]. }
  assert (Hsuf : forall rec, In rec (records_from m i (n - i)) ->
                             Less from (DPoint (d m) rec) = true).
  { intros rec Hin. apply records_from_In in Hin.
    destruct Hin as (j & Hj & Hrec). apply (Hhigh (Z.of_nat j)); [lia | exact Hrec]. }
  assert (Hfilter :
    filter (fun rec => selected from to ctr (DPoint (d m) rec)) (store_records m)
    = filter (fun rec => Less (DPoint (d m) rec) to
                         && between (Lon (DPoint (d m) rec)) (Lon from) (Lon to)
                         && accepted ctr (DPoint (d m) rec))
        (records_from m i (n - i))).
  { rewrite Hsplit, filter_app.
    rewrite (filter_none _ (records_from m 0 i)).
    - simpl. apply filter_ext_in. intros rec Hin. unfold selected.
      rewrite (Hsuf rec Hin). reflexivity.
    - intros rec Hin. unfold selected. rewrite (Hpre rec Hin). reflexivity. }
  assert (Hex1 :
    existsb (fun rec => Less from (DPoint (d m) rec)) (store_records m)
    = negb (idx =? records m)%Z).
  { rewrite Hsplit, existsb_app, (existsb_none _ _ Hpre). simpl.
    destruct (idx =? records m)%Z eqn:E.
    - apply Z.eqb_eq in E. replace (n - i)%nat with 0%nat by (unfold n, i; lia).
      reflexivity.
    - apply Z.eqb_neq in E. simpl. apply existsb_exists.
      destruct (record_at m idx) as [rec | ] eqn:Erec;
        [ | exfalso; apply (all_decode idx); [lia | exact Erec]].
      exists rec. split; [ | apply (Hhigh idx); [lia | exact Erec]].
      apply records_from_In. exists i. split; [unfold n, i; lia | ].
      rewrite Ei. exact Erec. }
  assert (Hex2 :
    existsb (fun rec => Less from (DPoint (d m) rec)
                        && negb (Less (DPoint (d m) rec) to)) (store_records m)
    = existsb (fun rec => negb (Less (DPoint (d m) rec) to))
        (records_from m i (n - i))).
  { rewrite Hsplit, existsb_app. rewrite (existsb_none _ (records_from m 0 i)).
    - simpl. apply existsb_agree. intros rec Hin.
      rewrite (Hsuf rec Hin). reflexivity.
    - intros rec Hin. rewrite (Hpre rec Hin). reflexivity. }
  rewrite Hfilter, Hex1, Hex2, negb_involutive.
  unfold trace, result, Ranger. rewrite (Iter_Len_floor m size_pos).
  fold (records m). cbn [lift]. rewrite bind_ret_l, Hrun, bind_ret.
  destruct (idx =? records m)%Z eqn:Eidx.
  - apply Z.eqb_eq in Eidx. cbn [fst snd ret]. rewrite app_nil_r, Hcb.
    replace (n - i)%nat with 0%nat by (unfold n, i; lia).
    split; reflexivity.
  - apply Z.eqb_neq in Eidx. cbn [negb].
    destruct (Ranger_loop_exact (S (Z.to_nat (records m - idx))) i)
      as (Hloopcb & Hloopres); try lia.
    rewrite Ei in Hloopcb, Hloopres. fold n in Hloopcb, Hloopres.
    rewrite fst_bind, snd_bind, Hloopres. cbn [fst snd].
    rewrite callbacks_app, callbacks_app, Hcb, Hloopcb.
    destruct (existsb (fun rec => negb (Less (DPoint (d m) rec) to))
                (records_from m i (n - i))); cbn [app fst snd ret callbacks];
      rewrite ?app_nil_r; split; reflexivity.
Qed.

End RangeScanExact.

Lemma store_tail_all_decode (i : Z) :
  (0 <= i < records store_tail)%Z -> record_at store_tail i <> None.
Proof.
  change (records store_tail) with 2%Z. intros Hi.
  assert (Hcase : i = 0%Z \/ i = 1%Z) by lia.
  destruct Hcase as [-> | ->].
  - change (record_at store_tail 0)
      with (Some (mkPoint (degrees Byte.x01) (degrees Byte.x01))).
    discriminate.
  - change (record_at store_tail 1)
      with (Some (mkPoint (degrees Byte.x02) (degrees Byte.x02))).
    discriminate.
Qed.

(** On a sorted store whose whole records all decode, a range scan calls
    back with exactly the records that are strictly after [from], strictly
    before [to], with a longitude between the two and accepted by the
    container if there is one: each once, in the order of the store, and
    nothing else. *)
Theorem Ranger_selects_exactly {St} (m : Iter St) (from to : Point)
    (ctr : option (Point -> bool)) :
  (0 < Size (d m))%Z -> (len (B m) <= max_int)%Z ->
  lawful (d m) -> sorted_store m ->
  (forall i, (0 <= i < records m)%Z -> record_at m i <> None) ->
  callbacks (trace (Ranger m from to ctr))
  = filter (fun rec => selected from to ctr (DPoint (d m) rec))
      (store_records m).
Proof.
  intros Hs Hl Hlaw Hsorted Hdec.
  exact (proj1 (Ranger_exact_section m from to ctr Hs Hl Hlaw Hsorted Hdec)).
Qed.

Lemma Ranger_selects_exactly_witness :
  callbacks (trace (Ranger store_tail (mkPoint 0 0) (mkPoint 5 5) None))
  = filter (fun rec => selected (mkPoint 0 0) (mkPoint 5 5) None
                         (DPoint (d store_tail) rec))
      (store_records store_tail).
Proof.
  apply (Ranger_selects_exactly store_tail (mkPoint 0 0) (mkPoint 5 5) None).
  - reflexivity.
  - vm_compute. discriminate.
  - exact byteDecoder_lawful.
  - exact store_tail_sorted.
  - exact store_tail_all_decode.
Defined.

(** How a range scan ends on a sorted store whose whole records all decode:
    with [ErrNotFound] when no record is after [from]; with a nil error when
    some record after [from] is not before [to], which is where the loop
    breaks; and otherwise, when every record after [from] is before [to], by
    a panic, the loop having run off the end of the buffer. *)
Theorem Ranger_result {St} (m : Iter St) (from to : Point)
    (ctr : option (Point -> bool)) :
  (0 < Size (d m))%Z -> (len (B m) <= max_int)%Z ->
  lawful (d m) -> sorted_store m ->
  (forall i, (0 <= i < records m)%Z -> record_at m i <> None) ->
  result (Ranger m from to ctr)
  = if negb (existsb (fun rec => Less from (DPoint (d m) rec))
               (store_records m))
    then Ret ErrNotFound
    else if existsb (fun rec => Less from (DPoint (d m) rec)
                                && negb (Less (DPoint (d m) rec) to))
              (store_records m)
         then Ret nil_error
         else Panic.
Proof.
  intros Hs Hl Hlaw Hsorted Hdec.
  exact (proj2 (Ranger_exact_section m from to ctr Hs Hl Hlaw Hsorted Hdec)).
Qed.

Lemma Ranger_result_witness :
  result (Ranger store_tail (mkPoint 0 0) (mkPoint 2 0) None)
  = if negb (existsb (fun rec => Less (mkPoint 0 0)
                                   (DPoint (d store_tail) rec))
               (store_records store_tail))
    then Ret ErrNotFound
    else if existsb (fun rec => Less (mkPoint 0 0) (DPoint (d store_tail) rec)
                                && negb (Less (DPoint (d store_tail) rec)
                                           (mkPoint 2 0)))
              (store_records store_tail)
         then Ret nil_error
         else Panic.
Proof.
  apply (Ranger_result store_tail (mkPoint 0 0) (mkPoint 2 0) None).
  - reflexivity.
  - vm_compute. discriminate.
  - exact byteDecoder_lawful.
  - exact store_tail_sorted.
  - exact store_tail_all_decode.
Defined.
